(** * Vivilux (CHL-MZI): meshes, layers and nets

    A shallow embedding of [src/vivilux/meshes.py] (module [Meshes]), of
    [src/vivilux/__init__.py] (module [Vivilux]) and of
    [src/vivilux/activations.py] (module [Activations]), with the properties
    of the specification stated and settled on it.

    Conventions.
    - numpy [float64] values are idealised: as real numbers in [Meshes]
      (where [np.power] is involved), and as the elements of an arbitrary
      carrier with [+], [-], [*] in [Vivilux] (where only these are used),
      instantiated with the rationals for evaluation.
    - Python objects that are shared and mutated live in a store and are
      named by their index; numpy arrays obtained by basic slicing or by
      iterating over a 2-D array are views of the buffer they come from.
    - A Python call either returns or raises: [outcome]. *)

From Stdlib Require Import Reals Lra Lia ZArith QArith String List.
From stdpp Require Import base option list gmap.

(** * Outcomes of Python calls *)

(** The exceptions the modelled code can raise.  The last two are not Python
    exceptions: [NonFiniteValue] marks a numpy computation that goes on with
    [inf] or [nan] (a RuntimeWarning at most), which the real-valued model
    does not follow; [BadRef] marks an index that names no object of the
    store, which the constructors never produce. *)
Inductive exn : Type :=
| ValueError
| TypeError
| IndexError
| ZeroDivisionError
| UnboundLocalError
| PyException (msg : string)
| NonFiniteValue
| BadRef.

Inductive outcome (A : Type) : Type :=
| Ok (a : A)
| Raise (e : exn).
Arguments Ok {A} a.
Arguments Raise {A} e.

Definition obind {A B} (x : outcome A) (k : A -> outcome B) : outcome B :=
  match x with
  | Ok a => k a
  | Raise e => Raise e
  end.

Definition of_option {A} (e : exn) (o : option A) : outcome A :=
  match o with
  | Some a => Ok a
  | None => Raise e
  end.

Declare Scope py_scope.
Delimit Scope py_scope with py.
Notation "'let*' x ':=' m 'in' k" := (obind m (fun x => k))
  (at level 10, x pattern, m at level 100, k at level 200) : py_scope.

(** * Two-dimensional arrays as lists of rows *)

Section Arrays.
Context {A : Type}.

(** [a.shape] of a 2-D array; an array without rows has no columns. *)
Definition shape (M : list (list A)) : nat * nat :=
  (length M, match M with [] => 0%nat | r :: _ => length r end).

Definition rect (M : list (list A)) : Prop :=
  Forall (fun r => length r = snd (shape M)) M.

(** [a[:m, :n]] *)
Definition block (m n : nat) (M : list (list A)) : list (list A) :=
  map (take n) (take m M).

(** [a.T] *)
Fixpoint transpose_rows (c : nat) (M : list (list A)) : list (list A) :=
  match c with
  | O => []
  | S c' => transpose_rows c' M ++ [omap (fun r => r !! c') M]
  end.
Definition transpose (M : list (list A)) : list (list A) :=
  transpose_rows (snd (shape M)) M.

(** [a[mask]] on one row: the entries under a true mask, in order. *)
Fixpoint sel (bs : list bool) (xs : list A) : list A :=
  match bs, xs with
  | b :: bs', x :: xs' => if b then x :: sel bs' xs' else sel bs' xs'
  | _, _ => []
  end.

(** [a[mask] = vs] on one row: the entries under a true mask are replaced
    by the values in order; the values not used are returned. *)
Fixpoint put (bs : list bool) (vs : list A) (xs : list A) : list A * list A :=
  match bs, xs with
  | b :: bs', x :: xs' =>
      if b then
        match vs with
        | v :: vs' => let '(r, rest) := put bs' vs' xs' in (v :: r, rest)
        | [] => (x :: xs', [])
        end
      else let '(r, rest) := put bs' vs xs' in (x :: r, rest)
  | _, _ => (xs, vs)
  end.

(** Boolean indexing of a 2-D array is row-major. *)
Definition sel2 (mask : list (list bool)) (M : list (list A)) : list A :=
  concat (zip_with sel mask M).

Fixpoint put2 (mask : list (list bool)) (vs : list A) (M : list (list A))
  : list (list A) :=
  match mask, M with
  | bs :: mask', xs :: M' =>
      let '(r, rest) := put bs vs xs in r :: put2 mask' rest M'
  | _, _ => M
  end.

(** [a[mask] = v] for a scalar [v]. *)
Definition fill2 (mask : list (list bool)) (v : A) (M : list (list A))
  : list (list A) :=
  zip_with (zip_with (fun (b : bool) x => if b then v else x)) mask M.

Definition count_true (bs : list bool) : nat := length (filter (fun b => b = true) bs).
(** The array that [a[mask] = g(b[mask])] leaves, entry by entry. *)
Fixpoint merge_row (g : A -> A) (bs : list bool) (ys xs : list A) : list A :=
  match bs, ys, xs with
  | b :: bs', y :: ys', x :: xs' =>
      (if b then g y else x) :: merge_row g bs' ys' xs'
  | _, _, _ => []
  end.

Fixpoint merge2 (g : A -> A) (mask : list (list bool)) (Y X : list (list A))
  : list (list A) :=
  match mask, Y, X with
  | bs :: mask', ys :: Y', xs :: X' =>
      merge_row g bs ys xs :: merge2 g mask' Y' X'
  | _, _, _ => []
  end.

Lemma put_sel_map (g : A -> A) bs ys xs rest :
  length bs = length ys -> length bs = length xs ->
  put bs (map g (sel bs ys) ++ rest) xs = (merge_row g bs ys xs, rest).
Proof.
  revert ys xs. induction bs as [| b bs IH]; intros ys xs Hy Hx.
  - destruct xs; [| discriminate]. destruct ys; reflexivity.
  - destruct ys as [| y ys]; [discriminate |].
    destruct xs as [| x xs]; [discriminate |].
    injection Hy as Hy. injection Hx as Hx.
    cbn. destruct b; cbn; rewrite (IH ys xs Hy Hx); reflexivity.
Qed.

Lemma put2_sel2_map (g : A -> A) mask Y X rest :
  map length mask = map length Y -> map length mask = map length X ->
  put2 mask (map g (sel2 mask Y) ++ rest) X = merge2 g mask Y X.
Proof.
  revert Y X rest. induction mask as [| bs mask IH]; intros Y X rest HY HX.
  - destruct X; [| discriminate]. reflexivity.
  - destruct Y as [| ys Y]; [discriminate |].
    destruct X as [| xs X]; [discriminate |].
    injection HY as Hy HY. injection HX as Hx HX.
    unfold sel2. cbn [zip_with concat put2 merge2].
    rewrite map_app, <- app_assoc.
    rewrite (put_sel_map g bs ys xs _ Hy Hx).
    f_equal. apply IH; assumption.
Qed.
End Arrays.

(** numpy broadcasting of one axis: the same length, or length 1 repeated. *)
Definition bcast {A} (n : nat) (l : list A) : option (list A) :=
  if (length l =? n)%nat then Some l
  else match l with
       | [x] => Some (replicate n x)
       | _ => None
       end.

(** Broadcasting of a 2-D array to the shape [(r, c)]. *)
Definition broadcast {A} (r c : nat) (d : list (list A)) : option (list (list A)) :=
  rows ← bcast r d; mapM (bcast c) rows.

(** Python indexing [l[i]] with a negative [i] counted from the end. *)
Definition py_index {A} (l : list A) (i : Z) : option nat :=
  let n := Z.of_nat (length l) in
  if (0 <=? i)%Z && (i <? n)%Z then Some (Z.to_nat i)
  else if (i <? 0)%Z && (- n <=? i)%Z then Some (Z.to_nat (n + i))
  else None.

Definition same_shape {A B} (X : list (list A)) (Y : list (list B)) : bool :=
  bool_decide (map length X = map length Y).

(** ** Shapes *)

Lemma shape_of_replicate {A} (M : list (list A)) r c :
  map length M = replicate r c ->
  length M = r /\ Forall (fun row => length row = c) M /\
  (r <> 0 -> shape M = (r, c)).
Proof.
  intros H. assert (Hl : length M = r).
  { rewrite <- (length_map length M), H. apply length_replicate. }
  split; [exact Hl |]. split.
  - apply Forall_forall. intros row Hin.
    assert (Hc : length row ∈ replicate r c).
    { rewrite <- H. apply list_elem_of_fmap. eauto. }
    apply elem_of_replicate in Hc as [-> _]. reflexivity.
  - intros Hr. unfold shape. rewrite Hl. f_equal.
    destruct M as [| row M]; [cbn in Hl; congruence |].
    destruct r; [congruence |]. cbn in H. now injection H as -> _.
Qed.

Lemma block_full {A} (M : list (list A)) r c n :
  map length M = replicate r c -> (r <> 0 -> n = c) ->
  block r n M = M.
Proof.
  intros H Hn. destruct (shape_of_replicate M r c H) as (Hl & Hrows & _).
  unfold block. rewrite firstn_all2 by lia.
  destruct (Nat.eq_dec r 0) as [-> | Hr].
  - destruct M; [reflexivity | discriminate].
  - rewrite (Hn Hr). clear Hn H Hl.
    induction Hrows as [| row M Hrow _ IH]; [reflexivity |].
    cbn. rewrite IH. f_equal. apply firstn_all2. lia.
Qed.

Lemma broadcast_full {A} (d : list (list A)) r c :
  map length d = replicate r c -> broadcast r c d = Some d.
Proof.
  intros H. destruct (shape_of_replicate d r c H) as (Hl & Hrows & _).
  assert (Eb : forall {B} (l : list B) n, length l = n -> bcast n l = Some l).
  { intros B l n E. unfold bcast. now rewrite E, Nat.eqb_refl. }
  unfold broadcast. rewrite (Eb _ d r Hl). cbn.
  clear H Hl. induction Hrows as [| row M Hrow _ IH]; [reflexivity |].
  cbn. rewrite (Eb _ row c Hrow). cbn. rewrite IH. reflexivity.
Qed.

(** * activations.py *)

Module Activations.
Local Open Scope R_scope.

(** [Sigmoid(A, B, C)] returns [lambda input: A/(1 + np.exp(-B*(input-C)))],
    which numpy applies entry by entry. *)
Definition Sigmoid1 (A B C : R) (x : R) : R := A / (1 + exp (- B * (x - C))).

Definition Sigmoid (A B C : R) (input : list R) : list R :=
  map (Sigmoid1 A B C) input.

(** The defaults [A=1, B=4, C=0.5], the activation of a [Layer]. *)
Definition default_Sigmoid : list R -> list R := Sigmoid 1 4 (1 / 2).

Lemma Sigmoid1_bounds A B C x : 0 < A -> 0 < Sigmoid1 A B C x < A.
Proof.
  intros HA. unfold Sigmoid1.
  pose proof (exp_pos (- B * (x - C))) as He.
  set (e := exp (- B * (x - C))) in *.
  assert (Hd : 0 < 1 + e) by lra.
  split.
  - apply Rdiv_lt_0_compat; lra.
  - apply (Rmult_lt_reg_r (1 + e)); [exact Hd |].
    unfold Rdiv. rewrite Rmult_assoc, Rinv_l by lra. nra.
Qed.

Lemma Sigmoid1_increasing A B C x y :
  0 < A -> 0 < B -> x < y -> Sigmoid1 A B C x < Sigmoid1 A B C y.
Proof.
  intros HA HB Hxy. unfold Sigmoid1, Rdiv.
  apply Rmult_lt_compat_l; [exact HA |].
  pose proof (exp_pos (- B * (x - C))) as Hx.
  pose proof (exp_pos (- B * (y - C))) as Hy.
  assert (He : exp (- B * (y - C)) < exp (- B * (x - C)))
    by (apply exp_increasing; nra).
  apply Rinv_lt_contravar; [| lra].
  apply Rmult_lt_0_compat; lra.
Qed.

(** X21: for a positive [A], the activation [Sigmoid(A, B, C)] keeps the
    length of its input, every entry of its output is strictly between 0
    and [A], it is [A/2] at [C], and for a positive [B] it is strictly
    increasing. No input makes the division fail. *)
Theorem X21_Sigmoid_range (A B C : R) (input : list R) :
  0 < A ->
  length (Sigmoid A B C input) = length input /\
  Forall (fun y => 0 < y < A) (Sigmoid A B C input) /\
  Sigmoid A B C [C] = [A / 2] /\
  (0 < B -> forall x y, x < y -> Sigmoid1 A B C x < Sigmoid1 A B C y).
Proof.
  intros HA. split; [apply length_map |]. split; [| split].
  - unfold Sigmoid. apply Forall_map, Forall_forall. intros x _.
    now apply Sigmoid1_bounds.
  - unfold Sigmoid, Sigmoid1. cbn. do 2 f_equal.
    replace (- B * (C - C)) with 0 by ring. rewrite exp_0. lra.
  - intros HB x y Hxy. now apply Sigmoid1_increasing.
Qed.

Lemma X21_Sigmoid_range_witness :
  length (default_Sigmoid [0; 1 / 2; 1]) = 3%nat /\
  Forall (fun y => 0 < y < 1) (default_Sigmoid [0; 1 / 2; 1]) /\
  default_Sigmoid [1 / 2] = [1 / 2].
Proof.
  assert (HA : 0 < 1) by lra.
  destruct (X21_Sigmoid_range 1 4 (1 / 2) [0; 1 / 2; 1] HA) as (Hl & Hb & _).
  destruct (X21_Sigmoid_range 1 4 (1 / 2) [1 / 2] HA) as (_ & _ & Hc & _).
  split; [exact Hl |]. split; [exact Hb | exact Hc].
Defined.

End Activations.
(** * meshes.py *)

Module Meshes.
Local Open Scope R_scope.
Local Open Scope py_scope.

Definition vec : Type := list R.
Definition mat : Type := list (list R).
Definition bmat : Type := list (list bool).

(** ** Comparisons and arithmetic of floats, on real numbers *)

Definition leb (x y : R) : bool := if Rle_dec x y then true else false.
Definition ltb (x y : R) : bool := if Rlt_dec x y then true else false.

(** numpy division: a zero divisor gives [inf] or [nan], not an exception. *)
Definition fdiv (a b : R) : outcome R :=
  if Req_dec_T b 0 then Raise NonFiniteValue else Ok (a / b).

(** Python division of two Python floats: a zero divisor raises. *)
Definition pydiv (a b : R) : outcome R :=
  if Req_dec_T b 0 then Raise ZeroDivisionError else Ok (a / b).

Definition is_int (y : R) : option Z :=
  if Req_dec_T y (IZR (Int_part y)) then Some (Int_part y) else None.

(** [np.power(x, y)] where its value is a real number: a positive base gives
    [exp (y * ln x)]; a zero base gives 0 for a positive exponent and 1 for
    the exponent 0 ([inf] for a negative one); a negative base has a power
    for an integer exponent only ([nan] otherwise). *)
Definition np_power (x y : R) : outcome R :=
  if Rlt_dec 0 x then Ok (Rpower x y)
  else if Req_dec_T x 0 then
    (if Rlt_dec 0 y then Ok 0
     else if Req_dec_T y 0 then Ok 1 else Raise NonFiniteValue)
  else match is_int y with
       | Some k => Ok (powerRZ x k)
       | None => Raise NonFiniteValue
       end.

(** [np.round]: to the nearest integer, halves to the even one. *)
Definition np_round (x : R) : Z :=
  let f := Int_part x in
  if ltb (x - IZR f) (1 / 2) then f
  else if ltb (1 / 2) (x - IZR f) then (f + 1)%Z
  else if Z.even f then f else (f + 1)%Z.

Fixpoint mapO {A B} (f : A -> outcome B) (l : list A) : outcome (list B) :=
  match l with
  | [] => Ok []
  | x :: l' => let* y := f x in let* ys := mapO f l' in Ok (y :: ys)
  end.

Definition sum (xs : vec) : R := fold_right Rplus 0 xs.

(** [np.mean] of all the entries; [None] is the [nan] of an empty array. *)
Definition mean (M : mat) : option R :=
  let xs := concat M in
  match xs with
  | [] => None
  | _ => Some (sum xs / INR (length xs))
  end.

Definition mask (p : R -> bool) (M : mat) : bmat := map (map p) M.
Definition mnot (B : bmat) : bmat := map (map negb) B.
Definition mor (B C : bmat) : bmat := zip_with (zip_with orb) B C.
Definition scale (g : R) (M : mat) : mat := map (map (Rmult g)) M.
Definition dot (u v : vec) : R := sum (zip_with Rmult u v).
Definition matvec (M : mat) (v : vec) : vec := map (fun r => dot r v) M.

(** ** The Mesh object *)

(** What a Mesh reads of its sending layer (class [Layer] of [.layers],
    which is not part of the sources): its length and the two entries of
    its [OptThreshParams]. *)
Record InLayer : Type := {
  in_len : nat;
  in_Send : R;
  in_Delta : R
}.

Record Mesh : Type := {
  size : nat;
  Off : R;
  Gain : R;
  wbOn : bool;
  wbAvgThr : R;
  wbHiThr : R;
  wbHiGain : R;
  wbLoThr : R;
  wbLoGain : R;
  wbInc : R;
  wbDec : R;
  WtBalInterval : Z;
  softBound : bool;
  WtBalCtr : Z;
  wbFact : R;
  matrix : mat;
  linMatrix : mat;
  Gscale : R;
  inLayer : InLayer;
  lastAct : vec;
  inAct : vec;
  modified : bool;
  trainable : bool;
  AbsScale : R;
  RelScale : R;
  (** [self.mesh] of a TransposeMesh: the name of its target in the store;
      [None] for a Mesh of the base class. *)
  mesh : option nat
}.

Definition set_matrix (M : mat) (m : Mesh) : Mesh :=
  {| size := size m; Off := Off m; Gain := Gain m; wbOn := wbOn m;
     wbAvgThr := wbAvgThr m; wbHiThr := wbHiThr m; wbHiGain := wbHiGain m;
     wbLoThr := wbLoThr m; wbLoGain := wbLoGain m; wbInc := wbInc m;
     wbDec := wbDec m; WtBalInterval := WtBalInterval m;
     softBound := softBound m; WtBalCtr := WtBalCtr m; wbFact := wbFact m;
     matrix := M; linMatrix := linMatrix m; Gscale := Gscale m;
     inLayer := inLayer m; lastAct := lastAct m; inAct := inAct m;
     modified := modified m; trainable := trainable m;
     AbsScale := AbsScale m; RelScale := RelScale m; mesh := mesh m |}.

Definition set_linMatrix (L : mat) (m : Mesh) : Mesh :=
  {| size := size m; Off := Off m; Gain := Gain m; wbOn := wbOn m;
     wbAvgThr := wbAvgThr m; wbHiThr := wbHiThr m; wbHiGain := wbHiGain m;
     wbLoThr := wbLoThr m; wbLoGain := wbLoGain m; wbInc := wbInc m;
     wbDec := wbDec m; WtBalInterval := WtBalInterval m;
     softBound := softBound m; WtBalCtr := WtBalCtr m; wbFact := wbFact m;
     matrix := matrix m; linMatrix := L; Gscale := Gscale m;
     inLayer := inLayer m; lastAct := lastAct m; inAct := inAct m;
     modified := modified m; trainable := trainable m;
     AbsScale := AbsScale m; RelScale := RelScale m; mesh := mesh m |}.

(** The weight-balance variables: [WtBalCtr], [wbFact], [wbInc], [wbDec]. *)
Definition set_wb (ctr : Z) (fact inc dec : R) (m : Mesh) : Mesh :=
  {| size := size m; Off := Off m; Gain := Gain m; wbOn := wbOn m;
     wbAvgThr := wbAvgThr m; wbHiThr := wbHiThr m; wbHiGain := wbHiGain m;
     wbLoThr := wbLoThr m; wbLoGain := wbLoGain m; wbInc := inc;
     wbDec := dec; WtBalInterval := WtBalInterval m;
     softBound := softBound m; WtBalCtr := ctr; wbFact := fact;
     matrix := matrix m; linMatrix := linMatrix m; Gscale := Gscale m;
     inLayer := inLayer m; lastAct := lastAct m; inAct := inAct m;
     modified := modified m; trainable := trainable m;
     AbsScale := AbsScale m; RelScale := RelScale m; mesh := mesh m |}.

Definition set_Gscale (g : R) (m : Mesh) : Mesh :=
  {| size := size m; Off := Off m; Gain := Gain m; wbOn := wbOn m;
     wbAvgThr := wbAvgThr m; wbHiThr := wbHiThr m; wbHiGain := wbHiGain m;
     wbLoThr := wbLoThr m; wbLoGain := wbLoGain m; wbInc := wbInc m;
     wbDec := wbDec m; WtBalInterval := WtBalInterval m;
     softBound := softBound m; WtBalCtr := WtBalCtr m; wbFact := wbFact m;
     matrix := matrix m; linMatrix := linMatrix m; Gscale := g;
     inLayer := inLayer m; lastAct := lastAct m; inAct := inAct m;
     modified := modified m; trainable := trainable m;
     AbsScale := AbsScale m; RelScale := RelScale m; mesh := mesh m |}.

Definition set_acts (la ia : vec) (m : Mesh) : Mesh :=
  {| size := size m; Off := Off m; Gain := Gain m; wbOn := wbOn m;
     wbAvgThr := wbAvgThr m; wbHiThr := wbHiThr m; wbHiGain := wbHiGain m;
     wbLoThr := wbLoThr m; wbLoGain := wbLoGain m; wbInc := wbInc m;
     wbDec := wbDec m; WtBalInterval := WtBalInterval m;
     softBound := softBound m; WtBalCtr := WtBalCtr m; wbFact := wbFact m;
     matrix := matrix m; linMatrix := linMatrix m; Gscale := Gscale m;
     inLayer := inLayer m; lastAct := la; inAct := ia;
     modified := modified m; trainable := trainable m;
     AbsScale := AbsScale m; RelScale := RelScale m; mesh := mesh m |}.

Definition set_modified (b : bool) (m : Mesh) : Mesh :=
  {| size := size m; Off := Off m; Gain := Gain m; wbOn := wbOn m;
     wbAvgThr := wbAvgThr m; wbHiThr := wbHiThr m; wbHiGain := wbHiGain m;
     wbLoThr := wbLoThr m; wbLoGain := wbLoGain m; wbInc := wbInc m;
     wbDec := wbDec m; WtBalInterval := WtBalInterval m;
     softBound := softBound m; WtBalCtr := WtBalCtr m; wbFact := wbFact m;
     matrix := matrix m; linMatrix := linMatrix m; Gscale := Gscale m;
     inLayer := inLayer m; lastAct := lastAct m; inAct := inAct m;
     modified := b; trainable := trainable m;
     AbsScale := AbsScale m; RelScale := RelScale m; mesh := mesh m |}.

(** ** The bounded transform and its inverse *)

(** [1 / (1 + np.power(self.Off*(1-data)/data, self.Gain))], one entry. *)
Definition sigmoid1 (off gain data : R) : outcome R :=
  let* q := fdiv (off * (1 - data)) data in
  let* p := np_power q gain in
  fdiv 1 (1 + p).

Definition sigmoid (m : Mesh) (data : vec) : outcome vec :=
  mapO (sigmoid1 (Off m) (Gain m)) data.

(** [1 / (1 + np.power((1/self.Off)*(1-data)/data, (1/self.Gain)))]: the two
    reciprocals are Python divisions, evaluated whatever the data. *)
Definition invSigmoid1 (ioff igain data : R) : outcome R :=
  let* q := fdiv (ioff * (1 - data)) data in
  let* p := np_power q igain in
  fdiv 1 (1 + p).

Definition invSigmoid (m : Mesh) (data : vec) : outcome vec :=
  let* ioff := pydiv 1 (Off m) in
  let* igain := pydiv 1 (Gain m) in
  mapO (invSigmoid1 ioff igain) data.

Definition SigMatrix (m : Mesh) : outcome Mesh :=
  let lin := linMatrix m in
  let mask1 := mask (fun x => leb x 0) lin in
  if negb (same_shape mask1 (matrix m)) then Raise IndexError else
  let M1 := fill2 mask1 0 (matrix m) in
  let mask2 := mask (fun x => leb 1 x) lin in
  let M2 := fill2 mask2 1 M1 in
  let mask3 := mnot (mor mask1 mask2) in
  let* vs := sigmoid m (sel2 mask3 lin) in
  Ok (set_matrix (put2 mask3 vs M2) m).

Definition InvSigMatrix (m : Mesh) : outcome Mesh :=
  let M := matrix m in
  let mask1 := mask (fun x => leb x 0) M in
  let M1 := fill2 mask1 0 M in
  let mask2 := mask (fun x => leb 1 x) M1 in
  let M2 := fill2 mask2 1 M1 in
  let mask3 := mnot (mor mask1 mask2) in
  let* vs := invSigmoid m (sel2 mask3 M2) in
  if negb (same_shape mask3 (linMatrix m)) then Raise IndexError else
  Ok (set_linMatrix (put2 mask3 vs (linMatrix m)) (set_matrix M2 m)).

(** ** Weight balance, soft bounding, update *)

(** [if not self.WtBalance: return] tests the bound method itself, which is
    always true in Python: the guard never returns, and [wbOn] is not read. *)
Definition WtBalance_attribute_truth : bool := true.

Definition WtBalance (m : Mesh) : outcome Mesh :=
  let ctr := (WtBalCtr m + 1)%Z in
  if (WtBalInterval m <=? ctr)%Z then
    let m0 := set_wb 0 (wbFact m) (wbInc m) (wbDec m) m in
    if negb WtBalance_attribute_truth then Ok m0 else
    match mean (matrix m) with
    | None => Ok m0
    | Some wbAvg =>
        if ltb wbAvg (wbLoThr m) then
          let clamped := ltb wbAvg (wbAvgThr m) in
          let wbAvg' := if clamped then wbAvgThr m else wbAvg in
          let fact := wbLoGain m * (wbLoThr m - wbAvg') in
          let* dec := (if clamped then pydiv else fdiv) 1 (1 + fact) in
          Ok (set_wb 0 fact (2 - dec) dec m)
        else if ltb (wbHiThr m) wbAvg then
          let fact := wbHiGain m * (wbAvg - wbHiThr m) in
          let* inc := fdiv 1 (1 + fact) in
          Ok (set_wb 0 fact inc (2 - inc) m)
        else Ok m0
    end
  else Ok (set_wb ctr (wbFact m) (wbInc m) (wbDec m) m).

(** [delta[mask] *= rhs] with [rhs] the 1-D array of the factors. *)
Definition imul_at (msk : bmat) (rhs : vec) (delta : mat) : mat :=
  put2 msk (zip_with Rmult (sel2 msk delta) rhs) delta.

Definition SoftBound (m : Mesh) (delta : mat) : outcome mat :=
  let mask1 := mask (fun d => ltb 0 d) delta in
  let '(mm, n) := shape delta in
  let mask2 := mnot mask1 in
  if softBound m then
    let blk := block mm n (linMatrix m) in
    if negb (same_shape mask1 blk) then Raise IndexError else
    let d1 := imul_at mask1 (map (fun l => wbInc m * (1 - l)) (sel2 mask1 blk)) delta in
    Ok (imul_at mask2 (map (fun l => wbDec m * l) (sel2 mask2 blk)) d1)
  else
    let d1 := imul_at mask1 (map (fun _ => wbInc m) (sel2 mask1 delta)) delta in
    Ok (imul_at mask2 (map (fun _ => wbDec m) (sel2 mask2 d1)) d1).

Definition ClipLinMatrix (m : Mesh) : Mesh :=
  let L := linMatrix m in
  let L1 := fill2 (mask (fun x => ltb x 0) L) 0 L in
  let L2 := fill2 (mask (fun x => ltb 1 x) L1) 1 L1 in
  set_linMatrix L2 m.

Definition add_row (row drow : vec) : vec :=
  zip_with Rplus row drow ++ drop (length drow) row.

Definition add_block (L d : mat) : mat :=
  zip_with add_row L d ++ drop (length d) L.

(** [self.linMatrix[:m, :n] += delta] *)
Definition iadd_block (mm n : nat) (L d : mat) : outcome mat :=
  let '(r, c) := shape (block mm n L) in
  let* d' := of_option ValueError (broadcast r c d) in
  Ok (add_block L d').

(** [Mesh.Update] with [dwtLog = None]; [delta] is what
    [self.XCAL.GetDeltas] returns ([.processes] is not part of the sources). *)
Definition Update (m : Mesh) (delta : mat) : outcome Mesh :=
  let* d := SoftBound m delta in
  let '(mm, n) := shape d in
  let* L := iadd_block mm n (linMatrix m) d in
  let m1 := ClipLinMatrix (set_linMatrix L m) in
  let* m2 := SigMatrix m1 in
  WtBalance m2.

(** ** set, get, setGscale *)

(** [Mesh.set(matrix)]; the positional arguments of the call are a list. *)
Definition Mesh_set (m : Mesh) (args : list mat) : outcome Mesh :=
  match args with
  | [M] => InvSigMatrix (set_matrix M (set_modified true m))
  | _ => Raise TypeError
  end.

Definition Mesh_get (m : Mesh) : mat := scale (Gscale m) (matrix m).

(** [totalRel] is the sum of [RelScale] over [self.rcvLayer.excMeshes] and
    [avgActP] is [self.inLayer.ActAvg.ActPAvg]. *)
Definition setGscale (m : Mesh) (totalRel avgActP : R) : Mesh :=
  let g0 := AbsScale m * RelScale m in
  let g1 := g0 / (if ltb 0 totalRel then totalRel else 1) in
  let sendLayActN := Rmax (IZR (np_round (avgActP * INR (in_len (inLayer m))))) 1 in
  let sc := 1 / sendLayActN in
  set_Gscale (g1 * sc) m.

(** ** apply: the delta-sender encoding *)

Definition fill1 (bs : list bool) (v : R) (xs : vec) : vec :=
  zip_with (fun (b : bool) x => if b then v else x) bs xs.

(** The part of [Mesh.apply] before [applyTo]; [data] is what [getInput]
    returns. [np.pad] raises on a negative width. *)
Definition apply_encode (m : Mesh) (data : vec) : outcome Mesh :=
  if (size m <? length data)%nat then Raise ValueError else
  if negb (bool_decide (length (lastAct m) = size m /\ length (inAct m) = size m))
  then Raise ValueError else
  let data := take (size m) data ++ replicate (size m - length data) 0 in
  let delta := zip_with Rminus data (lastAct m) in
  let cond1 := map (fun d => leb d (in_Send (inLayer m))) data in
  let cond2 := map (fun d => leb (Rabs d) (in_Delta (inLayer m))) delta in
  let mask1 := zip_with orb cond1 cond2 in
  let notMask1 := map negb mask1 in
  let delta := fill1 mask1 0 delta in
  let la := fst (put notMask1 (sel notMask1 data) (lastAct m)) in
  let cond3 := map (fun x => ltb (in_Send (inLayer m)) x) la in
  let mask2 := zip_with andb cond3 cond1 in
  let delta := fst (put mask2 (map Ropp (sel mask2 la)) delta) in
  let la := fill1 mask2 0 la in
  Ok (set_acts la (zip_with Rplus (inAct m) delta) m).

(** ** Construction *)

Record MeshArgs : Type := {
  a_AbsScale : R;
  a_RelScale : R;
  a_Off : R;
  a_Gain : R;
  a_wbOn : bool;
  a_wbAvgThr : R;
  a_wbHiThr : R;
  a_wbHiGain : R;
  a_wbLoThr : R;
  a_wbLoGain : R;
  a_wbInc : R;
  a_wbDec : R;
  a_WtBalInterval : Z;
  a_softBound : bool
}.

(** The defaults of [Mesh.__init__]. *)
Definition default_args : MeshArgs :=
  {| a_AbsScale := 1; a_RelScale := 1; a_Off := 1; a_Gain := 6;
     a_wbOn := true; a_wbAvgThr := 25 / 100; a_wbHiThr := 4 / 10;
     a_wbHiGain := 4; a_wbLoThr := 4 / 10; a_wbLoGain := 6;
     a_wbInc := 1; a_wbDec := 1; a_WtBalInterval := 10;
     a_softBound := true |}.

(** [Mesh.__init__(size, inLayer, ...)]; [rand] is the draw of
    [np.random.rand(self.size, self.size)]. The argument [WtBalInterval] is
    not stored: the attribute is set to 0. *)
Definition Mesh_init (sz : nat) (inl : InLayer) (a : MeshArgs) (rand : mat)
  : outcome Mesh :=
  let size' := if (in_len inl <? sz)%nat then sz else in_len inl in
  let* glorotUniform := fdiv (sqrt 6) (sqrt (2 * INR sz)) in
  let M := map (map (fun r => 2 * glorotUniform * r - glorotUniform)) rand in
  InvSigMatrix
    {| size := size'; Off := a_Off a; Gain := a_Gain a; wbOn := a_wbOn a;
       wbAvgThr := a_wbAvgThr a; wbHiThr := a_wbHiThr a;
       wbHiGain := a_wbHiGain a; wbLoThr := a_wbLoThr a;
       wbLoGain := a_wbLoGain a; wbInc := a_wbInc a; wbDec := a_wbDec a;
       WtBalInterval := 0; softBound := a_softBound a;
       WtBalCtr := 0; wbFact := 0;
       matrix := M; linMatrix := M; Gscale := 1;
       inLayer := inl; lastAct := replicate size' 0; inAct := replicate size' 0;
       modified := false; trainable := true;
       AbsScale := a_AbsScale a; RelScale := a_RelScale a; mesh := None |}.

Definition as_transpose (t : nat) (m : Mesh) : Mesh :=
  {| size := size m; Off := Off m; Gain := Gain m; wbOn := wbOn m;
     wbAvgThr := wbAvgThr m; wbHiThr := wbHiThr m; wbHiGain := wbHiGain m;
     wbLoThr := wbLoThr m; wbLoGain := wbLoGain m; wbInc := wbInc m;
     wbDec := wbDec m; WtBalInterval := WtBalInterval m;
     softBound := softBound m; WtBalCtr := WtBalCtr m; wbFact := wbFact m;
     matrix := matrix m; linMatrix := linMatrix m; Gscale := Gscale m;
     inLayer := inLayer m; lastAct := lastAct m; inAct := inAct m;
     modified := modified m; trainable := false;
     AbsScale := AbsScale m; RelScale := RelScale m; mesh := Some t |}.

(** The defaults of [TransposeMesh.__init__]: [RelScale = 0.2]. *)
Definition transpose_args : MeshArgs :=
  {| a_AbsScale := 1; a_RelScale := 2 / 10; a_Off := 1; a_Gain := 6;
     a_wbOn := true; a_wbAvgThr := 25 / 100; a_wbHiThr := 4 / 10;
     a_wbHiGain := 4; a_wbLoThr := 4 / 10; a_wbLoGain := 6;
     a_wbInc := 1; a_wbDec := 1; a_WtBalInterval := 10;
     a_softBound := true |}.

(** ** The store of meshes and the methods a subclass overrides *)

Inductive Diag : Type :=
| AttemptedToApply (data : vec) (data_shape : nat) (mesh_shape : nat * nat)
| PrintedError (e : exn).

Record State : Type := {
  heap : list Mesh;           (* a Mesh is named by its rank of creation *)
  stdout : list Diag
}.

Definition with_heap (h : list Mesh) (st : State) : State :=
  {| heap := h; stdout := stdout st |}.

(** [Mesh.count]: the number of meshes created so far. *)
Definition count (st : State) : nat := length (heap st).

Definition lookup_mesh (i : nat) (st : State) : outcome Mesh :=
  of_option BadRef (heap st !! i).

(** [Mesh(size, inLayer, ...)]: the new object is named by [Mesh.count]. *)
Definition new_Mesh (sz : nat) (inl : InLayer) (a : MeshArgs) (rand : mat)
    (st : State) : outcome (nat * State) :=
  let* m := Mesh_init sz inl a rand in
  Ok (count st,
      {| heap := heap st ++ [m];
         stdout := stdout st |}).

(** [TransposeMesh(mesh, inLayer, ...)] *)
Definition new_TransposeMesh (t : nat) (inl : InLayer) (a : MeshArgs)
    (rand : mat) (st : State) : outcome (nat * State) :=
  let* tm := lookup_mesh t st in
  let* m := Mesh_init (size tm) inl a rand in
  Ok (count st,
      {| heap := heap st ++ [as_transpose t m]; stdout := stdout st |}).

Definition init_state : State := {| heap := []; stdout := [] |}.

Definition setGscale_at (i : nat) (totalRel avgActP : R) (st : State)
  : outcome State :=
  let* m := lookup_mesh i st in
  Ok (with_heap (<[i := setGscale m totalRel avgActP]> (heap st)) st).

(** [self.get()]: [Mesh.get], or [TransposeMesh.get] which calls the [get]
    of its target. A target is created before the mesh that wraps it, so
    its name is smaller and the recursion on the name ends. *)
Fixpoint get_rec (fuel : nat) (h : list Mesh) (i : nat) : outcome mat :=
  match fuel with
  | O => Raise BadRef
  | S fuel' =>
      let* m := of_option BadRef (h !! i) in
      match mesh m with
      | None => Ok (Mesh_get m)
      | Some t =>
          let* tm := of_option BadRef (h !! t) in
          let* G := get_rec fuel' h t in
          Ok (scale (Gscale tm) (transpose G))
      end
  end.

Definition get (i : nat) (st : State) : outcome mat :=
  get_rec (S i) (heap st) i.

(** [self.set] with its positional arguments: [TransposeMesh.set] takes
    no matrix and raises. *)
Definition set (i : nat) (args : list mat) (st : State) : outcome State :=
  let* m := lookup_mesh i st in
  match mesh m with
  | None =>
      let* m' := Mesh_set m args in
      Ok (with_heap (<[i := m']> (heap st)) st)
  | Some _ =>
      match args with
      | [] => Raise (PyException "Feedback mesh has no 'set' method."%string)
      | _ => Raise TypeError
      end
  end.

(** [self.Update()]: [TransposeMesh.Update] returns [None] at once. *)
Definition Update_at (i : nat) (delta : mat) (st : State) : outcome State :=
  let* m := lookup_mesh i st in
  match mesh m with
  | None =>
      let* m' := Update m delta in
      Ok (with_heap (<[i := m']> (heap st)) st)
  | Some _ => Ok st
  end.

(** [self.applyTo(data)]: the [ValueError] of [@] is caught, two lines are
    printed and the call returns [None]. *)
Definition applyTo (i : nat) (data : vec) (st : State)
  : outcome (option vec * State) :=
  let* G := get i st in
  if (snd (shape G) =? length data)%nat then Ok (Some (matvec G data), st)
  else
    Ok (None,
        {| heap := heap st;
           stdout := stdout st ++
             [AttemptedToApply data (length data) (shape G);
              PrintedError ValueError] |}).

(** [self.apply()], with [data] the result of [self.getInput()]. *)
Definition apply (i : nat) (data : vec) (st : State)
  : outcome (option vec * State) :=
  let* m := lookup_mesh i st in
  let* m' := apply_encode m data in
  applyTo i (inAct m') (with_heap (<[i := m']> (heap st)) st).

(** ** Facts on the comparisons and on [np_power] *)

Lemma leb_true x y : leb x y = true <-> x <= y.
Proof. unfold leb. destruct (Rle_dec x y); split; intros; try lra; discriminate. Qed.

Lemma leb_false x y : leb x y = false <-> y < x.
Proof. unfold leb. destruct (Rle_dec x y); split; intros; try lra; discriminate. Qed.

Lemma ltb_true x y : ltb x y = true <-> x < y.
Proof. unfold ltb. destruct (Rlt_dec x y); split; intros; try lra; discriminate. Qed.

Lemma ltb_false x y : ltb x y = false <-> y <= x.
Proof. unfold ltb. destruct (Rlt_dec x y); split; intros; try lra; discriminate. Qed.

Lemma fdiv_ok a b : b <> 0 -> fdiv a b = Ok (a / b).
Proof. intros H. unfold fdiv. destruct (Req_dec_T b 0); [contradiction | reflexivity]. Qed.

Lemma pydiv_ok a b : b <> 0 -> pydiv a b = Ok (a / b).
Proof. intros H. unfold pydiv. destruct (Req_dec_T b 0); [contradiction | reflexivity]. Qed.

Lemma np_power_pos x y : 0 < x -> np_power x y = Ok (Rpower x y).
Proof. intros H. unfold np_power. destruct (Rlt_dec 0 x); [reflexivity | contradiction]. Qed.

Lemma Rpower_pos x y : 0 < Rpower x y.
Proof. unfold Rpower. apply exp_pos. Qed.

Lemma Rpower_base_1 y : Rpower 1 y = 1.
Proof. unfold Rpower. rewrite ln_1, Rmult_0_r. apply exp_0. Qed.

Lemma is_int_IZR k : is_int (IZR k) = Some k.
Proof.
  assert (E : Int_part (IZR k) = k).
  { symmetry. apply Int_part_spec. lra. }
  unfold is_int. rewrite E.
  destruct (Req_dec_T (IZR k) (IZR k)); [reflexivity | contradiction].
Qed.

Lemma np_power_neg_int x k : x < 0 -> np_power x (IZR k) = Ok (powerRZ x k).
Proof.
  intros H. unfold np_power.
  destruct (Rlt_dec 0 x); [lra |].
  destruct (Req_dec_T x 0); [lra |].
  now rewrite is_int_IZR.
Qed.

(** ** The transform on the open interval *)

(** With a positive [Off], the transform of an interior value is defined
    and lies strictly between 0 and 1. *)
Lemma sigmoid1_interior off gain x :
  0 < off -> 0 < x < 1 ->
  sigmoid1 off gain x = Ok (1 / (1 + Rpower (off * (1 - x) / x) gain)) /\
  0 < 1 / (1 + Rpower (off * (1 - x) / x) gain) < 1.
Proof.
  intros Hoff [Hx0 Hx1].
  assert (Hq : 0 < off * (1 - x) / x).
  { apply Rdiv_lt_0_compat; [nra | lra]. }
  pose proof (Rpower_pos (off * (1 - x) / x) gain) as Hp.
  split.
  - unfold sigmoid1. rewrite fdiv_ok by lra. cbn.
    rewrite np_power_pos by exact Hq. cbn.
    apply fdiv_ok. lra.
  - split.
    + apply Rdiv_lt_0_compat; lra.
    + apply (Rmult_lt_reg_r (1 + Rpower (off * (1 - x) / x) gain)); [lra |].
      unfold Rdiv. rewrite Rmult_assoc, Rinv_l by lra. lra.
Qed.

(** The inverse transform of an interior value, for a positive [Off] and a
    nonzero [Gain]. *)
Lemma invSigmoid1_interior off gain x :
  0 < off -> 0 < x < 1 ->
  invSigmoid1 (1 / off) (1 / gain) x =
    Ok (1 / (1 + Rpower (1 / off * (1 - x) / x) (1 / gain))) /\
  0 < 1 / (1 + Rpower (1 / off * (1 - x) / x) (1 / gain)) < 1.
Proof.
  intros Hoff Hx.
  assert (Hio : 0 < 1 / off) by (apply Rdiv_lt_0_compat; lra).
  exact (sigmoid1_interior (1 / off) (1 / gain) x Hio Hx).
Qed.

(** What the transform makes of the inverse transform: the factor
    [Off ^ (Gain - 1)] stays, because [invSigmoid] takes the root of
    [1 / Off] together with the odds. *)
Lemma sigmoid1_invSigmoid1 off gain x :
  0 < off -> gain <> 0 -> 0 < x < 1 ->
  (let* y := invSigmoid1 (1 / off) (1 / gain) x in sigmoid1 off gain y) =
    Ok (x / (x + Rpower off (gain - 1) * (1 - x))).
Proof.
  intros Hoff Hgain Hx.
  destruct (invSigmoid1_interior off gain x Hoff Hx) as [E1 Hy].
  rewrite E1. cbn.
  set (q := 1 / off * (1 - x) / x) in *.
  set (p := Rpower q (1 / gain)) in *.
  assert (Hq : 0 < q).
  { unfold q. apply Rdiv_lt_0_compat; [| lra].
    apply Rmult_lt_0_compat; [apply Rdiv_lt_0_compat; lra | lra]. }
  assert (Hp : 0 < p) by apply Rpower_pos.
  destruct (sigmoid1_interior off gain (1 / (1 + p)) Hoff Hy) as [E2 _].
  rewrite E2. f_equal.
  assert (Eb : off * (1 - 1 / (1 + p)) / (1 / (1 + p)) = off * p).
  { field. lra. }
  rewrite Eb.
  assert (Epw : Rpower (off * p) gain = Rpower off (gain - 1) * ((1 - x) / x)).
  { rewrite <- Rpower_mult_distr by assumption.
    unfold p. rewrite Rpower_mult.
    replace (1 / gain * gain) with 1 by (field; exact Hgain).
    rewrite Rpower_1 by exact Hq.
    replace (Rpower off gain) with (Rpower off (gain - 1) * off).
    - unfold q. field. lra.
    - rewrite <- (Rpower_1 off) at 2 by exact Hoff.
      rewrite <- Rpower_plus. f_equal. lra. }
  rewrite Epw.
  pose proof (Rpower_pos off (gain - 1)) as HA.
  field. split; [| lra].
  assert (0 < Rpower off (gain - 1) * (1 - x)) by (apply Rmult_lt_0_compat; lra).
  lra.
Qed.

(** With [Off = 1] (the default) the two are inverse to each other. *)
Lemma sigmoid1_invSigmoid1_Off_1 gain x :
  gain <> 0 -> 0 < x < 1 ->
  (let* y := invSigmoid1 (1 / 1) (1 / gain) x in sigmoid1 1 gain y) = Ok x.
Proof.
  intros Hgain Hx.
  rewrite (sigmoid1_invSigmoid1 1 gain x) by (assumption || lra).
  rewrite Rpower_base_1. f_equal. field. lra.
Qed.

(** ** The weights after [SigMatrix] *)

Definition unit_interval (w : R) : Prop := 0 <= w <= 1.
Definition interior (x : R) : Prop := 0 < x < 1.

Lemma mapO_Forall2 {A B} (f : A -> outcome B) l vs :
  mapO f l = Ok vs -> Forall2 (fun x v => f x = Ok v) l vs.
Proof.
  revert vs. induction l as [| x l IH]; intros vs H; cbn in H.
  - injection H as <-. constructor.
  - destruct (f x) as [y |] eqn:Ey; cbn in H; [| discriminate].
    destruct (mapO f l) as [ys |] eqn:Eys; cbn in H; [| discriminate].
    injection H as <-. constructor; auto.
Qed.

Lemma mapO_app {A B} (f : A -> outcome B) l1 l2 vs :
  mapO f (l1 ++ l2) = Ok vs ->
  exists v1 v2, vs = v1 ++ v2 /\ mapO f l1 = Ok v1 /\ mapO f l2 = Ok v2.
Proof.
  revert vs. induction l1 as [| x l1 IH]; intros vs H; cbn in H.
  - exists [], vs. auto.
  - destruct (f x) as [y |] eqn:Ey; cbn in H; [| discriminate].
    destruct (mapO f (l1 ++ l2)) as [ys |] eqn:Eys; cbn in H; [| discriminate].
    injection H as <-.
    destruct (IH ys eq_refl) as (v1 & v2 & -> & E1 & E2).
    exists (y :: v1), v2. cbn. rewrite Ey, E1. cbn. auto.
Qed.

Lemma sigmoid_interior_bounded off gain xs vs :
  0 < off -> Forall interior xs ->
  mapO (sigmoid1 off gain) xs = Ok vs ->
  Forall unit_interval vs /\ length vs = length xs.
Proof.
  intros Hoff Hxs H. apply mapO_Forall2 in H.
  induction H as [| x v xs vs Hxv _ IH]; [split; [constructor | reflexivity] |].
  apply Forall_cons in Hxs as [Hx Hxs].
  destruct (IH Hxs) as [IH1 IH2]. split; [| cbn; lia].
  constructor; [| exact IH1].
  destruct (sigmoid1_interior off gain x Hoff Hx) as [E Hb].
  rewrite E in Hxv. injection Hxv as <-. unfold unit_interval. lra.
Qed.

(** One row of [SigMatrix]: the three masks of a row of [linMatrix]. *)
Definition row_mask1 (ls : vec) : list bool := map (fun x => leb x 0) ls.
Definition row_mask2 (ls : vec) : list bool := map (fun x => leb 1 x) ls.
Definition row_mask3 (ls : vec) : list bool :=
  map negb (zip_with orb (row_mask1 ls) (row_mask2 ls)).
Definition row_fill (bs : list bool) (v : R) (xs : vec) : vec :=
  zip_with (fun (b : bool) x => if b then v else x) bs xs.

Lemma sel_row_mask3_interior ls : Forall interior (sel (row_mask3 ls) ls).
Proof.
  induction ls as [| l ls IH]; [constructor |].
  unfold row_mask3, row_mask1, row_mask2 in *. cbn.
  destruct (leb l 0) eqn:E0; cbn; [exact IH |].
  destruct (leb 1 l) eqn:E1; cbn; [exact IH |].
  constructor; [| exact IH].
  apply leb_false in E0, E1. split; assumption.
Qed.

Lemma put_row_bounded ls xs vs :
  length ls = length xs ->
  Forall unit_interval vs ->
  (length (sel (row_mask3 ls) ls) <= length vs)%nat ->
  let r := put (row_mask3 ls) vs
             (row_fill (row_mask2 ls) 1 (row_fill (row_mask1 ls) 0 xs)) in
  Forall unit_interval (fst r) /\
  snd r = drop (length (sel (row_mask3 ls) ls)) vs.
Proof.
  revert xs vs. induction ls as [| l ls IH]; intros xs vs Hlen Hvs Hn.
  - destruct xs; [| discriminate]. cbn. split; [constructor | reflexivity].
  - destruct xs as [| x xs]; [discriminate |]. injection Hlen as Hlen.
    unfold row_mask3, row_mask2, row_mask1, row_fill in *. cbn in *.
    destruct (leb l 0) eqn:E0; cbn in *.
    + destruct (leb 1 l) eqn:E1; cbn.
      all: specialize (IH xs vs Hlen Hvs Hn).
      all: destruct (put _ vs _) as [r rest]; cbn in *.
      all: destruct IH as [IH1 IH2]; split; [constructor |]; auto.
      all: unfold unit_interval; lra.
    + destruct (leb 1 l) eqn:E1; cbn in *.
      * specialize (IH xs vs Hlen Hvs Hn).
        destruct (put _ vs _) as [r rest]; cbn in *.
        destruct IH as [IH1 IH2]; split; [constructor |]; auto.
        unfold unit_interval; lra.
      * destruct vs as [| v vs]; [cbn in Hn; lia |].
        apply Forall_cons in Hvs as [Hv Hvs].
        cbn in Hn. assert (Hn' : (length (sel (map negb (zip_with orb
                      (map (fun x => leb x 0) ls) (map (fun x => leb 1 x) ls))) ls)
                      <= length vs)%nat) by lia.
        specialize (IH xs vs Hlen Hvs Hn').
        destruct (put _ vs _) as [r rest]; cbn in *.
        destruct IH as [IH1 IH2]; split; [constructor |]; auto.
Qed.

Lemma mask_rows p (L : mat) : mask p L = map (map p) L.
Proof. reflexivity. Qed.

(** All the rows: whatever the old weights, every entry is written. *)
Lemma put2_bounded (L M : mat) vs :
  map length L = map length M ->
  Forall unit_interval vs ->
  (length (concat (zip_with sel (map row_mask3 L) L)) <= length vs)%nat ->
  Forall (Forall unit_interval)
    (put2 (map row_mask3 L) vs
       (zip_with (fun ls xs => row_fill (row_mask2 ls) 1 (row_fill (row_mask1 ls) 0 xs))
          L M)).
Proof.
  revert M vs. induction L as [| ls L IH]; intros M vs Hshape Hvs Hn.
  - destruct M; [| discriminate]. constructor.
  - destruct M as [| xs M]; [discriminate |].
    cbn in Hshape. injection Hshape as Hlen Hshape.
    cbn [map zip_with concat put2] in *.
    rewrite length_app in Hn.
    pose proof (put_row_bounded ls xs vs Hlen Hvs ltac:(lia)) as Hrow.
    cbn zeta in Hrow.
    destruct (put (row_mask3 ls) vs _) as [r rest]. cbn in Hrow.
    destruct Hrow as [Hr ->].
    constructor; [exact Hr |].
    apply IH; [exact Hshape | |].
    + apply Forall_drop. exact Hvs.
    + rewrite length_drop. lia.
Qed.

Lemma masks_as_rows (L M : mat) :
  mnot (mor (mask (fun x => leb x 0) L) (mask (fun x => leb 1 x) L))
    = map row_mask3 L /\
  fill2 (mask (fun x => leb 1 x) L) 1 (fill2 (mask (fun x => leb x 0) L) 0 M)
    = zip_with (fun ls xs => row_fill (row_mask2 ls) 1 (row_fill (row_mask1 ls) 0 xs))
        L M.
Proof.
  split.
  - unfold mnot, mor, mask. induction L as [| ls L IH]; [reflexivity |].
    cbn. f_equal. exact IH.
  - unfold fill2, mask. revert M. induction L as [| ls L IH]; intros M; [reflexivity |].
    destruct M as [| xs M]; [reflexivity |]. cbn. f_equal. apply IH.
Qed.

Lemma sel2_mask3_interior (L : mat) :
  Forall interior (concat (zip_with sel (map row_mask3 L) L)).
Proof.
  induction L as [| ls L IH]; [constructor |].
  cbn. apply Forall_app. split; [apply sel_row_mask3_interior | exact IH].
Qed.

Lemma SigMatrix_bounded m m' :
  0 < Off m -> SigMatrix m = Ok m' ->
  Forall (Forall unit_interval) (matrix m').
Proof.
  intros Hoff H. unfold SigMatrix in H.
  destruct (same_shape _ (matrix m)) eqn:Hs; cbn in H; [| discriminate].
  destruct (masks_as_rows (linMatrix m) (matrix m)) as [E3 E2].
  rewrite E3, E2 in H. unfold sigmoid, sel2 in H.
  destruct (mapO _ _) as [vs |] eqn:Evs; cbn in H; [| discriminate].
  injection H as <-. cbn.
  destruct (sigmoid_interior_bounded _ _ _ _ Hoff (sel2_mask3_interior _) Evs)
    as [Hvs Hlen].
  apply put2_bounded; [| exact Hvs | lia].
  unfold same_shape, mask in Hs. apply bool_decide_eq_true in Hs.
  rewrite <- Hs. rewrite map_map. apply map_ext. intros. now rewrite length_map.
Qed.

(** The weights are not touched by the weight balance. *)
Lemma WtBalance_matrix m m' :
  WtBalance m = Ok m' ->
  matrix m' = matrix m /\ linMatrix m' = linMatrix m /\ Off m' = Off m.
Proof.
  unfold WtBalance, pydiv, fdiv. intros H.
  destruct (WtBalInterval m <=? WtBalCtr m + 1)%Z; [| injection H as <-; auto].
  cbn in H. destruct (mean (matrix m)) as [wbAvg |]; [| injection H as <-; auto].
  destruct (ltb wbAvg (wbLoThr m)).
  - destruct (ltb wbAvg (wbAvgThr m));
      destruct (Req_dec_T _ 0); cbn in H; try discriminate;
      injection H as <-; auto.
  - destruct (ltb (wbHiThr m) wbAvg); [| injection H as <-; auto].
    destruct (Req_dec_T _ 0); cbn in H; try discriminate.
    injection H as <-; auto.
Qed.

Lemma Update_bounded m delta m' :
  0 < Off m -> Update m delta = Ok m' ->
  Forall (Forall unit_interval) (matrix m').
Proof.
  intros Hoff H. unfold Update in H.
  destruct (SoftBound m delta) as [d |]; [| discriminate].
  cbv beta iota delta [obind] in H.
  destruct (shape d) as [mm n].
  destruct (iadd_block mm n (linMatrix m) d) as [L |]; [| discriminate].
  cbv beta iota delta [obind] in H.
  destruct (SigMatrix _) as [m2 |] eqn:E2; [| discriminate].
  apply WtBalance_matrix in H as (-> & _ & _).
  apply SigMatrix_bounded in E2; [exact E2 | exact Hoff].
Qed.

(** ** Evaluation on concrete meshes *)

Lemma same_shape_intro {A B} (X : list (list A)) (Y : list (list B)) :
  map length X = map length Y -> same_shape X Y = true.
Proof. intros H. unfold same_shape. now apply bool_decide_eq_true. Qed.

Lemma Int_part_small x : 0 <= x < 1 -> Int_part x = 0%Z.
Proof. intros H. symmetry. apply Int_part_spec. lra. Qed.

(** Decides the comparisons and divisions of a closed goal by linear
    arithmetic, between two rounds of reduction. *)
Ltac eval_cmp :=
  repeat match goal with
  | |- context [leb ?a ?b] =>
      first [ rewrite (proj2 (leb_true a b)) by lra
            | rewrite (proj2 (leb_false a b)) by lra ]
  | |- context [ltb ?a ?b] =>
      first [ rewrite (proj2 (ltb_true a b)) by lra
            | rewrite (proj2 (ltb_false a b)) by lra ]
  | |- context [fdiv ?a ?b] => rewrite (fdiv_ok a b) by lra
  | |- context [pydiv ?a ?b] => rewrite (pydiv_ok a b) by lra
  | |- context [np_power ?a (IZR ?k)] => rewrite (np_power_neg_int a k) by lra
  | |- context [same_shape ?X ?Y] => rewrite (same_shape_intro X Y) by reflexivity
  | |- context [?x ^ Pos.to_nat 1] => change (x ^ Pos.to_nat 1) with (x * 1)
  | |- context [Int_part ?x] => rewrite (Int_part_small x) by lra
  | |- context [Rmax ?x ?y] =>
      first [ rewrite (Rmax_right x y) by lra | rewrite (Rmax_left x y) by lra ]
  end.
Ltac eval_py := repeat (progress (cbn; eval_cmp)).

(** A sending layer of one unit. *)
Definition inl1 : InLayer :=
  {| in_len := 1; in_Send := 1 / 10; in_Delta := 5 / 1000 |}.

(** [Mesh(1, inLayer, **a)] when [np.random.rand(1, 1)] draws [0.5]: the
    Glorot weight is 0, which [InvSigMatrix] leaves at 0. *)
Definition example_mesh (a : MeshArgs) : Mesh :=
  {| size := 1; Off := a_Off a; Gain := a_Gain a; wbOn := a_wbOn a;
     wbAvgThr := a_wbAvgThr a; wbHiThr := a_wbHiThr a;
     wbHiGain := a_wbHiGain a; wbLoThr := a_wbLoThr a;
     wbLoGain := a_wbLoGain a; wbInc := a_wbInc a; wbDec := a_wbDec a;
     WtBalInterval := 0; softBound := a_softBound a;
     WtBalCtr := 0; wbFact := 0;
     matrix := [[0]]; linMatrix := [[0]]; Gscale := 1;
     inLayer := inl1; lastAct := [0]; inAct := [0];
     modified := false; trainable := true;
     AbsScale := a_AbsScale a; RelScale := a_RelScale a; mesh := None |}.

Lemma Mesh_init_example a :
  a_Off a <> 0 -> a_Gain a <> 0 ->
  Mesh_init 1 inl1 a [[1 / 2]] = Ok (example_mesh a).
Proof.
  intros Ho Hg. unfold Mesh_init. cbn.
  assert (Hs : sqrt (2 * 1) <> 0).
  { intros E. apply sqrt_eq_0 in E; lra. }
  rewrite fdiv_ok by exact Hs. cbn.
  set (g := sqrt 6 / sqrt (2 * 1)). clearbody g.
  replace (2 * g * (1 / 2) - g) with 0 by lra.
  unfold InvSigMatrix. eval_py.
  unfold invSigmoid. cbn. rewrite !pydiv_ok by assumption. cbn.
  reflexivity.
Qed.

(** The keyword arguments [Off] and [Gain] of a call. *)
Definition with_Off_Gain (off gain : R) (a : MeshArgs) : MeshArgs :=
  {| a_AbsScale := a_AbsScale a; a_RelScale := a_RelScale a; a_Off := off;
     a_Gain := gain; a_wbOn := a_wbOn a; a_wbAvgThr := a_wbAvgThr a;
     a_wbHiThr := a_wbHiThr a; a_wbHiGain := a_wbHiGain a;
     a_wbLoThr := a_wbLoThr a; a_wbLoGain := a_wbLoGain a;
     a_wbInc := a_wbInc a; a_wbDec := a_wbDec a;
     a_WtBalInterval := a_WtBalInterval a; a_softBound := a_softBound a |}.

Lemma Update_example_default :
  exists m',
    Update (example_mesh default_args) [[0]] = Ok m' /\
    matrix m' = [[0]] /\ WtBalCtr m' = 0%Z /\
    wbInc m' = 28 / 19 /\ wbDec m' = 10 / 19.
Proof.
  eexists. split.
  - unfold Update, SoftBound. eval_py.
    unfold iadd_block. eval_py.
    unfold ClipLinMatrix. eval_py.
    unfold SigMatrix. eval_py.
    unfold WtBalance. cbn. unfold mean. eval_py. reflexivity.
  - cbn. repeat split; try reflexivity; field.
Qed.

(** ** The transform and its inverse on vectors *)

Lemma sigmoid_invSigmoid m data :
  0 < Off m -> Gain m <> 0 -> Forall interior data ->
  (let* v := invSigmoid m data in sigmoid m v) =
    Ok (map (fun x => x / (x + Rpower (Off m) (Gain m - 1) * (1 - x))) data).
Proof.
  intros Hoff Hgain Hdata. unfold invSigmoid, sigmoid.
  rewrite !pydiv_ok by lra. cbn.
  induction Hdata as [| x data Hx _ IH]; [reflexivity |].
  cbn.
  pose proof (sigmoid1_invSigmoid1 (Off m) (Gain m) x Hoff Hgain Hx) as E.
  destruct (invSigmoid1 (1 / Off m) (1 / Gain m) x) as [y |]; [| discriminate].
  cbn in E |- *.
  destruct (mapO (invSigmoid1 (1 / Off m) (1 / Gain m)) data) as [ys |];
    [| discriminate].
  cbn in IH |- *. rewrite E. cbn. rewrite IH. reflexivity.
Qed.

(** With the default [Off = 1] the transform undoes the inverse transform
    on every vector of interior values. *)
Lemma sigmoid_invSigmoid_Off_1 m data :
  Off m = 1 -> Gain m <> 0 -> Forall interior data ->
  (let* v := invSigmoid m data in sigmoid m v) = Ok data.
Proof.
  intros Hoff Hgain Hdata.
  rewrite sigmoid_invSigmoid by (assumption || lra).
  f_equal. rewrite Hoff.
  induction Hdata as [| x data Hx _ IH]; [reflexivity |].
  cbn. rewrite IH. f_equal.
  rewrite Rpower_base_1. unfold interior in Hx. field. lra.
Qed.

(** ** The linear weights after [ClipLinMatrix] *)

Lemma ClipLinMatrix_bounded m :
  Forall (Forall unit_interval) (linMatrix (ClipLinMatrix m)).
Proof.
  unfold ClipLinMatrix. cbn. generalize (linMatrix m) as L.
  unfold fill2, mask. induction L as [| ls L IH]; [constructor |].
  cbn. constructor; [| exact IH]. clear IH.
  induction ls as [| l ls IH]; [constructor |].
  cbn. constructor; [| exact IH].
  unfold unit_interval.
  destruct (ltb l 0) eqn:E0.
  - rewrite (proj2 (ltb_false 1 0)) by lra. lra.
  - apply ltb_false in E0. destruct (ltb 1 l) eqn:E1; [lra |].
    apply ltb_false in E1. lra.
Qed.

Lemma SigMatrix_linMatrix m m' :
  SigMatrix m = Ok m' -> linMatrix m' = linMatrix m.
Proof.
  unfold SigMatrix. intros H.
  destruct (negb _); [discriminate |].
  destruct (sigmoid m _) as [vs |]; cbn in H; [| discriminate].
  injection H as <-. reflexivity.
Qed.

Lemma Update_linMatrix_bounded m delta m' :
  Update m delta = Ok m' -> Forall (Forall unit_interval) (linMatrix m').
Proof.
  intros H. unfold Update in H.
  destruct (SoftBound m delta) as [d |]; [| discriminate].
  cbv beta iota delta [obind] in H.
  destruct (shape d) as [mm n].
  destruct (iadd_block mm n (linMatrix m) d) as [L |]; [| discriminate].
  cbv beta iota delta [obind] in H.
  destruct (SigMatrix _) as [m2 |] eqn:E2; [| discriminate].
  apply WtBalance_matrix in H as (_ & -> & _).
  apply SigMatrix_linMatrix in E2 as ->.
  apply ClipLinMatrix_bounded.
Qed.

(** C1, as amended: for every Mesh whose [Off] is positive, when a call to
    [Update] returns, every entry of [linMatrix] lies in [0,1] (the clip)
    and every entry of [matrix] lies in [0,1] (the bounded transform of
    the clipped [linMatrix]). *)
Theorem C1_Update_matrix_in_unit_interval (m : Mesh) (delta : mat) (m' : Mesh) :
  0 < Off m ->
  Update m delta = Ok m' ->
  Forall (Forall unit_interval) (linMatrix m') /\
  Forall (Forall unit_interval) (matrix m').
Proof.
  intros Hoff H. split.
  - exact (Update_linMatrix_bounded m delta m' H).
  - exact (Update_bounded m delta m' Hoff H).
Qed.

Lemma C1_Update_matrix_in_unit_interval_witness :
  exists m',
    0 < Off (example_mesh default_args) /\
    Update (example_mesh default_args) [[0]] = Ok m' /\
    Forall (Forall unit_interval) (linMatrix m') /\
    Forall (Forall unit_interval) (matrix m').
Proof.
  destruct Update_example_default as (m' & E & _).
  exists m'.
  assert (Hoff : 0 < Off (example_mesh default_args)) by (cbn; lra).
  split; [exact Hoff |]. split; [exact E |].
  exact (C1_Update_matrix_in_unit_interval
           (example_mesh default_args) [[0]] m' Hoff E).
Defined.

(** C1 as stated fails for a Mesh with a negative [Off] and an odd [Gain]:
    [Mesh(1, inLayer, Off=-1, Gain=1)], whose linear weight an update
    brings to 0.75, gets the weight 1 / (1 + (-1 * 0.25 / 0.75)) = 1.5. *)
Lemma C1_counterexample_negative_Off :
  Mesh_init 1 inl1 (with_Off_Gain (-1) 1 default_args) [[1 / 2]]
    = Ok (example_mesh (with_Off_Gain (-1) 1 default_args)) /\
  exists m',
    Update (example_mesh (with_Off_Gain (-1) 1 default_args)) [[3 / 4]] = Ok m' /\
    matrix m' = [[3 / 2]] /\
    ~ Forall (Forall unit_interval) (matrix m').
Proof.
  split; [apply Mesh_init_example; cbn; lra |].
  eexists. split; [| split].
  - unfold Update, SoftBound. eval_py.
    unfold iadd_block. eval_py.
    unfold ClipLinMatrix. eval_py.
    unfold SigMatrix. eval_py. unfold sigmoid, sigmoid1. eval_py.
    unfold WtBalance. cbn. unfold mean. eval_py. reflexivity.
  - cbn. do 2 f_equal. field.
  - cbn. intros H. apply Forall_cons in H as [H _].
    apply Forall_cons in H as [H _]. unfold unit_interval in H. lra.
Qed.

(** C2: at [Mesh(1, inLayer, Off=4, Gain=2)] the transform of the inverse
    transform of 0.5 is 0.2: [invSigmoid] gives 1 / (1 + 0.25 ** 0.5) = 2/3
    and [sigmoid] gives 1 / (1 + (4 * (1/3) / (2/3)) ** 2) = 1/5. *)
Theorem C2_sigmoid_invSigmoid_Off_4_Gain_2 :
  Mesh_init 1 inl1 (with_Off_Gain 4 2 default_args) [[1 / 2]]
    = Ok (example_mesh (with_Off_Gain 4 2 default_args)) /\
  (let* v := invSigmoid (example_mesh (with_Off_Gain 4 2 default_args)) [1 / 2] in
   sigmoid (example_mesh (with_Off_Gain 4 2 default_args)) v) = Ok [1 / 5] /\
  1 / 5 <> 1 / 2.
Proof.
  split; [apply Mesh_init_example; cbn; lra |].
  split; [| lra].
  rewrite sigmoid_invSigmoid.
  - cbn. do 2 f_equal. replace (2 - 1) with 1 by lra.
    rewrite Rpower_1 by lra. field.
  - cbn. lra.
  - cbn. lra.
  - repeat constructor; lra.
Qed.

(** ** Weight balance *)

Lemma InvSigMatrix_fields m m' :
  InvSigMatrix m = Ok m' ->
  WtBalInterval m' = WtBalInterval m /\ WtBalCtr m' = WtBalCtr m /\
  wbInc m' = wbInc m /\ wbDec m' = wbDec m /\ Off m' = Off m /\
  Gain m' = Gain m /\ Gscale m' = Gscale m /\ mesh m' = mesh m.
Proof.
  unfold InvSigMatrix. intros H.
  destruct (invSigmoid m _) as [vs |]; cbn in H; [| discriminate].
  destruct (negb _); [discriminate |].
  injection H as <-. cbn. repeat split; reflexivity.
Qed.

(** Whatever [WtBalInterval] the constructor is given, the Mesh it builds
    has the interval 0. *)
Lemma Mesh_init_WtBalInterval sz inl a rand m :
  Mesh_init sz inl a rand = Ok m ->
  WtBalInterval m = 0%Z /\ WtBalCtr m = 0%Z.
Proof.
  unfold Mesh_init. intros H.
  destruct (fdiv _ _) as [g |]; cbn in H; [| discriminate].
  apply InvSigMatrix_fields in H as (-> & -> & _). cbn. auto.
Qed.

(** With the interval 0 every call resets the counter, so every call is a
    balancing call. *)
Lemma WtBalance_interval_0 m m' :
  WtBalInterval m = 0%Z -> (0 <= WtBalCtr m)%Z ->
  WtBalance m = Ok m' ->
  WtBalInterval m' = 0%Z /\ WtBalCtr m' = 0%Z.
Proof.
  unfold WtBalance, pydiv, fdiv. intros Hi Hc H. rewrite Hi in H.
  destruct (0 <=? WtBalCtr m + 1)%Z eqn:E; [| apply Z.leb_gt in E; lia].
  cbn in H. destruct (mean (matrix m)) as [wbAvg |];
    [| injection H as <-; cbn; auto].
  destruct (ltb wbAvg (wbLoThr m)).
  - destruct (ltb wbAvg (wbAvgThr m));
      destruct (Req_dec_T _ 0); cbn in H; try discriminate;
      injection H as <-; cbn; auto.
  - destruct (ltb (wbHiThr m) wbAvg); [| injection H as <-; cbn; auto].
    destruct (Req_dec_T _ 0); cbn in H; try discriminate.
    injection H as <-; cbn; auto.
Qed.

(** C4: [Mesh(1, inLayer)] with the defaults, [WtBalInterval = 10] among
    them, has the interval 0, and its first [Update] already moves the
    factors: the mean weight 0 is below [wbLoThr], so [wbFact] becomes
    6 * (0.4 - 0.25), [wbDec] 1 / 1.9 and [wbInc] 2 - 1 / 1.9. *)
Theorem C4_WtBalance_on_first_Update :
  a_WtBalInterval default_args = 10%Z /\
  Mesh_init 1 inl1 default_args [[1 / 2]] = Ok (example_mesh default_args) /\
  WtBalInterval (example_mesh default_args) = 0%Z /\
  wbInc (example_mesh default_args) = 1 /\
  wbDec (example_mesh default_args) = 1 /\
  exists m',
    Update (example_mesh default_args) [[0]] = Ok m' /\
    wbInc m' = 28 / 19 /\ wbDec m' = 10 / 19.
Proof.
  split; [reflexivity |].
  split; [apply Mesh_init_example; cbn; lra |].
  do 3 (split; [reflexivity |]).
  destruct Update_example_default as (m' & E & _ & _ & Hi & Hd).
  exists m'. auto.
Qed.

(** ** TransposeMesh *)

(** What [TransposeMesh.get] returns when the target is a Mesh of the base
    class: the scale of the target is applied by the target's [get], and
    once more to the transpose. *)
Lemma TransposeMesh_get st j m t tm :
  heap st !! j = Some m -> mesh m = Some t ->
  heap st !! t = Some tm -> mesh tm = None -> (t < j)%nat ->
  get j st = Ok (scale (Gscale tm) (transpose (scale (Gscale tm) (matrix tm)))).
Proof.
  intros Hj Hm Ht Htm Hlt. unfold get.
  destruct j as [| j']; [lia |].
  cbn. rewrite Hj. cbn. rewrite Hm, Ht. cbn. rewrite Htm.
  reflexivity.
Qed.

(** A Mesh whose weight is set to 1 and whose scale [setGscale] brings to
    1/2 (two excitatory meshes of [RelScale] 1 on the receiving layer),
    wrapped by a TransposeMesh: what the wrapper's [get] returns, and the
    target as it is then. *)
Definition transpose_scenario : outcome (mat * Mesh) :=
  let* (i, st1) := new_Mesh 1 inl1 default_args [[1 / 2]] init_state in
  let* st2 := set i [[[1]]] st1 in
  let* st3 := setGscale_at i 2 (1 / 4) st2 in
  let* (j, st4) := new_TransposeMesh i inl1 transpose_args [[1 / 2]] st3 in
  let* G := get j st4 in
  let* tm := lookup_mesh i st4 in
  Ok (G, tm).

(** The Mesh of the scenario after [set]: the weight 1, the linear weight
    as it was. *)
Definition unit_weight_mesh : Mesh :=
  set_linMatrix [[0]]
    (set_matrix [[1]]
       (set_matrix [[1]] (set_modified true (example_mesh default_args)))).

Lemma Mesh_set_example :
  Mesh_set (example_mesh default_args) [[[1]]] = Ok unit_weight_mesh.
Proof.
  unfold Mesh_set, InvSigMatrix. eval_py.
  unfold invSigmoid. eval_py. reflexivity.
Qed.

Lemma setGscale_example :
  setGscale unit_weight_mesh 2 (1 / 4) = set_Gscale (1 / 2) unit_weight_mesh.
Proof.
  unfold setGscale, np_round.
  replace (INR (in_len (inLayer unit_weight_mesh))) with 1 by reflexivity.
  eval_cmp. cbn [Z.even]. eval_cmp.
  f_equal.
  cbn [AbsScale RelScale unit_weight_mesh set_linMatrix set_matrix
       set_modified example_mesh default_args a_AbsScale a_RelScale].
  lra.
Qed.

(** C3: in the scenario the target has the weight matrix [[1]] and the
    scale 1/2, so its transpose scaled once is [[1/2]], and the
    TransposeMesh returns [[1/4]]. *)
Theorem C3_TransposeMesh_get_scales_twice :
  transpose_scenario
    = Ok ([[1 / 2 * (1 / 2 * 1)]], set_Gscale (1 / 2) unit_weight_mesh) /\
  matrix (set_Gscale (1 / 2) unit_weight_mesh) = [[1]] /\
  Gscale (set_Gscale (1 / 2) unit_weight_mesh) = 1 / 2 /\
  scale (1 / 2) (transpose [[1]]) = [[1 / 2 * 1]] /\
  [[1 / 2 * (1 / 2 * 1)]] <> [[1 / 2 * 1]].
Proof.
  split; [| split; [reflexivity | split; [reflexivity | split; [reflexivity |]]]].
  - unfold transpose_scenario, new_Mesh.
    rewrite Mesh_init_example by (cbn; lra).
    cbn -[Mesh_set setGscale Mesh_init example_mesh].
    unfold set, lookup_mesh.
    cbn -[Mesh_set setGscale Mesh_init example_mesh].
    change (mesh (example_mesh default_args)) with (@None nat).
    cbn -[Mesh_set setGscale Mesh_init example_mesh].
    rewrite Mesh_set_example.
    cbn -[Mesh_set setGscale Mesh_init example_mesh unit_weight_mesh].
    unfold setGscale_at, lookup_mesh.
    cbn -[Mesh_set setGscale Mesh_init example_mesh unit_weight_mesh].
    rewrite setGscale_example.
    unfold new_TransposeMesh, lookup_mesh.
    cbn -[Mesh_set setGscale Mesh_init example_mesh unit_weight_mesh set_Gscale].
    change (size (set_Gscale (1 / 2) unit_weight_mesh)) with 1%nat.
    rewrite Mesh_init_example by (cbn; lra).
    cbn -[Mesh_set setGscale Mesh_init example_mesh unit_weight_mesh set_Gscale
          as_transpose].
    unfold get, lookup_mesh.
    cbn -[Mesh_set setGscale Mesh_init example_mesh unit_weight_mesh set_Gscale
          as_transpose].
    change (mesh (as_transpose 0 (example_mesh transpose_args))) with (Some 0%nat).
    cbn -[Mesh_set setGscale Mesh_init example_mesh unit_weight_mesh set_Gscale
          as_transpose].
    change (mesh (set_Gscale (1 / 2) unit_weight_mesh)) with (@None nat).
    cbn -[Mesh_set setGscale Mesh_init example_mesh unit_weight_mesh set_Gscale
          as_transpose].
    reflexivity.
  - intros H. injection H as H. lra.
Qed.

(** ** What a TransposeMesh refuses, and the failed application *)

Lemma TransposeMesh_set_raises st i m t args :
  heap st !! i = Some m -> mesh m = Some t ->
  exists e, set i args st = Raise e.
Proof.
  intros Hi Hm. unfold set, lookup_mesh. rewrite Hi. cbn. rewrite Hm.
  destruct args; eauto.
Qed.

Lemma TransposeMesh_set_no_argument st i m t :
  heap st !! i = Some m -> mesh m = Some t ->
  set i [] st = Raise (PyException "Feedback mesh has no 'set' method."%string).
Proof.
  intros Hi Hm. unfold set, lookup_mesh. rewrite Hi. cbn. now rewrite Hm.
Qed.

Lemma TransposeMesh_Update_noop st i m t delta :
  heap st !! i = Some m -> mesh m = Some t ->
  Update_at i delta st = Ok st.
Proof.
  intros Hi Hm. unfold Update_at, lookup_mesh. rewrite Hi. cbn. now rewrite Hm.
Qed.

Lemma applyTo_mismatch st i data G :
  get i st = Ok G -> snd (shape G) <> length data ->
  exists st',
    applyTo i data st = Ok (None, st') /\
    heap st' = heap st /\
    stdout st' = stdout st ++
      [AttemptedToApply data (length data) (shape G); PrintedError ValueError].
Proof.
  intros HG Hne. unfold applyTo. rewrite HG. cbv beta iota delta [obind].
  destruct (Nat.eqb_spec (snd (shape G)) (length data)) as [E | _];
    [contradiction |].
  eexists. split; [reflexivity |]. cbn. auto.
Qed.

Lemma applyTo_match st i data G :
  get i st = Ok G -> snd (shape G) = length data ->
  applyTo i data st = Ok (Some (matvec G data), st).
Proof.
  intros HG He. unfold applyTo. rewrite HG. cbv beta iota delta [obind].
  rewrite He, Nat.eqb_refl. reflexivity.
Qed.

(** [Mesh.apply] pads what it takes from the sending layer to the size of
    the mesh, so that the product is defined. *)
Lemma apply_pads (m : Mesh) (data : vec) :
  (length data <= size m)%nat ->
  length (take (size m) data ++ replicate (size m - length data) 0) = size m.
Proof.
  intros H. rewrite length_app, length_take, length_replicate. lia.
Qed.

(** ** The bounded transform, entry by entry *)

(** The curve of [sigmoid] on an interior value. *)
Definition logistic (off gain x : R) : R :=
  1 / (1 + Rpower (off * (1 - x) / x) gain).

(** What [SigMatrix] makes of a linear weight. *)
Definition transform (off gain x : R) : R :=
  if leb x 0 then 0 else if leb 1 x then 1 else logistic off gain x.

Lemma mapO_sigmoid1_interior off gain xs :
  0 < off -> Forall interior xs ->
  mapO (sigmoid1 off gain) xs = Ok (map (logistic off gain) xs).
Proof.
  intros Hoff Hxs. induction Hxs as [| x xs Hx _ IH]; [reflexivity |].
  cbn. destruct (sigmoid1_interior off gain x Hoff Hx) as [-> _].
  cbn. rewrite IH. reflexivity.
Qed.

Lemma merge_row_transform off gain ls xs :
  length ls = length xs ->
  merge_row (logistic off gain) (row_mask3 ls) ls
    (row_fill (row_mask2 ls) 1 (row_fill (row_mask1 ls) 0 xs))
  = map (transform off gain) ls.
Proof.
  revert xs. induction ls as [| l ls IH]; intros xs Hlen.
  - reflexivity.
  - destruct xs as [| x xs]; [discriminate |]. injection Hlen as Hlen.
    specialize (IH xs Hlen).
    unfold row_mask3, row_mask2, row_mask1, row_fill in *. cbn.
    rewrite IH. f_equal.
    unfold transform. destruct (leb l 0) eqn:E0, (leb 1 l) eqn:E1; try reflexivity.
    apply leb_true in E0, E1. lra.
Qed.

Lemma merge2_transform off gain (L M : mat) :
  map length L = map length M ->
  merge2 (logistic off gain) (map row_mask3 L) L
    (zip_with (fun ls xs => row_fill (row_mask2 ls) 1 (row_fill (row_mask1 ls) 0 xs))
       L M)
  = map (map (transform off gain)) L.
Proof.
  revert M. induction L as [| ls L IH]; intros M Hs.
  - reflexivity.
  - destruct M as [| xs M]; [discriminate |]. injection Hs as Hlen Hs.
    cbn. rewrite (merge_row_transform off gain ls xs Hlen), (IH M Hs).
    reflexivity.
Qed.

Lemma length_row_mask3 ls : length (row_mask3 ls) = length ls.
Proof.
  unfold row_mask3, row_mask1, row_mask2.
  rewrite length_map, length_zip_with, !length_map. lia.
Qed.

Lemma length_row_fill bs v xs :
  length bs = length xs -> length (row_fill bs v xs) = length xs.
Proof. intros Hl. unfold row_fill. rewrite length_zip_with. lia. Qed.

Lemma shape_fill_rows (L M : mat) :
  map length L = map length M ->
  map length
    (zip_with (fun ls xs => row_fill (row_mask2 ls) 1 (row_fill (row_mask1 ls) 0 xs))
       L M)
  = map (fun ls => length (row_mask3 ls)) L.
Proof.
  revert M. induction L as [| ls L IH]; intros M Hs.
  - reflexivity.
  - destruct M as [| xs M]; [discriminate |]. injection Hs as Hlen Hs.
    cbn. rewrite (IH M Hs). f_equal.
    rewrite length_row_mask3.
    unfold row_fill, row_mask1, row_mask2.
    rewrite !length_zip_with, !length_map. lia.
Qed.

Lemma SigMatrix_image (m : Mesh) :
  0 < Off m ->
  map length (linMatrix m) = map length (matrix m) ->
  SigMatrix m
    = Ok (set_matrix (map (map (transform (Off m) (Gain m))) (linMatrix m)) m).
Proof.
  intros Hoff Hs. unfold SigMatrix.
  rewrite same_shape_intro
    by (unfold mask; rewrite <- Hs, map_map; apply map_ext; intros;
        now rewrite length_map).
  cbn [negb].
  destruct (masks_as_rows (linMatrix m) (matrix m)) as [E3 E2].
  rewrite E3, E2. unfold sigmoid.
  rewrite (mapO_sigmoid1_interior _ _ _ Hoff (sel2_mask3_interior (linMatrix m))).
  cbn [obind]. do 2 f_equal.
  rewrite <- (app_nil_r (map _ (concat _))).
  change (concat (zip_with sel (map row_mask3 (linMatrix m)) (linMatrix m)))
    with (sel2 (map row_mask3 (linMatrix m)) (linMatrix m)).
  rewrite put2_sel2_map.
  - apply merge2_transform. exact Hs.
  - rewrite map_map. apply map_ext. intros. apply length_row_mask3.
  - rewrite map_map. symmetry. apply shape_fill_rows. exact Hs.
Qed.

(** X1: [SigMatrix] never fails on a Mesh with a positive [Off] whose two
    matrices have the same shape, and it makes [matrix] the image of
    [linMatrix] under the transform: 0 for a linear weight <= 0, 1 for one
    >= 1, the curve inside; the old [matrix] plays no part. *)
Theorem X1_SigMatrix_image (m : Mesh) :
  0 < Off m ->
  map length (linMatrix m) = map length (matrix m) ->
  SigMatrix m
    = Ok (set_matrix (map (map (transform (Off m) (Gain m))) (linMatrix m)) m).
Proof. exact (SigMatrix_image m). Qed.

Lemma X1_SigMatrix_image_witness :
  0 < Off (example_mesh default_args) /\
  map length (linMatrix (example_mesh default_args))
    = map length (matrix (example_mesh default_args)) /\
  SigMatrix (example_mesh default_args)
    = Ok (set_matrix
            (map (map (transform (Off (example_mesh default_args))
                         (Gain (example_mesh default_args))))
               (linMatrix (example_mesh default_args)))
            (example_mesh default_args)).
Proof.
  assert (Hoff : 0 < Off (example_mesh default_args)) by (cbn; lra).
  split; [exact Hoff |]. split; [reflexivity |].
  exact (X1_SigMatrix_image (example_mesh default_args) Hoff eq_refl).
Defined.

(** ** [Update] on a delta of the shape of the mesh *)

Lemma length_put {A} (bs : list bool) (vs xs : list A) :
  length (fst (put bs vs xs)) = length xs.
Proof.
  revert vs xs. induction bs as [| b bs IH]; intros vs xs; [reflexivity |].
  destruct xs as [| x xs]; [reflexivity |]. cbn.
  destruct b.
  - destruct vs as [| v vs]; [reflexivity |].
    specialize (IH vs xs). destruct (put bs vs xs). cbn in *. lia.
  - specialize (IH vs xs). destruct (put bs vs xs). cbn in *. lia.
Qed.

Lemma shape_put2 {A} (msk : list (list bool)) (vs : list A) (M : list (list A)) :
  map length (put2 msk vs M) = map length M.
Proof.
  revert vs M. induction msk as [| bs msk IH]; intros vs M; [reflexivity |].
  destruct M as [| xs M]; [reflexivity |]. cbn.
  pose proof (length_put bs vs xs) as Hl.
  destruct (put bs vs xs) as [r rest]. cbn in *. rewrite IH. congruence.
Qed.

Lemma shape_SoftBound m delta d :
  SoftBound m delta = Ok d -> map length d = map length delta.
Proof.
  unfold SoftBound. destruct (shape delta) as [mm n].
  destruct (softBound m).
  - destruct (negb _); [discriminate |]. intros E. injection E as <-.
    unfold imul_at. now rewrite !shape_put2.
  - intros E. injection E as <-. unfold imul_at. now rewrite !shape_put2.
Qed.

Lemma shape_add_block (L d : mat) :
  map length d = map length L -> map length (add_block L d) = map length L.
Proof.
  intros H. unfold add_block.
  assert (Hl : length d = length L).
  { rewrite <- (length_map length d), H. apply length_map. }
  rewrite drop_ge by lia. rewrite app_nil_r.
  revert d H Hl. induction L as [| row L IH]; intros d H Hl.
  - destruct d; reflexivity.
  - destruct d as [| drow d]; [discriminate |].
    cbn in *. injection H as Hr H. injection Hl as Hl.
    rewrite (IH d H Hl). f_equal.
    unfold add_row. rewrite length_app, length_zip_with, length_drop. lia.
Qed.

Lemma shape_fill2 {A} (msk : list (list bool)) (v : A) (M : list (list A)) :
  map length msk = map length M -> map length (fill2 msk v M) = map length M.
Proof.
  unfold fill2. revert M. induction msk as [| bs msk IH]; intros M H.
  - destruct M; [reflexivity | discriminate].
  - destruct M as [| xs M]; [discriminate |]. cbn in *.
    injection H as Hb H. rewrite (IH M H). f_equal.
    rewrite length_zip_with. lia.
Qed.

Lemma shape_mask p (M : mat) : map length (mask p M) = map length M.
Proof.
  unfold mask. rewrite map_map. apply map_ext. intros. apply length_map.
Qed.

Lemma shape_ClipLinMatrix m :
  map length (linMatrix (ClipLinMatrix m)) = map length (linMatrix m).
Proof.
  unfold ClipLinMatrix. cbn.
  rewrite shape_fill2; rewrite ?shape_mask; rewrite shape_fill2;
    rewrite ?shape_mask; reflexivity.
Qed.

Lemma WtBalance_returns m :
  0 <= wbLoGain m -> 0 <= wbHiGain m -> wbAvgThr m <= wbLoThr m ->
  exists m', WtBalance m = Ok m'.
Proof.
  intros Hlo Hhi Hthr. unfold WtBalance.
  destruct (WtBalInterval m <=? WtBalCtr m + 1)%Z; [| eauto].
  cbn [negb WtBalance_attribute_truth].
  destruct (mean (matrix m)) as [wbAvg |]; [| eauto].
  destruct (ltb wbAvg (wbLoThr m)) eqn:E1.
  - apply ltb_true in E1.
    destruct (ltb wbAvg (wbAvgThr m)) eqn:E2.
    + assert (0 <= wbLoGain m * (wbLoThr m - wbAvgThr m))
        by (apply Rmult_le_pos; lra).
      rewrite pydiv_ok by lra. cbn. eauto.
    + assert (0 <= wbLoGain m * (wbLoThr m - wbAvg))
        by (apply Rmult_le_pos; lra).
      rewrite fdiv_ok by lra. cbn. eauto.
  - destruct (ltb (wbHiThr m) wbAvg) eqn:E2; [| eauto].
    apply ltb_true in E2.
    assert (0 <= wbHiGain m * (wbAvg - wbHiThr m))
      by (apply Rmult_le_pos; lra).
    rewrite fdiv_ok by lra. cbn. eauto.
Qed.

(** X2: on a Mesh with a positive [Off], non-negative balance gains and
    [wbAvgThr <= wbLoThr], whose [linMatrix] and [matrix] are [r] by [c],
    [Update] with an [r] by [c] delta raises nothing, and the [matrix] it
    leaves is the image of the [linMatrix] it leaves under the transform. *)
Theorem X2_Update_returns (m : Mesh) (delta : mat) (r c : nat) :
  0 < Off m -> 0 <= wbLoGain m -> 0 <= wbHiGain m -> wbAvgThr m <= wbLoThr m ->
  map length (linMatrix m) = replicate r c ->
  map length (matrix m) = replicate r c ->
  map length delta = replicate r c ->
  exists m',
    Update m delta = Ok m' /\
    map length (linMatrix m') = replicate r c /\
    matrix m' = map (map (transform (Off m) (Gain m))) (linMatrix m').
Proof.
  intros Hoff Hlo Hhi Hthr HL HM Hd. unfold Update.
  assert (Hblk : forall d : mat, map length d = replicate r c ->
            block (fst (shape d)) (snd (shape d)) (linMatrix m) = linMatrix m).
  { intros d Hd'. destruct (shape_of_replicate d r c Hd') as (Hl & _ & Hs).
    cbn [shape fst]. rewrite Hl. apply (block_full _ r c); [exact HL |].
    intros Hr. now rewrite (Hs Hr). }
  assert (Esb : exists d, SoftBound m delta = Ok d).
  { unfold SoftBound. destruct (shape delta) as [mm n] eqn:Es.
    destruct (softBound m); [| eauto].
    pose proof (Hblk delta Hd) as Hb. rewrite Es in Hb. cbn [fst snd] in Hb.
    rewrite Hb.
    rewrite same_shape_intro by (rewrite shape_mask; congruence).
    cbn. eauto. }
  destruct Esb as [d Ed]. rewrite Ed. cbn [obind].
  pose proof (shape_SoftBound _ _ _ Ed) as Hsd. rewrite Hd in Hsd.
  destruct (shape d) as [mm n] eqn:Es.
  unfold iadd_block.
  pose proof (Hblk d Hsd) as Hb. rewrite Es in Hb. cbn [fst snd] in Hb.
  rewrite Hb.
  destruct (shape_of_replicate (linMatrix m) r c HL) as (HlL & _ & HsL).
  assert (Ebc : broadcast (fst (shape (linMatrix m))) (snd (shape (linMatrix m))) d
                = Some d).
  { destruct (Nat.eq_dec r 0%nat) as [-> | Hr].
    - destruct d; [| discriminate]. destruct (linMatrix m); [| discriminate].
      reflexivity.
    - rewrite (HsL Hr). now apply broadcast_full. }
  destruct (shape (linMatrix m)) as [r' c']. cbn in Ebc. rewrite Ebc.
  cbn [of_option obind].
  set (m1 := ClipLinMatrix (set_linMatrix (add_block (linMatrix m) d) m)).
  assert (HL1 : map length (linMatrix m1) = replicate r c).
  { unfold m1. rewrite shape_ClipLinMatrix. cbn.
    rewrite shape_add_block; congruence. }
  assert (E1 : SigMatrix m1 =
               Ok (set_matrix (map (map (transform (Off m1) (Gain m1)))
                                 (linMatrix m1)) m1)).
  { apply SigMatrix_image; [exact Hoff |]. rewrite HL1. symmetry. exact HM. }
  rewrite E1. cbn [obind].
  destruct (WtBalance_returns
              (set_matrix (map (map (transform (Off m1) (Gain m1))) (linMatrix m1)) m1))
    as [m' Em']; [exact Hlo | exact Hhi | exact Hthr |].
  exists m'. split; [exact Em' |].
  apply WtBalance_matrix in Em' as (Hm' & Hl' & _).
  rewrite Hm', Hl'. split; [exact HL1 | reflexivity].
Qed.

Lemma X2_Update_returns_witness :
  exists m',
    Update (example_mesh default_args) [[0]] = Ok m' /\
    map length (linMatrix m') = replicate 1%nat 1%nat /\
    matrix m' = map (map (transform (Off (example_mesh default_args))
                            (Gain (example_mesh default_args))))
                  (linMatrix m').
Proof.
  apply (X2_Update_returns (example_mesh default_args) [[0]] 1%nat 1%nat);
    cbn; try lra; reflexivity.
Defined.

(** X3: when the delta has more rows than [linMatrix] and [softBound] is
    set, [Update] raises [IndexError] (the boolean mask of the delta does
    not fit the block of [linMatrix]); nothing is written. *)
Theorem X3_Update_delta_too_tall (m : Mesh) (delta : mat) :
  softBound m = true ->
  (length (linMatrix m) < length delta)%nat ->
  Update m delta = Raise IndexError.
Proof.
  intros Hsb Hlen. unfold Update, SoftBound.
  destruct (shape delta) as [mm n]. rewrite Hsb.
  assert (E : same_shape (mask (fun d => ltb 0 d) delta)
                (block mm n (linMatrix m)) = false).
  { unfold same_shape. apply bool_decide_eq_false. intros H.
    apply (f_equal length) in H. rewrite !length_map in H.
    unfold mask, block in H. rewrite !length_map, length_take in H. lia. }
  rewrite E. reflexivity.
Qed.

Lemma X3_Update_delta_too_tall_witness :
  Update (example_mesh default_args) [[0]; [0]] = Raise IndexError.
Proof.
  apply (X3_Update_delta_too_tall (example_mesh default_args) [[0]; [0]]).
  - reflexivity.
  - cbn. lia.
Defined.

(** ** The weights after construction and after [set] *)

Lemma clamp_rows_bounded (M : mat) :
  Forall (Forall unit_interval)
    (fill2 (mask (fun x => leb 1 x) (fill2 (mask (fun x => leb x 0) M) 0 M)) 1
       (fill2 (mask (fun x => leb x 0) M) 0 M)).
Proof.
  unfold fill2, mask. induction M as [| xs M IH]; [constructor |].
  cbn. constructor; [| exact IH]. clear IH.
  induction xs as [| x xs IH]; [constructor |].
  cbn. constructor; [| exact IH].
  unfold unit_interval.
  destruct (leb x 0) eqn:E0.
  - rewrite (proj2 (leb_false 1 0)) by lra. lra.
  - apply leb_false in E0. destruct (leb 1 x) eqn:E1; [lra |].
    apply leb_false in E1. lra.
Qed.

Lemma InvSigMatrix_matrix_bounded m m' :
  InvSigMatrix m = Ok m' -> Forall (Forall unit_interval) (matrix m').
Proof.
  unfold InvSigMatrix. intros H.
  destruct (invSigmoid m _) as [vs |]; cbn in H; [| discriminate].
  destruct (negb _); [discriminate |].
  injection H as <-. cbn. apply clamp_rows_bounded.
Qed.

(** X4: a Mesh that [Mesh.__init__] builds has the size
    [max(size, len(inLayer))], the scale 1, the balance counter 0, and
    every entry of its [matrix] in [0,1], whatever the random draw; after
    [set(matrix)] every entry of [matrix] is in [0,1] too, whatever was
    given. *)
Theorem X4_weights_bounded_after_init_and_set :
  (forall sz inl a rand m,
     Mesh_init sz inl a rand = Ok m ->
     size m = Nat.max sz (in_len inl) /\ Gscale m = 1 /\ WtBalCtr m = 0%Z /\
     mesh m = None /\
     Forall (Forall unit_interval) (matrix m)) /\
  (forall m M m',
     Mesh_set m [M] = Ok m' -> Forall (Forall unit_interval) (matrix m')).
Proof.
  split.
  - intros sz inl a rand m H.
    pose proof H as Hinit. unfold Mesh_init in H.
    destruct (fdiv _ _) as [g |]; cbn [obind] in H; [| discriminate].
    pose proof (InvSigMatrix_matrix_bounded _ _ H) as Hb.
    pose proof H as Hf. unfold InvSigMatrix in Hf.
    destruct (invSigmoid _ _) as [vs |]; cbn [obind] in Hf; [| discriminate].
    destruct (negb _); [discriminate |].
    injection Hf as <-.
    split; [unfold set_linMatrix, set_matrix; cbn [size];
            destruct (Nat.ltb_spec (in_len inl) sz); lia |].
    split; [reflexivity |]. split; [reflexivity |].
    split; [reflexivity | exact Hb].
  - intros m M m' H. cbn in H.
    eapply InvSigMatrix_matrix_bounded. exact H.
Qed.

Lemma X4_weights_bounded_after_init_and_set_witness :
  (size (example_mesh default_args) = Nat.max 1 (in_len inl1) /\
   Forall (Forall unit_interval) (matrix (example_mesh default_args))) /\
  Forall (Forall unit_interval) (matrix unit_weight_mesh).
Proof.
  destruct X4_weights_bounded_after_init_and_set as [Hinit Hset].
  split.
  - destruct (Hinit 1%nat inl1 default_args [[1 / 2]] (example_mesh default_args))
      as (Hs & _ & _ & _ & Hb).
    + apply Mesh_init_example; cbn; lra.
    + split; [exact Hs | exact Hb].
  - apply (Hset (example_mesh default_args) [[1]] unit_weight_mesh).
    exact Mesh_set_example.
Defined.

(** ** The direction of the weight balance *)

(** X5: on a balancing call ([WtBalCtr + 1 >= WtBalInterval]) with
    non-negative gains and [wbAvgThr <= wbLoThr], the two factors sum to 2
    whenever they are set: a mean weight below [wbLoThr] makes
    [wbDec <= 1 <= wbInc], a mean above both thresholds makes
    [wbInc <= 1 <= wbDec], and a mean from [wbLoThr] to [wbHiThr] leaves
    both as they were. *)
Theorem X5_WtBalance_direction (m m' : Mesh) (wbAvg : R) :
  (WtBalInterval m <= WtBalCtr m + 1)%Z ->
  mean (matrix m) = Some wbAvg ->
  0 <= wbLoGain m -> 0 <= wbHiGain m -> wbAvgThr m <= wbLoThr m ->
  WtBalance m = Ok m' ->
  (wbAvg < wbLoThr m ->
   wbInc m' + wbDec m' = 2 /\ 0 < wbDec m' <= 1 /\ 1 <= wbInc m') /\
  (wbLoThr m <= wbAvg -> wbHiThr m < wbAvg ->
   wbInc m' + wbDec m' = 2 /\ 0 < wbInc m' <= 1 /\ 1 <= wbDec m') /\
  (wbLoThr m <= wbAvg <= wbHiThr m ->
   wbInc m' = wbInc m /\ wbDec m' = wbDec m).
Proof.
  intros Hint Hmean Hlo Hhi Hthr H.
  assert (Hinv : forall f, 0 <= f -> 0 < 1 / (1 + f) <= 1).
  { intros f Hf. split.
    - apply Rdiv_lt_0_compat; lra.
    - apply (Rmult_le_reg_r (1 + f)); [lra |].
      unfold Rdiv. rewrite Rmult_assoc, Rinv_l by lra. lra. }
  unfold WtBalance in H.
  apply Z.leb_le in Hint. rewrite Hint, Hmean in H.
  cbn [negb WtBalance_attribute_truth] in H.
  destruct (ltb wbAvg (wbLoThr m)) eqn:E1.
  - apply ltb_true in E1.
    assert (Hres : exists f, 0 <= f /\ wbDec m' = 1 / (1 + f) /\
                             wbInc m' = 2 - 1 / (1 + f)).
    { destruct (ltb wbAvg (wbAvgThr m)) eqn:E2.
      - assert (Hf : 0 <= wbLoGain m * (wbLoThr m - wbAvgThr m))
          by (apply Rmult_le_pos; lra).
        rewrite pydiv_ok in H by lra. cbn in H. injection H as <-.
        eexists. split; [exact Hf |]. cbn. auto.
      - assert (Hf : 0 <= wbLoGain m * (wbLoThr m - wbAvg))
          by (apply Rmult_le_pos; lra).
        rewrite fdiv_ok in H by lra. cbn in H. injection H as <-.
        eexists. split; [exact Hf |]. cbn. auto. }
    destruct Hres as (f & Hf & Hd & Hi). specialize (Hinv f Hf).
    split; [| split]; intros; lra.
  - apply ltb_false in E1.
    destruct (ltb (wbHiThr m) wbAvg) eqn:E2.
    + apply ltb_true in E2.
      assert (Hf : 0 <= wbHiGain m * (wbAvg - wbHiThr m))
        by (apply Rmult_le_pos; lra).
      rewrite fdiv_ok in H by lra. cbn in H. injection H as <-. cbn.
      specialize (Hinv _ Hf).
      split; [| split]; intros; try lra.
    + apply ltb_false in E2. injection H as <-. cbn.
      split; [| split]; intros; try lra; auto.
Qed.

Lemma X5_WtBalance_direction_witness :
  exists m',
    WtBalance (example_mesh default_args) = Ok m' /\
    wbInc m' + wbDec m' = 2 /\ 0 < wbDec m' <= 1 /\ 1 <= wbInc m'.
Proof.
  assert (Hmean : mean (matrix (example_mesh default_args)) = Some ((0 + 0) / 1))
    by reflexivity.
  destruct (WtBalance_returns (example_mesh default_args)) as [m' E];
    [cbn; lra | cbn; lra | cbn; lra |].
  exists m'. split; [exact E |].
  refine (proj1 (X5_WtBalance_direction (example_mesh default_args) m' _
                   _ Hmean _ _ _ E) _); cbn; try lra; try lia.
Defined.

(** ** The two transforms with the default [Off] *)

(** What the inverse transform makes of the transform of an interior
    value, for a positive [Off] and a nonzero [Gain]. *)
Lemma invSigmoid1_sigmoid1 off gain y :
  0 < off -> gain <> 0 -> 0 < y < 1 ->
  (let* x := sigmoid1 off gain y in invSigmoid1 (1 / off) (1 / gain) x) =
    Ok (y / (y + Rpower (1 / off) (1 / gain) * off * (1 - y))).
Proof.
  intros Hoff Hgain Hy.
  destruct (sigmoid1_interior off gain y Hoff Hy) as [E1 Hx].
  rewrite E1. cbn [obind].
  set (q := off * (1 - y) / y) in *.
  set (p := Rpower q gain) in *.
  assert (Hq : 0 < q) by (unfold q; apply Rdiv_lt_0_compat; [nra | lra]).
  assert (Hp : 0 < p) by apply Rpower_pos.
  destruct (invSigmoid1_interior off gain (1 / (1 + p)) Hoff Hx) as [E2 _].
  rewrite E2. f_equal.
  assert (Hio : 0 < 1 / off) by (apply Rdiv_lt_0_compat; lra).
  assert (Eb : 1 / off * (1 - 1 / (1 + p)) / (1 / (1 + p)) = 1 / off * p).
  { field. lra. }
  rewrite Eb.
  rewrite <- Rpower_mult_distr by assumption.
  unfold p. rewrite Rpower_mult.
  replace (gain * (1 / gain)) with 1 by (field; exact Hgain).
  rewrite Rpower_1 by exact Hq.
  pose proof (Rpower_pos (1 / off) (1 / gain)) as HB.
  unfold q. field. split; [| lra].
  assert (0 < Rpower (1 / off) (1 / gain) * off * (1 - y)).
  { apply Rmult_lt_0_compat; [apply Rmult_lt_0_compat |]; lra. }
  lra.
Qed.



(** X7: for a positive [Off] and a positive [Gain] the transform is
    defined and strictly increasing on the values strictly between 0
    and 1. *)
Theorem X7_sigmoid_increasing (off gain x y : R) :
  0 < off -> 0 < gain -> 0 < x -> x < y -> y < 1 ->
  exists sx sy,
    sigmoid1 off gain x = Ok sx /\ sigmoid1 off gain y = Ok sy /\ sx < sy.
Proof.
  intros Hoff Hgain Hx Hxy Hy.
  destruct (sigmoid1_interior off gain x Hoff ltac:(lra)) as [Ex _].
  destruct (sigmoid1_interior off gain y Hoff ltac:(lra)) as [Ey _].
  do 2 eexists. split; [exact Ex |]. split; [exact Ey |].
  assert (Hqy : 0 < off * (1 - y) / y)
    by (apply Rdiv_lt_0_compat; [nra | lra]).
  assert (Hq : off * (1 - y) / y < off * (1 - x) / x).
  { apply (Rmult_lt_reg_r (x * y)); [nra |].
    replace (off * (1 - y) / y * (x * y)) with (off * (1 - y) * x)
      by (field; lra).
    replace (off * (1 - x) / x * (x * y)) with (off * (1 - x) * y)
      by (field; lra).
    nra. }
  assert (Hp : Rpower (off * (1 - y) / y) gain < Rpower (off * (1 - x) / x) gain).
  { apply Rlt_Rpower_l; [exact Hgain | lra]. }
  pose proof (Rpower_pos (off * (1 - y) / y) gain) as Hpy.
  unfold Rdiv at 1 3. rewrite !Rmult_1_l.
  apply Rinv_lt_contravar; [| lra].
  apply Rmult_lt_0_compat; lra.
Qed.

Lemma X7_sigmoid_increasing_witness :
  exists sx sy,
    sigmoid1 1 6 (1 / 4) = Ok sx /\ sigmoid1 1 6 (1 / 2) = Ok sy /\ sx < sy.
Proof. apply (X7_sigmoid_increasing 1 6 (1 / 4) (1 / 2)); lra. Defined.

(** ** The scale of a mesh *)

(** X8: [setGscale] divides by nothing that is zero: for a positive
    [AbsScale * RelScale] the new scale is positive, and it is at most
    [AbsScale * RelScale / totalRel] when [totalRel] is positive and at
    most [AbsScale * RelScale] otherwise (the sending-layer factor is at
    most 1, whatever the average activity). *)
Theorem X8_setGscale_bounds (m : Mesh) (totalRel avgActP : R) :
  0 < AbsScale m * RelScale m ->
  0 < Gscale (setGscale m totalRel avgActP) /\
  (0 < totalRel ->
   Gscale (setGscale m totalRel avgActP) <= AbsScale m * RelScale m / totalRel) /\
  (totalRel <= 0 ->
   Gscale (setGscale m totalRel avgActP) <= AbsScale m * RelScale m).
Proof.
  intros Hpos. unfold setGscale. cbn [Gscale set_Gscale].
  set (n := Rmax _ 1).
  assert (Hn : 1 <= n) by apply Rmax_r.
  assert (Hsc : 0 < 1 / n <= 1).
  { split; [apply Rdiv_lt_0_compat; lra |].
    apply (Rmult_le_reg_r n); [lra |].
    unfold Rdiv. rewrite Rmult_assoc, Rinv_l by lra. lra. }
  destruct (ltb 0 totalRel) eqn:E.
  - apply ltb_true in E.
    assert (Hg : 0 < AbsScale m * RelScale m / totalRel)
      by (apply Rdiv_lt_0_compat; lra).
    split; [apply Rmult_lt_0_compat; lra |].
    split; intros; [nra | lra].
  - apply ltb_false in E.
    replace (AbsScale m * RelScale m / 1) with (AbsScale m * RelScale m)
      by (field).
    split; [apply Rmult_lt_0_compat; lra |].
    split; intros; [lra | nra].
Qed.

Lemma X8_setGscale_bounds_witness :
  0 < Gscale (setGscale unit_weight_mesh 2 (1 / 4)) /\
  Gscale (setGscale unit_weight_mesh 2 (1 / 4))
    <= AbsScale unit_weight_mesh * RelScale unit_weight_mesh / 2.
Proof.
  assert (Hpos : 0 < AbsScale unit_weight_mesh * RelScale unit_weight_mesh)
    by (cbn; lra).
  destruct (X8_setGscale_bounds unit_weight_mesh 2 (1 / 4) Hpos) as (H1 & H2 & _).
  split; [exact H1 | apply H2; lra].
Defined.

(** ** The delta-sender encoding *)

Lemma put_sel {A} (bs : list bool) (ys xs : list A) :
  length bs = length ys -> length bs = length xs ->
  fst (put bs (sel bs ys) xs) = merge_row (fun y : A => y) bs ys xs.
Proof.
  intros Hy Hx.
  rewrite <- (map_id (sel bs ys)), <- (app_nil_r (map (fun y : A => y) (sel bs ys))).
  now rewrite (put_sel_map (fun y : A => y) bs ys xs [] Hy Hx).
Qed.

Lemma put_sel_opp (bs : list bool) (ys xs : vec) :
  length bs = length ys -> length bs = length xs ->
  fst (put bs (map Ropp (sel bs ys)) xs) = merge_row Ropp bs ys xs.
Proof.
  intros Hy Hx.
  rewrite <- (app_nil_r (map Ropp (sel bs ys))).
  now rewrite (put_sel_map Ropp bs ys xs [] Hy Hx).
Qed.

Lemma length_merge_row {A} (g : A -> A) bs ys xs :
  length bs = length ys -> length bs = length xs ->
  length (merge_row g bs ys xs) = length xs.
Proof.
  revert ys xs. induction bs as [| b bs IH]; intros ys xs Hy Hx.
  - destruct xs; [| discriminate]. destruct ys; reflexivity.
  - destruct ys as [| y ys]; [discriminate |].
    destruct xs as [| x xs]; [discriminate |].
    cbn. f_equal. apply IH; [now injection Hy | now injection Hx].
Qed.

(** The encoding of one call, entry by entry: the accumulator moves by what
    the last sent activity moves. *)
Lemma encode_rows send dlt (d la : vec) :
  length d = length la ->
  let delta0 := zip_with Rminus d la in
  let cond1 := map (fun x => leb x send) d in
  let cond2 := map (fun x => leb (Rabs x) dlt) delta0 in
  let mask1 := zip_with orb cond1 cond2 in
  let notMask1 := map negb mask1 in
  let delta1 := fill1 mask1 0 delta0 in
  let la1 := merge_row (fun y : R => y) notMask1 d la in
  let cond3 := map (fun x => ltb send x) la1 in
  let mask2 := zip_with andb cond3 cond1 in
  let delta2 := merge_row Ropp mask2 la1 delta1 in
  let la2 := fill1 mask2 0 la1 in
  zip_with Rplus la delta2 = la2 /\ length la2 = length la /\
  length notMask1 = length d /\ length mask2 = length d /\
  length la1 = length la /\ length delta1 = length la.
Proof.
  revert la. induction d as [| x d IH]; intros la Hlen.
  - destruct la; [| discriminate]. cbn. repeat split; reflexivity.
  - destruct la as [| l la]; [discriminate |]. injection Hlen as Hlen.
    specialize (IH la Hlen). cbn zeta in IH |- *.
    destruct IH as (IH1 & IH2 & IH3 & IH4 & IH5 & IH6).
    unfold fill1 in *. cbn [zip_with map merge_row length].
    split.
    + destruct (leb x send) eqn:E1; cbn [orb negb].
      * destruct (ltb send l) eqn:E3; cbn [andb];
          (f_equal; [lra | exact IH1]).
      * destruct (leb (Rabs (x - l)) dlt) eqn:E2; cbn [orb negb].
        -- rewrite Bool.andb_false_r. f_equal; [lra | exact IH1].
        -- rewrite Bool.andb_false_r. f_equal; [lra | exact IH1].
    + repeat split; f_equal; assumption.
Qed.

(** X9: [apply] raises [ValueError] on data longer than the mesh ([np.pad]
    is given a negative width) and pads shorter data with zeros; the
    encoding keeps [lastAct] and [inAct] at the size of the mesh, and it
    keeps the accumulator [inAct] equal to [lastAct], as it is after
    construction: what is added to the one is what the other moves by. No
    weight is touched. *)
Theorem X9_apply_encode (m : Mesh) (data : vec) :
  ((size m < length data)%nat -> apply_encode m data = Raise ValueError) /\
  ((length data <= size m)%nat ->
   length (lastAct m) = size m -> length (inAct m) = size m ->
   exists m',
     apply_encode m data = Ok m' /\
     length (lastAct m') = size m /\ length (inAct m') = size m /\
     (inAct m = lastAct m -> inAct m' = lastAct m') /\
     matrix m' = matrix m /\ linMatrix m' = linMatrix m).
Proof.
  split.
  - intros Hlt. unfold apply_encode.
    destruct (Nat.ltb_spec (size m) (length data)); [reflexivity | lia].
  - intros Hle Hla Hia. unfold apply_encode.
    destruct (Nat.ltb_spec (size m) (length data)); [lia |].
    rewrite bool_decide_eq_true_2 by auto. cbn [negb].
    set (d := take (size m) data ++ replicate (size m - length data) 0).
    assert (Hd : length d = length (lastAct m)).
    { unfold d. rewrite length_app, length_take, length_replicate. lia. }
    destruct (encode_rows (in_Send (inLayer m)) (in_Delta (inLayer m)) d
                (lastAct m) Hd) as (E & Hl2 & Hn1 & Hm2 & Hl1 & Hd1).
    cbn zeta in E, Hl2, Hn1, Hm2, Hl1, Hd1.
    rewrite (put_sel _ d (lastAct m)) by congruence.
    rewrite put_sel_opp by congruence.
    eexists. split; [reflexivity |]. cbn [lastAct inAct set_acts matrix linMatrix].
    split; [congruence |]. split.
    + rewrite length_zip_with, length_merge_row by congruence.
      rewrite Hd1. lia.
    + split; [| auto]. intros Heq. rewrite Heq. exact E.
Qed.

Lemma X9_apply_encode_witness :
  apply_encode (example_mesh default_args) [1; 2] = Raise ValueError /\
  exists m',
    apply_encode (example_mesh default_args) [] = Ok m' /\
    length (lastAct m') = size (example_mesh default_args) /\
    inAct m' = lastAct m'.
Proof.
  destruct (X9_apply_encode (example_mesh default_args) [1; 2]) as [Hraise _].
  split; [apply Hraise; cbn; lia |].
  destruct (X9_apply_encode (example_mesh default_args) []) as [_ Hok].
  destruct Hok as (m' & E & Hl & _ & Heq & _); [cbn; lia | reflexivity | reflexivity |].
  exists m'. split; [exact E |]. split; [exact Hl |]. apply Heq. reflexivity.
Defined.

(** ** AbsMesh *)

(** [np.abs(self.matrix)] *)
Definition mabs (M : mat) : mat := map (map Rabs) M.

(** [AbsMesh.__init__]: [Mesh.__init__], then the absolute value. *)
Definition AbsMesh_init (sz : nat) (inl : InLayer) (a : MeshArgs) (rand : mat)
  : outcome Mesh :=
  let* m := Mesh_init sz inl a rand in
  Ok (set_matrix (mabs (matrix m)) m).

(** [AbsMesh.set(matrix)]: [Mesh.set], then the absolute value. *)
Definition AbsMesh_set (m : Mesh) (args : list mat) : outcome Mesh :=
  match args with
  | [M] =>
      let* m' := Mesh_set m [M] in
      Ok (set_matrix (mabs (matrix m')) m')
  | _ => Raise TypeError
  end.

(** A call of [Mesh.Update] with keyword arguments: the method has the one
    parameter [dwtLog] and takes no other keyword. With [dwtLog] absent or
    [None] the body is [Update]. *)
Definition Update_keywords (kw : list string) (m : Mesh) (delta : mat)
  : outcome Mesh :=
  if forallb (fun k => String.eqb k "dwtLog") kw then Update m delta
  else Raise TypeError.

(** [AbsMesh.Update(debugDwt)]: [super().Update(debugDwt=debugDwt)], then
    the absolute value. *)
Definition AbsMesh_Update (m : Mesh) (delta : mat) : outcome Mesh :=
  let* m' := Update_keywords ["debugDwt"%string] m delta in
  Ok (set_matrix (mabs (matrix m')) m').

Lemma mabs_bounded M : Forall (Forall unit_interval) M -> mabs M = M.
Proof.
  intros HM. unfold mabs. induction HM as [| row M Hrow _ IH]; cbn; [reflexivity |].
  f_equal; [| exact IH].
  induction Hrow as [| x row Hx _ IHr]; cbn; [reflexivity |].
  f_equal; [| exact IHr]. apply Rabs_right. destruct Hx. lra.
Qed.

Lemma set_matrix_same m : set_matrix (matrix m) m = m.
Proof. now destruct m. Qed.

(** X20: the absolute value of [AbsMesh] changes nothing: but for the
    name, its [__init__] and [set] leave the mesh [Mesh.__init__] and
    [Mesh.set] leave, whose weights are in [0,1] already. Its [Update] raises
    [TypeError] on every mesh and every delta: it passes the keyword
    [debugDwt], which [Mesh.Update] does not have. *)
Theorem X20_AbsMesh :
  (forall sz inl a rand, AbsMesh_init sz inl a rand = Mesh_init sz inl a rand) /\
  (forall m args, AbsMesh_set m args = Mesh_set m args) /\
  (forall m delta, AbsMesh_Update m delta = Raise TypeError).
Proof.
  split; [| split].
  - intros sz inl a rand. unfold AbsMesh_init.
    destruct (Mesh_init sz inl a rand) as [m |] eqn:E; [| reflexivity].
    cbn. unfold Mesh_init in E.
    destruct (fdiv _ _) as [g |]; cbn in E; [| discriminate].
    rewrite (mabs_bounded _ (InvSigMatrix_matrix_bounded _ _ E)).
    now rewrite set_matrix_same.
  - intros m args. unfold AbsMesh_set.
    destruct args as [| M [| M' args]]; try reflexivity.
    destruct (Mesh_set m [M]) as [m' |] eqn:E; [| reflexivity].
    cbn. rewrite (mabs_bounded _ (InvSigMatrix_matrix_bounded _ _ E)).
    now rewrite set_matrix_same.
  - intros m delta. reflexivity.
Qed.
End Meshes.

(** * __init__.py *)

Module Vivilux.
Local Open Scope py_scope.
Local Open Scope nat_scope.

(** The arithmetic of the floats the module uses, and its two constants:
    [DELTA_TIME = 0.1] and the default [learningRate = 0.5] of [Mesh]. *)
Class Scalar (F : Type) : Type := {
  zero : F;
  one : F;
  add : F -> F -> F;
  sub : F -> F -> F;
  mul : F -> F -> F;
  DELTA_TIME : F;
  default_rate : F
}.

Section Model.
Context {F : Type} `{Scalar F}.

(** ** numpy arrays: buffers and views *)

(** A 1-D array object: [vlen] entries of the buffer [vbase] from the
    offset [voff] on.  A fresh array is the whole of a new buffer; a slice
    [a[:n]] and a row of a 2-D array are views of the same buffer. *)
Record view : Type := {
  vbase : nat;
  voff : nat;
  vlen : nat
}.

(** A 2-D array that owns its buffer, stored row after row. *)
Record array2 : Type := {
  abase : nat;
  arows : nat;
  acols : nat
}.

Definition buffers : Type := list (list F).

Definition cell (bs : buffers) (b o : nat) : F :=
  match bs !! b with
  | Some buf => match buf !! o with Some x => x | None => zero end
  | None => zero
  end.

Definition read (bs : buffers) (v : view) : list F :=
  map (fun k => cell bs (vbase v) (voff v + k)) (seq 0 (vlen v)).

Fixpoint write_at (buf : list F) (o : nat) (vals : list F) : list F :=
  match vals with
  | [] => buf
  | x :: vals' => write_at (<[o := x]> buf) (S o) vals'
  end.

Definition write (bs : buffers) (v : view) (vals : list F) : buffers :=
  match bs !! vbase v with
  | Some buf => <[vbase v := write_at buf (voff v) (take (vlen v) vals)]> bs
  | None => bs
  end.

(** [a[:n]] *)
Definition slice (n : nat) (v : view) : view :=
  {| vbase := vbase v; voff := voff v; vlen := min n (vlen v) |}.

(** The row [i] of a 2-D array, as iteration and indexing give it. *)
Definition row (a : array2) (i : nat) : view :=
  {| vbase := abase a; voff := i * acols a; vlen := acols a |}.

Definition rows (a : array2) : list view := map (row a) (seq 0 (arows a)).

Definition read2 (bs : buffers) (a : array2) : list (list F) :=
  map (read bs) (rows a).

(** ** Objects *)

(** What a learning rule reads of a layer: [getActivity()]. *)
Record Activity : Type := {
  a_preLin : list F;
  a_preAct : list F;
  a_obsLin : list F;
  a_obsAct : list F
}.

(** [rule(inLayer, self)] returns the delta matrix ([.learningRules] is
    not part of the sources). *)
Definition Rule : Type := Activity -> Activity -> list (list F).

Record Layer : Type := {
  preLin : view;
  preAct : view;
  obsLin : view;
  obsAct : view;
  act : list F -> list F;
  rule : Rule;
  meshes : list nat;          (* names of Mesh objects in the store *)
  isInput : bool;
  freeze : bool
}.

Record Mesh : Type := {
  size : nat;
  matrix : list (list F);
  inLayer : nat;              (* name of a Layer object in the store *)
  rate : F;
  (** [self.mesh] of an fbMesh; [None] for a Mesh of the base class. *)
  mesh : option nat
}.

Inductive Diag : Type :=
| AttemptedToApply (data : list F) (data_shape : nat) (mesh_matrix : list (list F))
| PrintedNet.

Record State : Type := {
  bufs : buffers;
  lays : list Layer;
  meshs : list Mesh;
  stdout : list Diag
}.

Record Net : Type := {
  layers : list nat;          (* names of Layer objects in the store *)
  metric : list (list F) -> list (list F) -> F
}.

(** ** The state and exception monad *)

Definition M (A : Type) : Type := State -> outcome (A * State).

Definition ret {A} (a : A) : M A := fun st => Ok (a, st).
Definition raise {A} (e : exn) : M A := fun _ => Raise e.
Definition sbind {A B} (m : M A) (k : A -> M B) : M B :=
  fun st => match m st with
            | Ok (a, st') => k a st'
            | Raise e => Raise e
            end.

Notation "'do' x '<-' m ';' k" := (sbind m (fun x => k))
  (at level 10, x pattern, m at level 100, k at level 200).
Notation "m ';;' k" := (sbind m (fun _ => k))
  (at level 100, k at level 200, right associativity).

Definition lift {A} (e : exn) (o : option A) : M A :=
  match o with Some a => ret a | None => raise e end.

Fixpoint forM {A} (l : list A) (f : A -> M unit) : M unit :=
  match l with
  | [] => ret tt
  | x :: l' => f x ;; forM l' f
  end.

(** [for time in range(n): x = body]: the variable after the loop. *)
Fixpoint repeatM {A} (n : nat) (body : M A) (x : option A) : M (option A) :=
  match n with
  | O => ret x
  | S n' => do y <- body; repeatM n' body (Some y)
  end.

Definition set_bufs (bs : buffers) (st : State) : State :=
  {| bufs := bs; lays := lays st; meshs := meshs st; stdout := stdout st |}.
Definition set_lays (ls : list Layer) (st : State) : State :=
  {| bufs := bufs st; lays := ls; meshs := meshs st; stdout := stdout st |}.
Definition set_meshs (ms : list Mesh) (st : State) : State :=
  {| bufs := bufs st; lays := lays st; meshs := ms; stdout := stdout st |}.

Definition getLayer (i : nat) : M Layer :=
  fun st => obind (of_option BadRef (lays st !! i)) (fun l => Ok (l, st)).
Definition setLayer (i : nat) (l : Layer) : M unit :=
  fun st => Ok (tt, set_lays (<[i := l]> (lays st)) st).
Definition getMesh (i : nat) : M Mesh :=
  fun st => obind (of_option BadRef (meshs st !! i)) (fun m => Ok (m, st)).
Definition setMesh (i : nat) (m : Mesh) : M unit :=
  fun st => Ok (tt, set_meshs (<[i := m]> (meshs st)) st).
Definition print (d : Diag) : M unit :=
  fun st => Ok (tt, {| bufs := bufs st; lays := lays st; meshs := meshs st;
                       stdout := stdout st ++ [d] |}).

Definition readV (v : view) : M (list F) := fun st => Ok (read (bufs st) v, st).
Definition readA (a : array2) : M (list (list F)) :=
  fun st => Ok (read2 (bufs st) a, st).

(** A new array with the given entries. *)
Definition allocV (vals : list F) : M view :=
  fun st => Ok ({| vbase := length (bufs st); voff := 0; vlen := length vals |},
                set_bufs (bufs st ++ [vals]) st).

(** [dst[:] = src]: the entries are copied into the buffer of [dst]. *)
Definition assign (dst : view) (src : list F) : M unit :=
  fun st => match bcast (vlen dst) src with
            | Some vals => Ok (tt, set_bufs (write (bufs st) dst vals) st)
            | None => Raise ValueError
            end.

(** [dst += src] and [dst -= src], in place. *)
Definition iadd (dst : view) (src : list F) : M unit :=
  do x <- readV dst;
  do s <- lift ValueError (bcast (vlen dst) src);
  assign dst (zip_with add x s).
Definition isub (dst : view) (src : list F) : M unit :=
  do x <- readV dst;
  do s <- lift ValueError (bcast (vlen dst) src);
  assign dst (zip_with sub x s).

Definition set_preLin (v : view) (l : Layer) : Layer :=
  {| preLin := v; preAct := preAct l; obsLin := obsLin l; obsAct := obsAct l;
     act := act l; rule := rule l; meshes := meshes l;
     isInput := isInput l; freeze := freeze l |}.
Definition set_preAct (v : view) (l : Layer) : Layer :=
  {| preLin := preLin l; preAct := v; obsLin := obsLin l; obsAct := obsAct l;
     act := act l; rule := rule l; meshes := meshes l;
     isInput := isInput l; freeze := freeze l |}.
Definition set_obsLin (v : view) (l : Layer) : Layer :=
  {| preLin := preLin l; preAct := preAct l; obsLin := v; obsAct := obsAct l;
     act := act l; rule := rule l; meshes := meshes l;
     isInput := isInput l; freeze := freeze l |}.
Definition set_obsAct (v : view) (l : Layer) : Layer :=
  {| preLin := preLin l; preAct := preAct l; obsLin := obsLin l; obsAct := v;
     act := act l; rule := rule l; meshes := meshes l;
     isInput := isInput l; freeze := freeze l |}.
Definition set_rule (r : Rule) (l : Layer) : Layer :=
  {| preLin := preLin l; preAct := preAct l; obsLin := obsLin l;
     obsAct := obsAct l; act := act l; rule := r; meshes := meshes l;
     isInput := isInput l; freeze := freeze l |}.
Definition set_meshes (ms : list nat) (l : Layer) : Layer :=
  {| preLin := preLin l; preAct := preAct l; obsLin := obsLin l;
     obsAct := obsAct l; act := act l; rule := rule l; meshes := ms;
     isInput := isInput l; freeze := freeze l |}.
Definition set_freeze (b : bool) (l : Layer) : Layer :=
  {| preLin := preLin l; preAct := preAct l; obsLin := obsLin l;
     obsAct := obsAct l; act := act l; rule := rule l; meshes := meshes l;
     isInput := isInput l; freeze := b |}.
Definition set_matrix (X : list (list F)) (m : Mesh) : Mesh :=
  {| size := size m; matrix := X; inLayer := inLayer m; rate := rate m;
     mesh := mesh m |}.

(** ** Mesh and fbMesh *)

Definition eye (n : nat) : list (list F) :=
  map (fun i => map (fun j => if (i =? j) then one else zero) (seq 0 n)) (seq 0 n).

Definition sum (xs : list F) : F := fold_right add zero xs.
Definition dot (u v : list F) : F := sum (zip_with mul u v).
Definition matvec (X : list (list F)) (v : list F) : list F :=
  map (fun r => dot r v) X.

(** [Mesh(size, inLayer, learningRate)] *)
Definition new_Mesh (sz : nat) (inl : nat) (learningRate : F) : M nat :=
  do l <- getLayer inl;
  let n := vlen (preAct l) in
  let size' := if (n <? sz) then sz else n in
  fun st =>
    Ok (length (meshs st),
        set_meshs (meshs st ++
          [{| size := size'; matrix := eye size'; inLayer := inl;
              rate := learningRate; mesh := None |}]) st).

(** [fbMesh(mesh, inLayer)] *)
Definition new_fbMesh (t : nat) (inl : nat) : M nat :=
  do tm <- getMesh t;
  do l <- getLayer inl;
  let n := vlen (preAct l) in
  let size' := if (n <? size tm) then size tm else n in
  fun st =>
    Ok (length (meshs st),
        set_meshs (meshs st ++
          [{| size := size'; matrix := eye size'; inLayer := inl;
              rate := default_rate; mesh := Some t |}]) st).

(** [self.set] with its positional arguments: [fbMesh.set] takes no matrix
    and raises. *)
Definition Mesh_set (i : nat) (args : list (list (list F))) : M unit :=
  do m <- getMesh i;
  match mesh m with
  | None =>
      match args with
      | [X] => setMesh i (set_matrix X m)
      | _ => raise TypeError
      end
  | Some _ =>
      match args with
      | [] => raise (PyException "Feedback mesh has no 'set' method."%string)
      | _ => raise TypeError
      end
  end.

(** [try: return matrix @ data / except ValueError: print(...)] *)
Definition apply_matrix (X : list (list F)) (data : view) : M (option (list F)) :=
  do d <- readV data;
  if (snd (shape X) =? length d) then ret (Some (matvec X d))
  else print (AttemptedToApply d (length d) X) ;; ret None.

(** [self.apply(data)]: [Mesh.apply] uses [self.matrix], [fbMesh.apply]
    uses [self.mesh.matrix.T]. *)
Definition Mesh_apply (i : nat) (data : view) : M (option (list F)) :=
  do m <- getMesh i;
  match mesh m with
  | None => apply_matrix (matrix m) data
  | Some t => do tm <- getMesh t; apply_matrix (transpose (matrix tm)) data
  end.

Definition Mesh_Predict (i : nat) : M (option (list F)) :=
  do m <- getMesh i;
  do l <- getLayer (inLayer m);
  Mesh_apply i (preAct l).

Definition Mesh_Observe (i : nat) : M (option (list F)) :=
  do m <- getMesh i;
  do l <- getLayer (inLayer m);
  Mesh_apply i (obsAct l).

(** [self.Update(delta)]: [self.matrix += self.rate*delta] for a Mesh,
    nothing for an fbMesh. *)
Definition Mesh_Update (i : nat) (delta : list (list F)) : M unit :=
  do m <- getMesh i;
  match mesh m with
  | Some _ => ret tt
  | None =>
      let '(r, c) := shape (matrix m) in
      do d <- lift ValueError (broadcast r c (map (map (mul (rate m))) delta));
      setMesh i (set_matrix (zip_with (zip_with add) (matrix m) d) m)
  end.

(** ** Layer *)

(** [Layer(length, activation, learningRule, isInput)] *)
Definition new_Layer (length_ : nat) (activation : list F -> list F)
    (learningRule : Rule) (isInput_ : bool) : M nat :=
  do v1 <- allocV (replicate length_ zero);
  do v2 <- allocV (replicate length_ zero);
  do v3 <- allocV (replicate length_ zero);
  do v4 <- allocV (replicate length_ zero);
  fun st =>
    Ok (length (lays st),
        set_lays (lays st ++
          [{| preLin := v1; preAct := v2; obsLin := v3; obsAct := v4;
              act := activation; rule := learningRule; meshes := [];
              isInput := isInput_; freeze := false |}]) st).

(** [len(self)] is [len(self.preAct)]. *)
Definition Layer_len (i : nat) : M nat :=
  do l <- getLayer i; ret (vlen (preAct l)).

Definition Freeze (i : nat) : M unit :=
  do l <- getLayer i; setLayer i (set_freeze true l).
Definition Unfreeze (i : nat) : M unit :=
  do l <- getLayer i; setLayer i (set_freeze false l).
Definition addMesh (i : nat) (m : nat) : M unit :=
  do l <- getLayer i; setLayer i (set_meshes (meshes l ++ [m]) l).

(** [DELTA_TIME * out[:n]**2]; indexing the [None] of a failed
    application raises. *)
Definition squared_input (n : nat) (out : option (list F)) : M (list F) :=
  match out with
  | None => raise TypeError
  | Some o => ret (map (fun y => mul DELTA_TIME (mul y y)) (take n o))
  end.

Definition Layer_Predict (i : nat) : M view :=
  do l <- getLayer i;
  do x <- readV (preLin l);
  isub (preLin l) (map (mul DELTA_TIME) x) ;;
  forM (meshes l) (fun mid =>
    do out <- Mesh_Predict mid;
    do n <- Layer_len i;
    do rhs <- squared_input n out;
    do l' <- getLayer i;
    iadd (preLin l') rhs) ;;
  do l' <- getLayer i;
  do y <- readV (preLin l');
  do v <- allocV (act l' y);
  setLayer i (set_preAct v l') ;;
  ret v.

Definition Layer_Observe (i : nat) : M view :=
  do l <- getLayer i;
  do x <- readV (obsLin l);
  isub (obsLin l) (map (mul DELTA_TIME) x) ;;
  forM (meshes l) (fun mid =>
    do out <- Mesh_Observe mid;
    do n <- Layer_len i;
    do rhs <- squared_input n out;
    do l' <- getLayer i;
    iadd (obsLin l') rhs) ;;
  do l' <- getLayer i;
  do y <- readV (obsLin l');
  do v <- allocV (act l' y);
  setLayer i (set_obsAct v l') ;;
  ret v.

(** [self.preLin = data[:len(self)]; self.preAct = data[:len(self)]]: both
    attributes become views of [data]. *)
Definition ClampPre (i : nat) (data : view) : M unit :=
  do n <- Layer_len i;
  do l <- getLayer i;
  setLayer i (set_preLin (slice n data) l) ;;
  do n' <- Layer_len i;
  do l' <- getLayer i;
  setLayer i (set_preAct (slice n' data) l').

Definition ClampObs (i : nat) (data : view) : M unit :=
  do n <- Layer_len i;
  do l <- getLayer i;
  setLayer i (set_obsLin (slice n data) l) ;;
  do n' <- Layer_len i;
  do l' <- getLayer i;
  setLayer i (set_obsAct (slice n' data) l').

Definition getActivity (i : nat) : M Activity :=
  do l <- getLayer i;
  do x1 <- readV (preLin l);
  do x2 <- readV (preAct l);
  do x3 <- readV (obsLin l);
  do x4 <- readV (obsAct l);
  ret {| a_preLin := x1; a_preAct := x2; a_obsLin := x3; a_obsAct := x4 |}.

Definition Layer_Learn (i : nat) : M unit :=
  do l <- getLayer i;
  if isInput l || freeze l then ret tt else
  match meshes l with
  | [] => raise IndexError
  | m0 :: _ =>
      do m <- getMesh m0;
      do a_in <- getActivity (inLayer m);
      do a_self <- getActivity i;
      Mesh_Update m0 (rule l a_in a_self)
  end.

Definition Layer_resetActivity (i : nat) : M unit :=
  do n <- Layer_len i;
  do v1 <- allocV (replicate n zero);
  do l <- getLayer i;
  setLayer i (set_preLin v1 l) ;;
  do v2 <- allocV (replicate n zero);
  do l <- getLayer i;
  setLayer i (set_preAct v2 l) ;;
  do v3 <- allocV (replicate n zero);
  do l <- getLayer i;
  setLayer i (set_obsLin v3 l) ;;
  do v4 <- allocV (replicate n zero);
  do l <- getLayer i;
  setLayer i (set_obsAct v4 l).

(** ** Net and FFFB *)

(** [l[1:-1]] and [l[-1]] *)
Definition interior_of {A} (l : list A) : list A := drop 1 (take (length l - 1) l).
Definition last_of {A} (l : list A) : M A := lift IndexError (last l).
Definition first_of {A} (l : list A) : M A := lift IndexError (head l).

Definition Predict (net : Net) (data : view) : M view :=
  do l0 <- first_of (layers net);
  ClampPre l0 data ;;
  forM (interior_of (layers net)) (fun i => Layer_Predict i ;; ret tt) ;;
  do ln <- last_of (layers net);
  Layer_Predict ln.

Definition Observe (net : Net) (inData outData : view) : M unit :=
  do l0 <- first_of (layers net);
  ClampObs l0 inData ;;
  do ln <- last_of (layers net);
  ClampObs ln outData ;;
  forM (interior_of (layers net)) (fun i => Layer_Observe i ;; ret tt).

(** [dst[index] = src] on a local 2-D array of [cols] columns. *)
Definition set_row (cols index : nat) (src : list F) (X : list (list F))
  : M (list (list F)) :=
  do r <- lift ValueError (bcast cols src);
  ret (<[index := r]> X).

(** The loop over the samples of [Infer]; [result] is the local variable
    of that name, unbound until a [Predict] has run. *)
Fixpoint Infer_loop (net : Net) (numTimeSteps cols : nat) (data : list view)
    (index : nat) (result : option view) (outputData : list (list F))
  : M (list (list F)) :=
  match data with
  | [] => ret outputData
  | inDatum :: data' =>
      do result' <- repeatM numTimeSteps (Predict net inDatum) result;
      do v <- lift UnboundLocalError result';
      do x <- readV v;
      do out' <- set_row cols index x outputData;
      Infer_loop net numTimeSteps cols data' (S index) result' out'
  end.

Definition Infer (net : Net) (inData : array2) (numTimeSteps : nat)
  : M (list (list F)) :=
  Infer_loop net numTimeSteps (acols inData) (rows inData) 0 None
    (replicate (arows inData) (replicate (acols inData) zero)).

Definition Evaluate (net : Net) (inData outData : array2) (numTimeSteps : nat)
  : M F :=
  do results <- Infer net inData numTimeSteps;
  do targets <- readA outData;
  ret (metric net results targets).

Definition resetActivity (net : Net) : M unit :=
  forM (layers net) Layer_resetActivity.

(** The four in-place copies between the phases. *)
Definition copy_pre_to_obs (i : nat) : M unit :=
  do l <- getLayer i;
  do x <- readV (preLin l);
  assign (obsLin l) x ;;
  do l <- getLayer i;
  do y <- readV (preAct l);
  assign (obsAct l) y.

Definition copy_obs_to_pre (i : nat) : M unit :=
  do l <- getLayer i;
  do x <- readV (obsLin l);
  assign (preLin l) x ;;
  do l <- getLayer i;
  do y <- readV (obsAct l);
  assign (preAct l) y.

(** The body of the loop over [zip(inData, outData)]. *)
Fixpoint Learn_samples (net : Net) (numTimeSteps cols : nat) (reset : bool)
    (data : list (view * view)) (index : nat) (lastResult : option view)
    (epochResults : list (list F))
  : M (option view * list (list F)) :=
  match data with
  | [] => ret (lastResult, epochResults)
  | (inDatum, outDatum) :: data' =>
      (if reset then resetActivity net else ret tt) ;;
      do lastResult' <- repeatM numTimeSteps (Predict net inDatum) lastResult;
      do v <- lift UnboundLocalError lastResult';
      do x <- readV v;
      do epochResults' <- set_row cols index x epochResults;
      forM (drop 1 (layers net)) copy_pre_to_obs ;;
      repeatM numTimeSteps (Observe net inDatum outDatum) None ;;
      forM (layers net) Layer_Learn ;;
      forM (drop 1 (layers net)) copy_obs_to_pre ;;
      Learn_samples net numTimeSteps cols reset data' (S index) lastResult'
        epochResults'
  end.

(** The loop over the epochs; [results] is filled from index 1 on. *)
Fixpoint Learn_epochs (net : Net) (inData outData : array2)
    (numTimeSteps cols : nat) (verbose reset : bool) (numEpochs epoch : nat)
    (lastResult : option view) (epochResults : list (list F))
    (results : list F) : M (list F) :=
  match numEpochs with
  | O => ret results
  | S numEpochs' =>
      do (lastResult', epochResults') <-
        Learn_samples net numTimeSteps cols reset
          (zip (rows inData) (rows outData)) 0 lastResult epochResults;
      do targets <- readA outData;
      let results' := <[S epoch := metric net epochResults' targets]> results in
      (if verbose then print PrintedNet else ret tt) ;;
      Learn_epochs net inData outData numTimeSteps cols verbose reset
        numEpochs' (S epoch) lastResult' epochResults' results'
  end.

Definition Learn (net : Net) (inData outData : array2)
    (numTimeSteps numEpochs : nat) (verbose reset : bool) : M (list F) :=
  do r0 <- Evaluate net inData outData numTimeSteps;
  let results := <[0 := r0]> (replicate (numEpochs + 1) zero) in
  do ln <- last_of (layers net);
  do cols <- Layer_len ln;
  Learn_epochs net inData outData numTimeSteps cols verbose reset numEpochs 0
    None (replicate (arows outData) (replicate cols zero)) results.

(** [setLearningRule(rule, layerIndex)] *)
Definition setLearningRule (net : Net) (r : Rule) (layerIndex : Z) : M unit :=
  if (layerIndex =? -1)%Z then
    forM (layers net) (fun i => do l <- getLayer i; setLayer i (set_rule r l))
  else
    do k <- lift IndexError (py_index (layers net) layerIndex);
    do i <- lift IndexError (layers net !! k);
    do l <- getLayer i;
    setLayer i (set_rule r l).

(** [Net(layers, Mesh, metric, learningRate)]: a Mesh from each layer to
    the next. *)
Fixpoint Net_init_loop (prev : nat) (rest : list nat) (learningRate : F)
  : M unit :=
  match rest with
  | [] => ret tt
  | layer :: rest' =>
      do sz <- Layer_len layer;
      do m <- new_Mesh sz prev learningRate;
      addMesh layer m ;;
      Net_init_loop layer rest' learningRate
  end.

Definition Net_init (layers_ : list nat)
    (metric_ : list (list F) -> list (list F) -> F) (learningRate : F)
  : M Net :=
  match layers_ with
  | [] => ret tt
  | l0 :: rest => Net_init_loop l0 rest learningRate
  end ;;
  ret {| layers := layers_; metric := metric_ |}.

(** [FFFB(...)]: each layer but the first and the last also gets an fbMesh
    onto the first mesh of the next layer. *)
Definition FFFB_init (layers_ : list nat)
    (metric_ : list (list F) -> list (list F) -> F) (learningRate : F)
  : M Net :=
  do net <- Net_init layers_ metric_ learningRate;
  forM (seq 1 (length (interior_of layers_))) (fun index =>
    do layer <- lift IndexError (layers_ !! index);
    do nextLayer <- lift IndexError (layers_ !! (index + 1));
    do nl <- getLayer nextLayer;
    do t <- first_of (meshes nl);
    do m <- new_fbMesh t nextLayer;
    addMesh layer m) ;;
  ret net.

(** ** Reasoning on the monad *)

Lemma sbind_Ok {A B} (m : M A) (k : A -> M B) st b st' :
  sbind m k st = Ok (b, st') ->
  exists a st1, m st = Ok (a, st1) /\ k a st1 = Ok (b, st').
Proof.
  unfold sbind. destruct (m st) as [[a st1] | e]; [eauto | discriminate].
Qed.

Lemma sbind_eq {A B} (m : M A) (k : A -> M B) st a st1 :
  m st = Ok (a, st1) -> sbind m k st = k a st1.
Proof. unfold sbind. now intros ->. Qed.

Lemma ret_Ok {A} (a b : A) st st' : ret a st = Ok (b, st') -> b = a /\ st' = st.
Proof. unfold ret. intros E. injection E as <- <-. auto. Qed.

Lemma lift_Ok {A} e (o : option A) a st st' :
  lift e o st = Ok (a, st') -> o = Some a /\ st' = st.
Proof. destruct o; cbn; intros E; [injection E as <- <-; auto | discriminate]. Qed.

Lemma getLayer_Ok i st l st' :
  getLayer i st = Ok (l, st') -> lays st !! i = Some l /\ st' = st.
Proof.
  unfold getLayer. destruct (lays st !! i); cbn; intros E;
    [injection E as <- <-; auto | discriminate].
Qed.

Lemma getLayer_eq i st l : lays st !! i = Some l -> getLayer i st = Ok (l, st).
Proof. unfold getLayer. now intros ->. Qed.

Lemma getMesh_Ok i st m st' :
  getMesh i st = Ok (m, st') -> meshs st !! i = Some m /\ st' = st.
Proof.
  unfold getMesh. destruct (meshs st !! i); cbn; intros E;
    [injection E as <- <-; auto | discriminate].
Qed.

Lemma getMesh_eq i st m : meshs st !! i = Some m -> getMesh i st = Ok (m, st).
Proof. unfold getMesh. now intros ->. Qed.

Lemma setLayer_Ok i l st u st' :
  setLayer i l st = Ok (u, st') -> st' = set_lays (<[i := l]> (lays st)) st.
Proof. unfold setLayer. intros E. now injection E as _ <-. Qed.

Lemma setMesh_Ok i m st u st' :
  setMesh i m st = Ok (u, st') -> st' = set_meshs (<[i := m]> (meshs st)) st.
Proof. unfold setMesh. intros E. now injection E as _ <-. Qed.

Lemma readV_Ok v st x st' :
  readV v st = Ok (x, st') -> x = read (bufs st) v /\ st' = st.
Proof. unfold readV. intros E. injection E as <- <-. auto. Qed.

Lemma readA_Ok a st x st' :
  readA a st = Ok (x, st') -> x = read2 (bufs st) a /\ st' = st.
Proof. unfold readA. intros E. injection E as <- <-. auto. Qed.

Lemma allocV_Ok vals st v st' :
  allocV vals st = Ok (v, st') ->
  v = {| vbase := length (bufs st); voff := 0; vlen := length vals |} /\
  st' = set_bufs (bufs st ++ [vals]) st.
Proof. unfold allocV. intros E. injection E as <- <-. auto. Qed.

Lemma print_Ok d st u st' :
  print d st = Ok (u, st') ->
  st' = {| bufs := bufs st; lays := lays st; meshs := meshs st;
           stdout := stdout st ++ [d] |}.
Proof. unfold print. intros E. now injection E as _ <-. Qed.

Lemma assign_Ok dst src st u st' :
  assign dst src st = Ok (u, st') ->
  exists vals, bcast (vlen dst) src = Some vals /\
               st' = set_bufs (write (bufs st) dst vals) st.
Proof.
  unfold assign. destruct (bcast (vlen dst) src) as [vals |]; intros E;
    [injection E as _ <-; eauto | discriminate].
Qed.

(** Takes a successful run apart, call by call. *)
Ltac minv :=
  repeat match goal with
  | H : sbind _ _ _ = Ok _ |- _ =>
      apply sbind_Ok in H; destruct H as (? & ? & ? & ?)
  | H : ret _ _ = Ok _ |- _ => apply ret_Ok in H; destruct H as [? ?]; subst
  | H : raise _ _ = Ok _ |- _ => discriminate H
  | H : lift _ _ _ = Ok _ |- _ => apply lift_Ok in H; destruct H as [? ?]; subst
  | H : getLayer _ _ = Ok _ |- _ =>
      apply getLayer_Ok in H; destruct H as [? ?]; subst
  | H : getMesh _ _ = Ok _ |- _ =>
      apply getMesh_Ok in H; destruct H as [? ?]; subst
  | H : setLayer _ _ _ = Ok _ |- _ => apply setLayer_Ok in H; subst
  | H : setMesh _ _ _ = Ok _ |- _ => apply setMesh_Ok in H; subst
  | H : readV _ _ = Ok _ |- _ => apply readV_Ok in H; destruct H as [? ?]; subst
  | H : readA _ _ = Ok _ |- _ => apply readA_Ok in H; destruct H as [? ?]; subst
  | H : allocV _ _ = Ok _ |- _ => apply allocV_Ok in H; destruct H as [? ?]; subst
  | H : print _ _ = Ok _ |- _ => apply print_Ok in H; subst
  | H : assign _ _ _ = Ok _ |- _ =>
      apply assign_Ok in H; destruct H as (? & ? & ?); subst
  end.

(** A relation between the state before and after a call that returns. *)
Definition keeps {A} (R : State -> State -> Prop) (m : M A) : Prop :=
  forall st a st', m st = Ok (a, st') -> R st st'.

Section Keeps.
Variable R : State -> State -> Prop.
Hypothesis R_refl : forall st, R st st.
Hypothesis R_trans : forall s1 s2 s3, R s1 s2 -> R s2 s3 -> R s1 s3.

Lemma keeps_ret {A} (a : A) : keeps R (ret a).
Proof. intros st b st' E. minv. apply R_refl. Qed.

Lemma keeps_raise {A} e : keeps R (raise (A := A) e).
Proof. intros st b st' E. discriminate. Qed.

Lemma keeps_lift {A} e (o : option A) : keeps R (lift e o).
Proof. intros st b st' E. minv. apply R_refl. Qed.

Lemma keeps_bind {A B} (m : M A) (k : A -> M B) :
  keeps R m -> (forall a, keeps R (k a)) -> keeps R (sbind m k).
Proof.
  intros Hm Hk st b st' E. minv.
  eapply R_trans; [eapply Hm | eapply Hk]; eassumption.
Qed.

Lemma keeps_forM {A} (l : list A) (f : A -> M unit) :
  (forall x, keeps R (f x)) -> keeps R (forM l f).
Proof.
  intros Hf. induction l as [| x l IH]; cbn.
  - apply keeps_ret.
  - apply keeps_bind; [apply Hf | intros _; exact IH].
Qed.

Lemma keeps_repeatM {A} n (body : M A) x :
  keeps R body -> keeps R (repeatM n body x).
Proof.
  intros Hb. revert x. induction n as [| n IH]; intros x; cbn.
  - apply keeps_ret.
  - apply keeps_bind; [exact Hb | intros y; apply IH].
Qed.

Lemma keeps_if {A} (b : bool) (m1 m2 : M A) :
  keeps R m1 -> keeps R m2 -> keeps R (if b then m1 else m2).
Proof. destruct b; auto. Qed.
End Keeps.

(** ** What the calls leave alone *)

(** Only the buffers and the output change: no Layer and no Mesh object. *)
Definition same_objects (s s' : State) : Prop :=
  lays s' = lays s /\ meshs s' = meshs s.

Lemma same_objects_refl st : same_objects st st.
Proof. split; reflexivity. Qed.

Lemma same_objects_trans s1 s2 s3 :
  same_objects s1 s2 -> same_objects s2 s3 -> same_objects s1 s3.
Proof. intros [? ?] [? ?]. split; congruence. Qed.

Ltac minv_cases :=
  repeat first
    [ progress minv
    | match goal with
      | H : (match ?o with _ => _ end) _ = Ok _ |- _ => destruct o eqn:?
      end ].

Ltac keeps_by_unfolding :=
  intros ? ? ? ?; minv_cases; split; reflexivity.

Lemma keeps_readV v : keeps same_objects (readV v).
Proof. keeps_by_unfolding. Qed.

Lemma keeps_allocV x : keeps same_objects (allocV x).
Proof. keeps_by_unfolding. Qed.

Lemma keeps_print d : keeps same_objects (print d).
Proof. keeps_by_unfolding. Qed.

Lemma keeps_assign v x : keeps same_objects (assign v x).
Proof. keeps_by_unfolding. Qed.

Lemma keeps_getLayer i : keeps same_objects (getLayer i).
Proof. keeps_by_unfolding. Qed.

Lemma keeps_getMesh i : keeps same_objects (getMesh i).
Proof. keeps_by_unfolding. Qed.

Lemma keeps_iadd v x : keeps same_objects (iadd v x).
Proof. unfold iadd. keeps_by_unfolding. Qed.

Lemma keeps_isub v x : keeps same_objects (isub v x).
Proof. unfold isub. keeps_by_unfolding. Qed.

Lemma keeps_Layer_len i : keeps same_objects (Layer_len i).
Proof. unfold Layer_len. keeps_by_unfolding. Qed.

Lemma keeps_squared_input n out : keeps same_objects (squared_input n out).
Proof. unfold squared_input. keeps_by_unfolding. Qed.

Lemma keeps_apply_matrix X data : keeps same_objects (apply_matrix X data).
Proof. unfold apply_matrix. keeps_by_unfolding. Qed.

Lemma keeps_Mesh_apply i data : keeps same_objects (Mesh_apply i data).
Proof.
  unfold Mesh_apply. intros st a st' E. minv.
  destruct (mesh _).
  - minv. eapply keeps_apply_matrix; eassumption.
  - eapply keeps_apply_matrix; eassumption.
Qed.

Lemma keeps_Mesh_Predict i : keeps same_objects (Mesh_Predict i).
Proof.
  unfold Mesh_Predict. intros st a st' E. minv.
  eapply keeps_Mesh_apply; eassumption.
Qed.

Lemma keeps_Mesh_Observe i : keeps same_objects (Mesh_Observe i).
Proof.
  unfold Mesh_Observe. intros st a st' E. minv.
  eapply keeps_Mesh_apply; eassumption.
Qed.

Lemma keeps_getActivity i : keeps same_objects (getActivity i).
Proof. unfold getActivity. keeps_by_unfolding. Qed.

Create HintDb keeps.
Local Hint Resolve same_objects_refl same_objects_trans keeps_readV keeps_allocV
  keeps_print keeps_assign keeps_getLayer keeps_getMesh keeps_iadd keeps_isub
  keeps_Layer_len keeps_squared_input keeps_apply_matrix keeps_Mesh_apply
  keeps_Mesh_Predict keeps_Mesh_Observe keeps_getActivity : keeps.

Lemma so_bind {A B} (m : M A) (k : A -> M B) :
  keeps same_objects m -> (forall a, keeps same_objects (k a)) ->
  keeps same_objects (sbind m k).
Proof. apply keeps_bind. exact same_objects_trans. Qed.

Lemma so_ret {A} (a : A) : keeps same_objects (ret a).
Proof. apply keeps_ret. exact same_objects_refl. Qed.

Lemma so_forM {A} (l : list A) (f : A -> M unit) :
  (forall x, keeps same_objects (f x)) -> keeps same_objects (forM l f).
Proof. apply keeps_forM; [exact same_objects_refl | exact same_objects_trans]. Qed.

Lemma so_repeatM {A} n (body : M A) x :
  keeps same_objects body -> keeps same_objects (repeatM n body x).
Proof. apply keeps_repeatM; [exact same_objects_refl | exact same_objects_trans]. Qed.

Lemma so_lift {A} e (o : option A) : keeps same_objects (lift e o).
Proof. apply keeps_lift. exact same_objects_refl. Qed.

Local Hint Resolve so_lift so_ret : keeps.

Ltac keeps_auto :=
  repeat first
    [ match goal with |- forall _, _ => intro end
    | solve [auto with keeps]
    | apply so_forM
    | apply so_ret
    | apply so_bind ].

(** The loops over the meshes of a layer, in [Predict] and [Observe]. *)
Lemma keeps_predict_loop i ms :
  keeps same_objects
    (forM ms (fun mid =>
       do out <- Mesh_Predict mid;
       do n <- Layer_len i;
       do rhs <- squared_input n out;
       do l' <- getLayer i;
       iadd (preLin l') rhs)).
Proof. keeps_auto. Qed.

Lemma keeps_observe_loop i ms :
  keeps same_objects
    (forM ms (fun mid =>
       do out <- Mesh_Observe mid;
       do n <- Layer_len i;
       do rhs <- squared_input n out;
       do l' <- getLayer i;
       iadd (obsLin l') rhs)).
Proof. keeps_auto. Qed.

(** ** The lengths of the state vectors of a layer *)

(** The operations of a Layer. *)
Inductive LayerOp : Type :=
| OpFreeze
| OpUnfreeze
| OpAddMesh (m : nat)
| OpPredict
| OpObserve
| OpClampPre (data : view)
| OpClampObs (data : view)
| OpLearn
| OpResetActivity.

Definition run_op (i : nat) (op : LayerOp) : M unit :=
  match op with
  | OpFreeze => Freeze i
  | OpUnfreeze => Unfreeze i
  | OpAddMesh m => addMesh i m
  | OpPredict => Layer_Predict i ;; ret tt
  | OpObserve => Layer_Observe i ;; ret tt
  | OpClampPre data => ClampPre i data
  | OpClampObs data => ClampObs i data
  | OpLearn => Layer_Learn i
  | OpResetActivity => Layer_resetActivity i
  end.

(** The lengths of [preLin], [preAct], [obsLin], [obsAct]. *)
Definition lengths (l : Layer) : list nat :=
  [vlen (preLin l); vlen (preAct l); vlen (obsLin l); vlen (obsAct l)].

(** The lengths an operation leaves, from the common length [n]. *)
Definition lengths_after (op : LayerOp) (n : nat) : list nat :=
  match op with
  | OpClampPre data => [min n (vlen data); min n (vlen data); n; n]
  | OpClampObs data => [n; n; min n (vlen data); min n (vlen data)]
  | _ => [n; n; n; n]
  end.

Lemma length_read bs v : length (read bs v) = vlen v.
Proof. unfold read. now rewrite length_map, length_seq. Qed.

Lemma lookup_set_layer (ls : list Layer) i l l' :
  ls !! i = Some l -> <[i := l']> ls !! i = Some l'.
Proof. intros Hl. apply list_lookup_insert_eq. eapply lookup_lt_Some, Hl. Qed.

(** What [getActivity] reads. *)
Definition activity (st : State) (l : Layer) : Activity :=
  {| a_preLin := read (bufs st) (preLin l);
     a_preAct := read (bufs st) (preAct l);
     a_obsLin := read (bufs st) (obsLin l);
     a_obsAct := read (bufs st) (obsAct l) |}.

Lemma getActivity_Ok i st a st' :
  getActivity i st = Ok (a, st') ->
  st' = st /\ exists l, lays st !! i = Some l /\ a = activity st l.
Proof. unfold getActivity. intros E. minv. eauto. Qed.

Lemma getActivity_eq i st l :
  lays st !! i = Some l -> getActivity i st = Ok (activity st l, st).
Proof.
  intros Hl. unfold getActivity.
  rewrite (sbind_eq _ _ _ _ _ (getLayer_eq _ _ _ Hl)). reflexivity.
Qed.

Lemma keeps_Mesh_Update_lays m0 delta :
  keeps (fun s s' => lays s' = lays s /\ bufs s' = bufs s /\ stdout s' = stdout s)
    (Mesh_Update m0 delta).
Proof.
  unfold Mesh_Update. intros st a st' E. minv.
  destruct (mesh _); [minv; auto |].
  destruct (shape _) as [r c]. minv. auto.
Qed.

Lemma keeps_Layer_Learn_lays i :
  keeps (fun s s' => lays s' = lays s /\ bufs s' = bufs s /\ stdout s' = stdout s)
    (Layer_Learn i).
Proof.
  unfold Layer_Learn. intros st a st' E. minv.
  destruct (isInput _ || freeze _); [minv; auto |].
  destruct (meshes _) as [| m0 rest]; [discriminate |].
  minv.
  repeat match goal with
  | E : getActivity _ _ = Ok _ |- _ =>
      apply getActivity_Ok in E; destruct E as (? & _); subst
  end.
  match goal with
  | E : Mesh_Update _ _ ?s = Ok _ |- _ =>
      apply keeps_Mesh_Update_lays in E; exact E
  end.
Qed.

Lemma Layer_Predict_layer i l st v st' :
  lays st !! i = Some l ->
  Layer_Predict i st = Ok (v, st') ->
  lays st' = <[i := set_preAct v l]> (lays st) /\
  exists bs, vlen v = length (act l (read bs (preLin l))).
Proof.
  intros Hl E. unfold Layer_Predict in E. minv.
  match goal with
  | E : isub _ _ _ = Ok _ |- _ => apply keeps_isub in E; destruct E as [E1 _]
  end.
  match goal with
  | E : forM _ _ _ = Ok _ |- _ =>
      apply keeps_predict_loop in E; destruct E as [E2 _]
  end.
  rewrite E1 in E2. rewrite E2 in *. simplify_eq.
  cbn. rewrite E2. split; [reflexivity | eauto].
Qed.

Lemma Layer_Observe_layer i l st v st' :
  lays st !! i = Some l ->
  Layer_Observe i st = Ok (v, st') ->
  lays st' = <[i := set_obsAct v l]> (lays st) /\
  exists bs, vlen v = length (act l (read bs (obsLin l))).
Proof.
  intros Hl E. unfold Layer_Observe in E. minv.
  match goal with
  | E : isub _ _ _ = Ok _ |- _ => apply keeps_isub in E; destruct E as [E1 _]
  end.
  match goal with
  | E : forM _ _ _ = Ok _ |- _ =>
      apply keeps_observe_loop in E; destruct E as [E2 _]
  end.
  rewrite E1 in E2. rewrite E2 in *. simplify_eq.
  cbn. rewrite E2. split; [reflexivity | eauto].
Qed.

Lemma ClampPre_layer i l st data st' :
  lays st !! i = Some l ->
  ClampPre i data st = Ok (tt, st') ->
  st' = set_lays
          (<[i := set_preAct (slice (vlen (preAct l)) data)
                    (set_preLin (slice (vlen (preAct l)) data) l)]> (lays st)) st.
Proof.
  intros Hl E. unfold ClampPre, Layer_len in E. minv. cbn in *.
  repeat match goal with
  | E : <[_ := _]> _ !! _ = Some _ |- _ =>
      rewrite (lookup_set_layer _ _ _ _ Hl) in E
  end.
  simplify_eq. cbn. unfold set_lays. cbn. f_equal.
  now rewrite list_insert_insert_eq.
Qed.

Lemma ClampObs_layer i l st data st' :
  lays st !! i = Some l ->
  ClampObs i data st = Ok (tt, st') ->
  st' = set_lays
          (<[i := set_obsAct (slice (vlen (preAct l)) data)
                    (set_obsLin (slice (vlen (preAct l)) data) l)]> (lays st)) st.
Proof.
  intros Hl E. unfold ClampObs, Layer_len in E. minv. cbn in *.
  repeat match goal with
  | E : <[_ := _]> _ !! _ = Some _ |- _ =>
      rewrite (lookup_set_layer _ _ _ _ Hl) in E
  end.
  simplify_eq. cbn. unfold set_lays. cbn. f_equal.
  now rewrite list_insert_insert_eq.
Qed.

Lemma Layer_resetActivity_layer i l st st' :
  lays st !! i = Some l ->
  Layer_resetActivity i st = Ok (tt, st') ->
  exists l', lays st' !! i = Some l' /\
             lengths l' = replicate 4 (vlen (preAct l)).
Proof.
  intros Hl E. unfold Layer_resetActivity, Layer_len in E. minv. cbn in *.
  repeat match goal with
  | E : <[_ := _]> _ !! _ = Some _ |- _ =>
      rewrite list_lookup_insert_eq in E
        by (rewrite ?length_insert; eapply lookup_lt_Some, Hl)
  end.
  simplify_eq. eexists. split.
  - apply list_lookup_insert_eq.
    rewrite ?length_insert. eapply lookup_lt_Some, Hl.
  - cbn. now rewrite !length_replicate.
Qed.


(** ** Learning of a layer *)

(** The matrix a mesh applies: its own, or the transpose of its target's. *)
Definition applied_matrix (st : State) (j : nat) : option (list (list F)) :=
  m ← meshs st !! j;
  match mesh m with
  | None => Some (matrix m)
  | Some t => tm ← meshs st !! t; Some (transpose (matrix tm))
  end.

Lemma Mesh_Update_spec m0 m delta st st' :
  meshs st !! m0 = Some m ->
  Mesh_Update m0 delta st = Ok (tt, st') ->
  bufs st' = bufs st /\ lays st' = lays st /\ stdout st' = stdout st /\
  (forall j, j <> m0 -> meshs st' !! j = meshs st !! j) /\
  match mesh m with
  | Some _ => st' = st
  | None =>
      exists d,
        broadcast (fst (shape (matrix m))) (snd (shape (matrix m)))
          (map (map (mul (rate m))) delta) = Some d /\
        meshs st' !! m0 =
          Some (set_matrix (zip_with (zip_with add) (matrix m) d) m)
  end.
Proof.
  intros Hm E. unfold Mesh_Update in E. minv. simplify_eq.
  destruct (mesh m) eqn:Em.
  - minv. auto.
  - destruct (shape (matrix m)) as [r c] eqn:Es. minv. cbn.
    repeat split; try reflexivity.
    + intros j Hj. now apply list_lookup_insert_ne.
    + eexists. split; [eassumption |].
      apply list_lookup_insert_eq. eapply lookup_lt_Some, Hm.
Qed.

Lemma applied_matrix_frame st st' m0 j mj :
  (forall k, k <> m0 -> meshs st' !! k = meshs st !! k) ->
  j <> m0 -> meshs st !! j = Some mj ->
  (forall t, mesh mj = Some t -> t <> m0) ->
  applied_matrix st' j = applied_matrix st j.
Proof.
  intros Hframe Hj Hmj Ht. unfold applied_matrix.
  rewrite (Hframe j Hj), Hmj. cbn.
  destruct (mesh mj) as [t |]; [| reflexivity].
  now rewrite (Hframe t (Ht t eq_refl)).
Qed.


(** ** setLearningRule *)

Lemma set_rule_idem r l : set_rule r (set_rule r l) = set_rule r l.
Proof. reflexivity. Qed.

(** The loop of [setLearningRule] over all the layers of the net. *)
Lemma set_rule_all r (ls : list nat) st :
  (forall i, i ∈ ls -> is_Some (lays st !! i)) ->
  exists st',
    forM ls (fun i => do l <- getLayer i; setLayer i (set_rule r l)) st
      = Ok (tt, st') /\
    bufs st' = bufs st /\ meshs st' = meshs st /\ stdout st' = stdout st /\
    forall i,
      lays st' !! i =
        if decide (i ∈ ls) then set_rule r <$> lays st !! i else lays st !! i.
Proof.
  revert st. induction ls as [| x ls IH]; intros st Hvalid.
  - exists st. cbn. repeat split; reflexivity.
  - destruct (Hvalid x ltac:(left)) as [l Hl].
    set (st1 := set_lays (<[x := set_rule r l]> (lays st)) st).
    assert (Hvalid1 : forall i, i ∈ ls -> is_Some (lays st1 !! i)).
    { intros i Hi. cbn. destruct (decide (i = x)) as [-> | Hne].
      - rewrite (lookup_set_layer _ _ _ _ Hl). eauto.
      - rewrite list_lookup_insert_ne by congruence. apply Hvalid. now right. }
    destruct (IH st1 Hvalid1) as (st' & E & Hb & Hm & Ho & Hlk).
    exists st'. split.
    { cbn [forM]. unfold sbind at 1.
      rewrite (sbind_eq _ _ _ _ _ (getLayer_eq _ _ _ Hl)).
      unfold setLayer. fold st1. exact E. }
    repeat split; try assumption.
    intros i. rewrite Hlk. cbn.
    destruct (decide (i = x)) as [-> | Hne].
    + rewrite (lookup_set_layer _ _ _ _ Hl), Hl.
      destruct (decide (x ∈ ls)); destruct (decide (x ∈ x :: ls)) as [_ | Hn];
        try reflexivity; exfalso; apply Hn; left.
    + rewrite list_lookup_insert_ne by congruence.
      destruct (decide (i ∈ ls)) as [Hi | Hi];
        destruct (decide (i ∈ x :: ls)) as [Hi' | Hi']; try reflexivity.
      * exfalso. apply Hi'. now right.
      * exfalso. apply Hi. apply elem_of_cons in Hi' as [-> | Hi']; [contradiction | exact Hi'].
Qed.


(** ** What an fbMesh refuses, and the failed application *)

Lemma fbMesh_set_raises i m t args st :
  meshs st !! i = Some m -> mesh m = Some t ->
  exists e, Mesh_set i args st = Raise e.
Proof.
  intros Hm Ht. unfold Mesh_set.
  rewrite (sbind_eq _ _ _ _ _ (getMesh_eq _ _ _ Hm)). rewrite Ht.
  destruct args; eauto.
Qed.

Lemma fbMesh_Update_noop i m t delta st :
  meshs st !! i = Some m -> mesh m = Some t ->
  Mesh_Update i delta st = Ok (tt, st).
Proof.
  intros Hm Ht. unfold Mesh_Update.
  rewrite (sbind_eq _ _ _ _ _ (getMesh_eq _ _ _ Hm)). now rewrite Ht.
Qed.

Lemma apply_matrix_mismatch X data st :
  snd (shape X) <> vlen data ->
  apply_matrix X data st =
    Ok (None,
        {| bufs := bufs st; lays := lays st; meshs := meshs st;
           stdout := stdout st ++
             [AttemptedToApply (read (bufs st) data) (vlen data) X] |}).
Proof.
  intros Hne. unfold apply_matrix, sbind, readV.
  rewrite length_read.
  destruct (Nat.eqb_spec (snd (shape X)) (vlen data)) as [E | _];
    [contradiction | reflexivity].
Qed.

Lemma apply_matrix_match X data st :
  snd (shape X) = vlen data ->
  apply_matrix X data st = Ok (Some (matvec X (read (bufs st) data)), st).
Proof.
  intros He. unfold apply_matrix, sbind, readV.
  rewrite length_read, He, Nat.eqb_refl. reflexivity.
Qed.

Lemma Mesh_apply_mismatch i X data st :
  applied_matrix st i = Some X ->
  snd (shape X) <> vlen data ->
  Mesh_apply i data st =
    Ok (None,
        {| bufs := bufs st; lays := lays st; meshs := meshs st;
           stdout := stdout st ++
             [AttemptedToApply (read (bufs st) data) (vlen data) X] |}).
Proof.
  intros HX Hne. unfold applied_matrix in HX. unfold Mesh_apply.
  destruct (meshs st !! i) as [m |] eqn:Hm; [| discriminate]. cbn in HX.
  rewrite (sbind_eq _ _ _ _ _ (getMesh_eq _ _ _ Hm)).
  destruct (mesh m) as [t |].
  - destruct (meshs st !! t) as [tm |] eqn:Htm; [| discriminate].
    cbn in HX. injection HX as <-.
    rewrite (sbind_eq _ _ _ _ _ (getMesh_eq _ _ _ Htm)).
    now apply apply_matrix_mismatch.
  - injection HX as <-. now apply apply_matrix_mismatch.
Qed.

(** ** The series [Learn] returns *)

Lemma Learn_epochs_results net inData outData numTimeSteps cols verbose reset
    numEpochs epoch lastResult epochResults results st res st' :
  Learn_epochs net inData outData numTimeSteps cols verbose reset numEpochs
    epoch lastResult epochResults results st = Ok (res, st') ->
  length res = length results /\ res !! 0 = results !! 0.
Proof.
  revert epoch lastResult epochResults results st.
  induction numEpochs as [| n IH]; intros epoch lastResult epochResults results st E.
  - cbn in E. minv. auto.
  - cbn in E. minv_cases.
    all: match goal with
    | E : Learn_epochs _ _ _ _ _ _ _ _ _ _ _ _ _ = Ok _ |- _ =>
        apply IH in E; destruct E as [E1 E2]
    end.
    all: rewrite E1, E2, length_insert; (split; [reflexivity |]).
    all: now apply list_lookup_insert_ne.
Qed.

(** When [Learn] returns, the series has [numEpochs + 1] entries and the
    first is what [Evaluate] gives on the net as it is at the call. *)
Lemma Learn_series net inData outData numTimeSteps numEpochs verbose reset
    st res st' :
  Learn net inData outData numTimeSteps numEpochs verbose reset st
    = Ok (res, st') ->
  length res = numEpochs + 1 /\
  exists r0 st1,
    Evaluate net inData outData numTimeSteps st = Ok (r0, st1) /\
    res !! 0 = Some r0.
Proof.
  unfold Learn. intros E.
  apply sbind_Ok in E as (r0 & st1 & E0 & E). minv.
  match goal with
  | E : Learn_epochs _ _ _ _ _ _ _ _ _ _ _ _ _ = Ok _ |- _ =>
      apply Learn_epochs_results in E; destruct E as [E1 E2]
  end.
  rewrite length_insert, length_replicate in E1. split; [exact E1 |].
  exists r0, st1. split; [exact E0 |].
  rewrite E2. apply list_lookup_insert_eq. rewrite length_replicate. lia.
Qed.

(** ** More on [Learn], [Infer] and the phases *)

(** X10: when [Learn] returns, the series has [numEpochs + 1] entries and
    its first entry is what [Evaluate] returns on the net as it is when
    [Learn] is called, before any [Update]. *)
Theorem X10_Learn_series (net : Net) (inData outData : array2)
    (numTimeSteps numEpochs : nat) (verbose reset : bool)
    (st : State) (res : list F) (st' : State) :
  Learn net inData outData numTimeSteps numEpochs verbose reset st
    = Ok (res, st') ->
  length res = numEpochs + 1 /\
  exists r0 st1,
    Evaluate net inData outData numTimeSteps st = Ok (r0, st1) /\
    res !! 0 = Some r0.
Proof. apply Learn_series. Qed.

(** X11: with [numTimeSteps = 0] and at least one row of input, [Infer],
    [Evaluate] and [Learn] raise [UnboundLocalError]: the variable that
    only the loop over the time steps assigns is read unassigned. Without
    any row, [Infer] returns the empty batch. *)
Theorem X11_zero_time_steps (net : Net) (inData outData : array2)
    (numEpochs : nat) (verbose reset : bool) (st : State) :
  (0 < arows inData ->
   Infer net inData 0 st = Raise UnboundLocalError /\
   Evaluate net inData outData 0 st = Raise UnboundLocalError /\
   Learn net inData outData 0 numEpochs verbose reset st
     = Raise UnboundLocalError) /\
  (arows inData = 0 -> forall n, Infer net inData n st = Ok ([], st)).
Proof.
  split.
  - intros Hrows.
    assert (E : Infer net inData 0 st = Raise UnboundLocalError).
    { unfold Infer, rows. destruct (arows inData) as [| k]; [lia |].
      reflexivity. }
    split; [exact E |].
    assert (E2 : Evaluate net inData outData 0 st = Raise UnboundLocalError).
    { unfold Evaluate, sbind. now rewrite E. }
    split; [exact E2 |].
    unfold Learn, sbind at 1. now rewrite E2.
  - intros Hrows n. unfold Infer, rows. rewrite Hrows. reflexivity.
Qed.

(** The weights: no Mesh object changes. *)
Definition same_meshs (s s' : State) : Prop := meshs s' = meshs s.

Lemma same_meshs_refl st : same_meshs st st.
Proof. reflexivity. Qed.

Lemma same_meshs_trans s1 s2 s3 :
  same_meshs s1 s2 -> same_meshs s2 s3 -> same_meshs s1 s3.
Proof. unfold same_meshs. congruence. Qed.

Lemma sm_bind {A B} (m : M A) (k : A -> M B) :
  keeps same_meshs m -> (forall a, keeps same_meshs (k a)) ->
  keeps same_meshs (sbind m k).
Proof. apply keeps_bind. exact same_meshs_trans. Qed.

Lemma sm_ret {A} (a : A) : keeps same_meshs (ret a).
Proof. apply keeps_ret. exact same_meshs_refl. Qed.

Lemma sm_lift {A} e (o : option A) : keeps same_meshs (lift e o).
Proof. apply keeps_lift. exact same_meshs_refl. Qed.

Lemma sm_forM {A} (l : list A) (f : A -> M unit) :
  (forall x, keeps same_meshs (f x)) -> keeps same_meshs (forM l f).
Proof. apply keeps_forM; [exact same_meshs_refl | exact same_meshs_trans]. Qed.

Lemma sm_repeatM {A} n (body : M A) x :
  keeps same_meshs body -> keeps same_meshs (repeatM n body x).
Proof. apply keeps_repeatM; [exact same_meshs_refl | exact same_meshs_trans]. Qed.

Lemma sm_of_same_objects {A} (m : M A) :
  keeps same_objects m -> keeps same_meshs m.
Proof. intros Hk st a st' E. exact (proj2 (Hk st a st' E)). Qed.

Lemma sm_setLayer i l : keeps same_meshs (setLayer i l).
Proof. intros st a st' E. minv. reflexivity. Qed.

Create HintDb meshs.
Local Hint Resolve sm_ret sm_lift sm_setLayer : meshs.
Local Hint Extern 1 (keeps same_meshs _) =>
  apply sm_of_same_objects; solve [auto with keeps] : meshs.

Ltac meshs_auto :=
  repeat first
    [ match goal with |- forall _, _ => intro end
    | solve [auto with meshs]
    | apply sm_forM
    | apply sm_repeatM
    | apply sm_bind ].

Lemma sm_Layer_Predict i : keeps same_meshs (Layer_Predict i).
Proof.
  unfold Layer_Predict. apply sm_bind; [meshs_auto |]. intros l.
  apply sm_bind; [meshs_auto |]. intros x.
  apply sm_bind; [meshs_auto |]. intros _.
  apply sm_bind; [apply sm_of_same_objects, keeps_predict_loop |]. intros _.
  meshs_auto.
Qed.

Lemma sm_Layer_Observe i : keeps same_meshs (Layer_Observe i).
Proof.
  unfold Layer_Observe. apply sm_bind; [meshs_auto |]. intros l.
  apply sm_bind; [meshs_auto |]. intros x.
  apply sm_bind; [meshs_auto |]. intros _.
  apply sm_bind; [apply sm_of_same_objects, keeps_observe_loop |]. intros _.
  meshs_auto.
Qed.

Lemma sm_ClampPre i data : keeps same_meshs (ClampPre i data).
Proof. unfold ClampPre. meshs_auto. Qed.

Lemma sm_ClampObs i data : keeps same_meshs (ClampObs i data).
Proof. unfold ClampObs. meshs_auto. Qed.

Lemma sm_Predict net data : keeps same_meshs (Predict net data).
Proof.
  unfold Predict, first_of, last_of.
  apply sm_bind; [meshs_auto |]. intros l0.
  apply sm_bind; [apply sm_ClampPre |]. intros _.
  apply sm_bind.
  - apply sm_forM. intros i. apply sm_bind; [apply sm_Layer_Predict | meshs_auto].
  - intros _. apply sm_bind; [meshs_auto |]. intros ln. apply sm_Layer_Predict.
Qed.

Lemma sm_Observe net inData outData : keeps same_meshs (Observe net inData outData).
Proof.
  unfold Observe, first_of, last_of.
  apply sm_bind; [meshs_auto |]. intros l0.
  apply sm_bind; [apply sm_ClampObs |]. intros _.
  apply sm_bind; [meshs_auto |]. intros ln.
  apply sm_bind; [apply sm_ClampObs |]. intros _.
  apply sm_forM. intros i. apply sm_bind; [apply sm_Layer_Observe | meshs_auto].
Qed.

Lemma sm_Infer_loop net numTimeSteps cols data index result outputData :
  keeps same_meshs
    (Infer_loop net numTimeSteps cols data index result outputData).
Proof.
  revert index result outputData.
  induction data as [| inDatum data IH]; intros index result outputData; cbn.
  - apply sm_ret.
  - apply sm_bind; [apply sm_repeatM, sm_Predict |]. intros r.
    apply sm_bind; [meshs_auto |]. intros v.
    apply sm_bind; [meshs_auto |]. intros x.
    apply sm_bind; [unfold set_row; meshs_auto |]. intros out'.
    apply IH.
Qed.

(** X12: the predict and observe phases never change a weight: when
    [Predict], [Observe], [Infer] or [Evaluate] returns, every Mesh object
    of the store is as it was. *)
Theorem X12_inference_keeps_weights (net : Net) (st st' : State) :
  (forall data v, Predict net data st = Ok (v, st') -> meshs st' = meshs st) /\
  (forall inData outData,
     Observe net inData outData st = Ok (tt, st') -> meshs st' = meshs st) /\
  (forall inData n out,
     Infer net inData n st = Ok (out, st') -> meshs st' = meshs st) /\
  (forall inData outData n r,
     Evaluate net inData outData n st = Ok (r, st') -> meshs st' = meshs st).
Proof.
  split; [intros data v E; exact (sm_Predict net data st v st' E) |].
  split; [intros inData outData E;
          exact (sm_Observe net inData outData st tt st' E) |].
  split.
  - intros inData n out E. exact (sm_Infer_loop _ _ _ _ _ _ _ st out st' E).
  - intros inData outData n r E. unfold Evaluate in E. minv.
    match goal with
    | E : Infer _ _ _ _ = Ok _ |- _ =>
        exact (sm_Infer_loop _ _ _ _ _ _ _ _ _ _ E)
    end.
Qed.

(** ** Freezing *)

(** X13: after [Freeze], [Learn] of the layer returns with the state as
    it is, whatever the layer owns; [Unfreeze] after [Freeze] gives back
    the state of a layer that was not frozen. *)
Theorem X13_Freeze_stops_Learn (i : nat) (l : Layer) (st : State) :
  lays st !! i = Some l ->
  exists st1,
    Freeze i st = Ok (tt, st1) /\
    Layer_Learn i st1 = Ok (tt, st1) /\
    (freeze l = false -> Unfreeze i st1 = Ok (tt, st)).
Proof.
  intros Hl.
  set (st1 := set_lays (<[i := set_freeze true l]> (lays st)) st).
  assert (Hl1 : lays st1 !! i = Some (set_freeze true l))
    by (cbn; eapply lookup_set_layer, Hl).
  exists st1. split; [| split].
  - unfold Freeze. now rewrite (sbind_eq _ _ _ _ _ (getLayer_eq _ _ _ Hl)).
  - unfold Layer_Learn. rewrite (sbind_eq _ _ _ _ _ (getLayer_eq _ _ _ Hl1)).
    cbn. now rewrite Bool.orb_true_r.
  - intros Hf. unfold Unfreeze.
    rewrite (sbind_eq _ _ _ _ _ (getLayer_eq _ _ _ Hl1)).
    unfold setLayer, st1, set_lays. cbn. do 2 f_equal.
    rewrite list_insert_insert_eq.
    destruct st as [b ls ms out]. cbn in *. f_equal.
    apply list_insert_id. rewrite Hl. f_equal.
    destruct l. cbn in *. now subst.
Qed.

(** ** [Update] and [apply] of a Mesh *)


(** X15: applying a mesh to a vector as long as the matrix has columns
    returns the product and leaves the whole state as it is: nothing is
    printed. *)
Theorem X15_Mesh_apply_product (i : nat) (X : list (list F)) (data : view)
    (st : State) :
  applied_matrix st i = Some X ->
  snd (shape X) = vlen data ->
  Mesh_apply i data st = Ok (Some (matvec X (read (bufs st) data)), st).
Proof.
  intros HX He. unfold applied_matrix in HX. unfold Mesh_apply.
  destruct (meshs st !! i) as [m |] eqn:Hm; [| discriminate]. cbn in HX.
  rewrite (sbind_eq _ _ _ _ _ (getMesh_eq _ _ _ Hm)).
  destruct (mesh m) as [t |].
  - destruct (meshs st !! t) as [tm |] eqn:Htm; [| discriminate].
    cbn in HX. injection HX as <-.
    rewrite (sbind_eq _ _ _ _ _ (getMesh_eq _ _ _ Htm)).
    now apply apply_matrix_match.
  - injection HX as <-. now apply apply_matrix_match.
Qed.

(** ** Reading and writing through views *)

Lemma length_write_at (vals buf : list F) o :
  length (write_at buf o vals) = length buf.
Proof.
  revert buf o. induction vals as [| x vals IH]; intros buf o; cbn.
  - reflexivity.
  - now rewrite IH, length_insert.
Qed.

Lemma lookup_write_at (vals buf : list F) o k :
  o + length vals <= length buf ->
  write_at buf o vals !! k =
    if bool_decide (o <= k < o + length vals) then vals !! (k - o)
    else buf !! k.
Proof.
  revert buf o. induction vals as [| x vals IH]; intros buf o Hb; cbn in *.
  - rewrite bool_decide_eq_false_2 by lia. reflexivity.
  - rewrite IH by (rewrite length_insert; lia).
    destruct (decide (k = o)) as [-> | Hk].
    + rewrite bool_decide_eq_false_2 by lia.
      rewrite bool_decide_eq_true_2 by lia.
      rewrite list_lookup_insert_eq by lia. now rewrite Nat.sub_diag.
    + rewrite list_lookup_insert_ne by congruence.
      destruct (decide (S o <= k < S o + length vals)) as [Hin | Hout].
      * rewrite !bool_decide_eq_true_2 by lia.
        replace (k - o) with (S (k - S o)) by lia. reflexivity.
      * rewrite !bool_decide_eq_false_2 by lia. reflexivity.
Qed.

Lemma map_seq_eq {A} (f : nat -> A) (vals : list A) s :
  (forall k, k < length vals -> vals !! k = Some (f (s + k))) ->
  map f (seq s (length vals)) = vals.
Proof.
  revert s. induction vals as [| x vals IH]; intros s Hk; cbn.
  - reflexivity.
  - f_equal.
    + specialize (Hk 0 ltac:(cbn; lia)). cbn in Hk. rewrite Nat.add_0_r in Hk.
      congruence.
    + apply IH. intros k Hlt. specialize (Hk (S k) ltac:(cbn; lia)).
      cbn in Hk. now replace (S s + k) with (s + S k) by lia.
Qed.

Lemma read_eq bs v (vals : list F) :
  length vals = vlen v ->
  (forall k, k < vlen v -> vals !! k = Some (cell bs (vbase v) (voff v + k))) ->
  read bs v = vals.
Proof.
  intros Hlen Hk. unfold read. rewrite <- Hlen.
  apply (map_seq_eq (fun k => cell bs (vbase v) (voff v + k)) vals 0).
  intros k Hlt. apply Hk. lia.
Qed.

Lemma lookup_write bs v buf (vals : list F) :
  bs !! vbase v = Some buf ->
  write bs v vals !! vbase v
    = Some (write_at buf (voff v) (take (vlen v) vals)).
Proof.
  intros Hbuf. unfold write. rewrite Hbuf.
  apply list_lookup_insert_eq. eapply lookup_lt_Some, Hbuf.
Qed.

(** Writing a whole view and reading it back. *)
Lemma read_write_same bs v buf (vals : list F) :
  bs !! vbase v = Some buf -> voff v + vlen v <= length buf ->
  length vals = vlen v ->
  read (write bs v vals) v = vals.
Proof.
  intros Hbuf Hb Hlen. apply read_eq; [exact Hlen |]. intros k Hk.
  unfold cell. rewrite (lookup_write _ _ _ _ Hbuf).
  rewrite firstn_all2 by lia.
  rewrite lookup_write_at by lia.
  rewrite bool_decide_eq_true_2 by lia.
  replace (voff v + k - voff v) with k by lia.
  destruct (vals !! k) as [x |] eqn:E; [reflexivity |].
  apply lookup_ge_None in E. lia.
Qed.

(** A write does not reach an array on another buffer. *)
Lemma read_write_other bs v v' (vals : list F) :
  vbase v' <> vbase v -> read (write bs v vals) v' = read bs v'.
Proof.
  intros Hne. unfold read. apply map_ext. intros k. unfold cell, write.
  destruct (bs !! vbase v); [| reflexivity].
  unfold buffers in *. now rewrite list_lookup_insert_ne by congruence.
Qed.

Lemma lookup_write_some bs v buf (vals : list F) :
  bs !! vbase v = Some buf ->
  exists buf', write bs v vals !! vbase v = Some buf' /\
               length buf' = length buf.
Proof.
  intros Hbuf. eexists. split; [apply (lookup_write _ _ _ _ Hbuf) |].
  apply length_write_at.
Qed.

(** A new array does not change what an existing one reads. *)
Lemma read_app bs bs' v :
  vbase v < length bs -> read (bs ++ bs') v = read bs v.
Proof.
  intros Hlt. unfold read. apply map_ext. intros k. unfold cell.
  unfold buffers in *. now rewrite lookup_app_l.
Qed.

Lemma read_new bs (vals : list F) :
  read (bs ++ [vals]) {| vbase := length bs; voff := 0; vlen := length vals |}
    = vals.
Proof.
  apply read_eq; [reflexivity |]. cbn. intros k Hk. unfold cell.
  unfold buffers in *. rewrite list_lookup_middle by reflexivity.
  destruct (vals !! k) as [x |] eqn:E; [reflexivity |].
  apply lookup_ge_None in E. lia.
Qed.

(** ** [resetActivity] of a layer *)

Lemma Layer_len_eq i l st :
  lays st !! i = Some l -> Layer_len i st = Ok (vlen (preAct l), st).
Proof.
  intros Hl. unfold Layer_len.
  now rewrite (sbind_eq _ _ _ _ _ (getLayer_eq _ _ _ Hl)).
Qed.

(** One step of a sequence of calls on the layer [i], known by [Hl]. *)
Ltac layer_step Hl :=
  first
    [ erewrite sbind_eq by reflexivity
    | erewrite sbind_eq by
        (first [apply Layer_len_eq | apply getLayer_eq]; cbn;
         first [exact Hl
               | rewrite ?list_insert_insert_eq; eapply lookup_set_layer, Hl]) ].

Definition fresh_view (st : State) (k n : nat) : view :=
  {| vbase := length (bufs st) + k; voff := 0; vlen := n |}.

Lemma Layer_resetActivity_eq i l st :
  lays st !! i = Some l ->
  let n := vlen (preAct l) in
  let z := replicate n zero in
  Layer_resetActivity i st =
    Ok (tt,
        {| bufs := bufs st ++ [z; z; z; z];
           lays := <[i := {| preLin := fresh_view st 0 n;
                             preAct := fresh_view st 1 n;
                             obsLin := fresh_view st 2 n;
                             obsAct := fresh_view st 3 n;
                             act := act l; rule := rule l; meshes := meshes l;
                             isInput := isInput l; freeze := freeze l |}]>
                     (lays st);
           meshs := meshs st; stdout := stdout st |}).
Proof.
  intros Hl n z. unfold Layer_resetActivity.
  do 12 layer_step Hl. unfold setLayer, fresh_view. cbn.
  rewrite !list_insert_insert_eq, !length_app, !length_replicate. cbn.
  rewrite <- !app_assoc. cbn.
  unfold set_lays, set_bufs, set_obsAct, set_obsLin, set_preAct, set_preLin.
  cbn. rewrite Nat.add_0_r.
  replace (length (bufs st) + 1 + 1 + 1) with (length (bufs st) + 3) by lia.
  replace (length (bufs st) + 1 + 1) with (length (bufs st) + 2) by lia.
  reflexivity.
Qed.

Lemma read_fresh_view st (z : list F) (pre post : list (list F)) k :
  length pre = k ->
  read (bufs st ++ pre ++ z :: post) (fresh_view st k (length z)) = z.
Proof.
  intros Hk. apply read_eq; [reflexivity |]. cbn. intros j Hj. unfold cell.
  unfold buffers in *.
  rewrite lookup_app_r by lia.
  replace (length (bufs st) + k - length (bufs st)) with (length pre) by lia.
  rewrite list_lookup_middle by reflexivity.
  destruct (z !! j) as [x |] eqn:E; [reflexivity |].
  apply lookup_ge_None in E. lia.
Qed.

(** X16: [resetActivity] of a layer returns with the four vectors of the
    layer being four new arrays, no two of them the same array, each of
    the length the layer had and all zeros; no existing array is written,
    so data a vector was a view of keeps its entries; the other attributes
    of the layer, the other layers and the meshes are as before. *)
Theorem X16_resetActivity_fresh_zeros (i : nat) (l : Layer) (st : State) :
  lays st !! i = Some l ->
  exists l' st',
    Layer_resetActivity i st = Ok (tt, st') /\
    lays st' = <[i := l']> (lays st) /\ meshs st' = meshs st /\
    stdout st' = stdout st /\
    Forall (fun v => read (bufs st') v = replicate (vlen (preAct l)) zero /\
                     length (bufs st) <= vbase v)
      [preLin l'; preAct l'; obsLin l'; obsAct l'] /\
    NoDup (map vbase [preLin l'; preAct l'; obsLin l'; obsAct l']) /\
    (forall v, vbase v < length (bufs st) ->
               read (bufs st') v = read (bufs st) v) /\
    (act l', rule l', meshes l', isInput l', freeze l')
      = (act l, rule l, meshes l, isInput l, freeze l).
Proof.
  intros Hl. eexists _, _. split; [apply (Layer_resetActivity_eq _ _ _ Hl) |].
  cbn [lays meshs stdout bufs preLin preAct obsLin obsAct act rule meshes
       isInput freeze].
  do 3 (split; [reflexivity |]).
  set (z := replicate (vlen (preAct l)) zero).
  assert (Hz : length z = vlen (preAct l)) by apply length_replicate.
  split; [| split; [| split; [| reflexivity]]].
  - rewrite <- Hz. cbn.
    repeat (apply Forall_cons_2; [split; [| unfold fresh_view; cbn; lia] |]);
      [| | | | apply Forall_nil_2].
    + apply (read_fresh_view st z [] [z; z; z]). reflexivity.
    + apply (read_fresh_view st z [z] [z; z]). reflexivity.
    + apply (read_fresh_view st z [z; z] [z]). reflexivity.
    + apply (read_fresh_view st z [z; z; z] []). reflexivity.
  - unfold fresh_view; cbn.
    repeat constructor; rewrite ?elem_of_cons, ?elem_of_nil; lia.
  - intros v Hv. now apply read_app.
Qed.

(** ** Clamping and the in-place copies *)

Lemma assign_eq dst (src : list F) st :
  length src = vlen dst ->
  assign dst src st = Ok (tt, set_bufs (write (bufs st) dst src) st).
Proof. intros Hlen. unfold assign, bcast. now rewrite Hlen, Nat.eqb_refl. Qed.

Lemma ClampObs_eq i l data st :
  lays st !! i = Some l ->
  let v := slice (vlen (preAct l)) data in
  ClampObs i data st =
    Ok (tt, set_lays (<[i := set_obsAct v (set_obsLin v l)]> (lays st)) st).
Proof.
  intros Hl v. unfold ClampObs. do 5 layer_step Hl.
  unfold setLayer. cbn. now rewrite list_insert_insert_eq.
Qed.

Lemma copy_pre_to_obs_eq i l st :
  lays st !! i = Some l ->
  vlen (preLin l) = vlen (obsLin l) -> vlen (preAct l) = vlen (obsAct l) ->
  let bs1 := write (bufs st) (obsLin l) (read (bufs st) (preLin l)) in
  copy_pre_to_obs i st =
    Ok (tt, set_bufs (write bs1 (obsAct l) (read bs1 (preAct l))) st).
Proof.
  intros Hl H1 H2 bs1. unfold copy_pre_to_obs.
  do 2 layer_step Hl.
  erewrite sbind_eq by (apply assign_eq; now rewrite length_read).
  do 2 layer_step Hl.
  rewrite assign_eq by now rewrite length_read.
  reflexivity.
Qed.

(** X17: the copy [obsLin[:] = preLin; obsAct[:] = preAct] after a
    [ClampObs(data)] writes into [data]: the clamped vectors are views of
    the array of the caller, which then holds the entries of [preAct]. *)
Theorem X17_copy_writes_clamped_data (i : nat) (l : Layer) (data : view)
    (buf : list F) (st : State) :
  lays st !! i = Some l ->
  bufs st !! vbase data = Some buf ->
  voff data + vlen data <= length buf ->
  vlen (preAct l) <= vlen data ->
  vlen (preLin l) = vlen (preAct l) ->
  vbase (preAct l) <> vbase data ->
  exists st',
    (ClampObs i data ;; copy_pre_to_obs i) st = Ok (tt, st') /\
    read (bufs st') (slice (vlen (preAct l)) data)
      = read (bufs st) (preAct l).
Proof.
  intros Hl Hbuf Hb Hn Hlin Hne.
  set (v := slice (vlen (preAct l)) data).
  assert (Hv : vlen v = vlen (preAct l)) by (cbn; lia).
  set (l1 := set_obsAct v (set_obsLin v l)).
  set (st1 := set_lays (<[i := l1]> (lays st)) st).
  assert (Hl1 : lays st1 !! i = Some l1)
    by (cbn; eapply lookup_set_layer, Hl).
  eexists. split.
  - erewrite sbind_eq by (apply (ClampObs_eq _ _ _ _ Hl)).
    apply (copy_pre_to_obs_eq i l1 st1 Hl1); cbn; lia.
  - cbn [bufs set_bufs]. cbn [obsLin obsAct preLin preAct l1 set_obsAct set_obsLin].
    change (bufs st1) with (bufs st).
    set (bs1 := write (bufs st) v (read (bufs st) (preLin l))).
    assert (E : read bs1 (preAct l) = read (bufs st) (preAct l))
      by (apply read_write_other; exact Hne).
    rewrite E.
    destruct (lookup_write_some (bufs st) v buf (read (bufs st) (preLin l)) Hbuf)
      as (buf1 & Hbuf1 & Hlen1).
    apply (read_write_same bs1 v buf1); [exact Hbuf1 | | ].
    + rewrite Hlen1. cbn. lia.
    + now rewrite length_read.
Qed.

(** ** A failed application inside a phase, and the mesh [Net] builds *)

Lemma sbind_raise {A B} (m : M A) (k : A -> M B) st e :
  m st = Raise e -> sbind m k st = Raise e.
Proof. unfold sbind. now intros ->. Qed.

Lemma isub_eq dst (src : list F) st :
  length src = vlen dst ->
  isub dst src st =
    Ok (tt, set_bufs (write (bufs st) dst
                        (zip_with sub (read (bufs st) dst) src)) st).
Proof.
  intros Hlen. unfold isub. erewrite sbind_eq by reflexivity.
  assert (Eb : bcast (vlen dst) src = Some src)
    by (unfold bcast; now rewrite Hlen, Nat.eqb_refl).
  rewrite Eb. erewrite sbind_eq by reflexivity.
  apply assign_eq. rewrite length_zip_with, length_read. lia.
Qed.

Definition printed (d : Diag) (st : State) : State :=
  {| bufs := bufs st; lays := lays st; meshs := meshs st;
     stdout := stdout st ++ [d] |}.

Lemma Mesh_Predict_mismatch mid m lin X st :
  meshs st !! mid = Some m -> lays st !! inLayer m = Some lin ->
  applied_matrix st mid = Some X -> snd (shape X) <> vlen (preAct lin) ->
  Mesh_Predict mid st =
    Ok (None, printed (AttemptedToApply (read (bufs st) (preAct lin))
                         (vlen (preAct lin)) X) st).
Proof.
  intros Hm Hlin HX Hne. unfold Mesh_Predict.
  rewrite (sbind_eq _ _ _ _ _ (getMesh_eq _ _ _ Hm)).
  rewrite (sbind_eq _ _ _ _ _ (getLayer_eq _ _ _ Hlin)).
  now apply Mesh_apply_mismatch.
Qed.

Lemma Mesh_Observe_mismatch mid m lin X st :
  meshs st !! mid = Some m -> lays st !! inLayer m = Some lin ->
  applied_matrix st mid = Some X -> snd (shape X) <> vlen (obsAct lin) ->
  Mesh_Observe mid st =
    Ok (None, printed (AttemptedToApply (read (bufs st) (obsAct lin))
                         (vlen (obsAct lin)) X) st).
Proof.
  intros Hm Hlin HX Hne. unfold Mesh_Observe.
  rewrite (sbind_eq _ _ _ _ _ (getMesh_eq _ _ _ Hm)).
  rewrite (sbind_eq _ _ _ _ _ (getLayer_eq _ _ _ Hlin)).
  now apply Mesh_apply_mismatch.
Qed.

(** X18: when the matrix the first mesh of a layer applies has not as many
    columns as the sending layer has units, [Predict] and [Observe] of the
    layer raise [TypeError]: the application prints and returns [None],
    and [None] is then sliced. *)
Theorem X18_failed_application_TypeError (i mid : nat) (l lin : Layer)
    (rest : list nat) (m : Mesh) (X : list (list F)) (st : State) :
  lays st !! i = Some l -> meshes l = mid :: rest ->
  meshs st !! mid = Some m -> lays st !! inLayer m = Some lin ->
  applied_matrix st mid = Some X ->
  (snd (shape X) <> vlen (preAct lin) ->
   Layer_Predict i st = Raise TypeError) /\
  (snd (shape X) <> vlen (obsAct lin) ->
   Layer_Observe i st = Raise TypeError).
Proof.
  intros Hl Hms Hm Hlin HX. split; intros Hne.
  - unfold Layer_Predict. do 2 layer_step Hl.
    erewrite sbind_eq
      by (apply isub_eq; now rewrite length_map, length_read).
    rewrite Hms. cbn [forM]. do 2 apply sbind_raise.
    erewrite sbind_eq
      by (apply (Mesh_Predict_mismatch mid m lin X); assumption).
    layer_step Hl. reflexivity.
  - unfold Layer_Observe. do 2 layer_step Hl.
    erewrite sbind_eq
      by (apply isub_eq; now rewrite length_map, length_read).
    rewrite Hms. cbn [forM]. do 2 apply sbind_raise.
    erewrite sbind_eq
      by (apply (Mesh_Observe_mismatch mid m lin X); assumption).
    layer_step Hl. reflexivity.
Qed.

Lemma shape_eye k : shape (eye k) = (k, k).
Proof.
  unfold shape, eye. rewrite length_map, length_seq.
  destruct k; cbn; [reflexivity |]. now rewrite !length_map, !length_seq.
Qed.

(** X19: [Mesh(size, inLayer)] stores the identity of
    [max(size, len(inLayer))] rows and columns and changes no layer and no
    array. Its [Predict] returns the product when [size <= len(inLayer)];
    when [size] is larger, the matrix has more columns than the sending
    layer has units and [Predict] prints and returns [None]. *)
Theorem X19_new_Mesh_identity (sz inl : nat) (learningRate : F) (lin : Layer)
    (st : State) :
  lays st !! inl = Some lin ->
  let n := vlen (preAct lin) in
  let k := length (meshs st) in
  exists st',
    new_Mesh sz inl learningRate st = Ok (k, st') /\
    bufs st' = bufs st /\ lays st' = lays st /\
    applied_matrix st' k = Some (eye (Nat.max sz n)) /\
    (sz <= n ->
     Mesh_Predict k st'
       = Ok (Some (matvec (eye n) (read (bufs st) (preAct lin))), st')) /\
    (n < sz ->
     Mesh_Predict k st'
       = Ok (None, printed (AttemptedToApply (read (bufs st) (preAct lin)) n
                              (eye sz)) st')).
Proof.
  intros Hlin n k.
  set (size' := if n <? sz then sz else n).
  assert (Hsize : size' = Nat.max sz n)
    by (unfold size'; destruct (Nat.ltb_spec n sz); lia).
  set (m' := {| size := size'; matrix := eye size'; inLayer := inl;
                rate := learningRate; mesh := None |}).
  set (st' := set_meshs (meshs st ++ [m']) st).
  assert (Hm' : meshs st' !! k = Some m')
    by (cbn; now apply list_lookup_middle).
  assert (HX : applied_matrix st' k = Some (eye size'))
    by (unfold applied_matrix; now rewrite Hm').
  assert (Hlin' : lays st' !! inl = Some lin) by exact Hlin.
  exists st'. split.
  { unfold new_Mesh. now rewrite (sbind_eq _ _ _ _ _ (getLayer_eq _ _ _ Hlin)). }
  split; [reflexivity |]. split; [reflexivity |].
  split; [now rewrite <- Hsize |]. split.
  - intros Hle. assert (Es : size' = n) by lia.
    unfold Mesh_Predict.
    rewrite (sbind_eq _ _ _ _ _ (getMesh_eq _ _ _ Hm')).
    rewrite (sbind_eq _ _ _ _ _ (getLayer_eq _ _ _ Hlin')).
    unfold Mesh_apply.
    rewrite (sbind_eq _ _ _ _ _ (getMesh_eq _ _ _ Hm')). cbn [mesh m' matrix].
    rewrite Es. change (bufs st) with (bufs st').
    apply apply_matrix_match. now rewrite shape_eye.
  - intros Hlt. assert (Es : size' = sz) by lia.
    rewrite Es in HX. change (bufs st) with (bufs st').
    apply (Mesh_Predict_mismatch k m' lin (eye sz) st' Hm' Hlin' HX).
    rewrite shape_eye. cbn. fold n. lia.
Qed.
End Model.

Notation "'do' x '<-' m ';' k" := (sbind m (fun x => k))
  (at level 10, x pattern, m at level 100, k at level 200).
Notation "m ';;' k" := (sbind m (fun _ => k))
  (at level 100, k at level 200, right associativity).

(** ** Evaluation on rationals *)

#[global] Instance Q_Scalar : Scalar Q := {|
  zero := 0%Q;
  one := 1%Q;
  add := fun x y => Qred (x + y)%Q;
  sub := fun x y => Qred (x - y)%Q;
  mul := fun x y => Qred (x * y)%Q;
  DELTA_TIME := (1 # 10)%Q;
  default_rate := (1 # 2)%Q
|}.

Definition empty_state : State (F := Q) :=
  {| bufs := []; lays := []; meshs := []; stdout := [] |}.

(** [np.array(X)] for a 2-D list of [r] rows and [c] columns. *)
Definition new_array2 (r c : nat) (X : list (list Q)) : M (F := Q) array2 :=
  fun st =>
    Ok ({| abase := length (bufs st); arows := r; acols := c |},
        set_bufs (bufs st ++ [concat X]) st).

(** An activation that halves, the contrastive Hebbian rule and the sum of
    the squared errors as the metric. *)
Definition halve (x : list Q) : list Q := map (mul (1 # 2)%Q) x.

Definition outer (u v : list Q) : list (list Q) :=
  map (fun a => map (fun b => mul a b) v) u.

Definition contrastive : Rule (F := Q) :=
  fun a_in a_self =>
    zip_with (zip_with sub)
      (outer (a_obsAct a_self) (a_obsAct a_in))
      (outer (a_preAct a_self) (a_preAct a_in)).

Definition squared_error (X Y : list (list Q)) : Q :=
  sum (zip_with (fun x y => mul (sub x y) (sub x y)) (concat X) (concat Y)).

(** One sample, an input layer and an output layer of one unit each, one
    time step per phase, two epochs. *)
Definition learn_scenario : M (F := Q) (list Q * list (list Q)) :=
  do inData <- new_array2 1 1 [[1%Q]];
  do outData <- new_array2 1 1 [[(1 # 2)%Q]];
  do l0 <- new_Layer 1 halve contrastive true;
  do l1 <- new_Layer 1 halve contrastive false;
  do net <- Net_init [l0; l1] squared_error (1 # 10)%Q;
  do results <- Learn net inData outData 1 2 false false;
  do targets <- readA outData;
  ret (results, targets).

Definition result_of {A} (x : outcome (A * State (F := Q))) : outcome A :=
  match x with
  | Ok (a, _) => Ok a
  | Raise e => Raise e
  end.

(** An FFFB net of three layers of two units: the middle layer owns the
    mesh 0 from the input layer and the fbMesh 2 onto the mesh 1 of the
    output layer. *)
Definition demo_setup : M (F := Q) Net :=
  do l0 <- new_Layer 2 halve contrastive true;
  do l1 <- new_Layer 2 halve contrastive false;
  do l2 <- new_Layer 2 halve contrastive false;
  FFFB_init [l0; l1; l2] squared_error (1 # 10)%Q.

Definition demo_net : Net (F := Q) :=
  {| layers := [0; 1; 2]; metric := squared_error |}.

Definition demo_state : State (F := Q) :=
  match demo_setup empty_state with
  | Ok (_, st) => st
  | Raise _ => empty_state
  end.

(** C6: with one sample [([1], [0.5])], one time step per phase and two
    epochs, [Learn] returns a series of three entries whose last is 0: at
    the second epoch the in-place copy [layer.obsLin[:] = layer.preLin]
    writes through the view that [ClampObs] made of the row of [outData],
    so the metric compares the recorded output with itself; the row of
    targets holds that output when [Learn] returns. Against the target 0.5
    the metric of that output is not 0. *)
Theorem C6_Learn_metric_against_overwritten_targets :
  result_of (learn_scenario empty_state)
    = Ok ([(81 # 400)%Q; (6561 # 40000)%Q; 0%Q],
          [[(22330561 # 80000000)%Q]]) /\
  squared_error [[(22330561 # 80000000)%Q]] [[(1 # 2)%Q]] <> 0%Q.
Proof.
  split.
  - vm_compute. reflexivity.
  - vm_compute. discriminate.
Qed.

(** A layer of four units, clamped to an array of two entries. *)
Definition narrow_clamp_scenario : M (F := Q) (list nat * list Q * list (list Q)) :=
  do i <- new_Layer 4 halve contrastive true;
  do data <- allocV [1%Q; 2%Q];
  ClampPre i data ;;
  do l <- getLayer i;
  do x <- readV (preLin l);
  fun st => Ok ((lengths l, x, bufs st), st).


Lemma length_halve x : length (halve x) = length x.
Proof. unfold halve. apply length_map. Qed.

(** The state of [narrow_clamp_scenario] before the clamp, and the data. *)
Definition four_units_state : State (F := Q) :=
  match (new_Layer 4 halve contrastive true ;; allocV [1%Q; 2%Q]) empty_state with
  | Ok (_, st) => st
  | Raise _ => empty_state
  end.

Definition two_entries : view := {| vbase := 4; voff := 0; vlen := 2 |}.



Lemma demo_layers_valid :
  forall i, i ∈ layers demo_net -> is_Some (lays demo_state !! i).
Proof.
  intros i Hi. cbn in Hi.
  repeat (apply elem_of_cons in Hi as [-> | Hi]); [| | | inversion Hi].
  - exists {| preLin := {| vbase := 0; voff := 0; vlen := 2 |};
              preAct := {| vbase := 1; voff := 0; vlen := 2 |};
              obsLin := {| vbase := 2; voff := 0; vlen := 2 |};
              obsAct := {| vbase := 3; voff := 0; vlen := 2 |};
              act := halve; rule := contrastive; meshes := [];
              isInput := true; freeze := false |}. reflexivity.
  - exists {| preLin := {| vbase := 4; voff := 0; vlen := 2 |};
              preAct := {| vbase := 5; voff := 0; vlen := 2 |};
              obsLin := {| vbase := 6; voff := 0; vlen := 2 |};
              obsAct := {| vbase := 7; voff := 0; vlen := 2 |};
              act := halve; rule := contrastive; meshes := [0; 2];
              isInput := false; freeze := false |}. reflexivity.
  - exists {| preLin := {| vbase := 8; voff := 0; vlen := 2 |};
              preAct := {| vbase := 9; voff := 0; vlen := 2 |};
              obsLin := {| vbase := 10; voff := 0; vlen := 2 |};
              obsAct := {| vbase := 11; voff := 0; vlen := 2 |};
              act := halve; rule := contrastive; meshes := [1];
              isInput := false; freeze := false |}. reflexivity.
Defined.


(** ** The further properties on concrete nets *)

(** The net of [learn_scenario] before [Learn] is called. *)
Definition learn_setup : M (F := Q) Net :=
  new_array2 1 1 [[1%Q]] ;;
  new_array2 1 1 [[(1 # 2)%Q]] ;;
  do l0 <- new_Layer 1 halve contrastive true;
  do l1 <- new_Layer 1 halve contrastive false;
  Net_init [l0; l1] squared_error (1 # 10)%Q.

Definition state_of {A} (m : M (F := Q) A) : State (F := Q) :=
  match m empty_state with
  | Ok (_, st) => st
  | Raise _ => empty_state
  end.

Definition learn_state : State (F := Q) := state_of learn_setup.
Definition learn_net : Net (F := Q) :=
  {| layers := [0; 1]; metric := squared_error |}.
Definition in_data : array2 := {| abase := 0; arows := 1; acols := 1 |}.
Definition out_data : array2 := {| abase := 1; arows := 1; acols := 1 |}.

Lemma X10_Learn_series_witness :
  exists res st',
    Learn learn_net in_data out_data 1 2 false false learn_state
      = Ok (res, st') /\
    length res = 3.
Proof.
  assert (E : exists res st',
             Learn learn_net in_data out_data 1 2 false false learn_state
               = Ok (res, st'))
    by (vm_compute; eexists _, _; reflexivity).
  destruct E as (res & st' & E). exists res, st'. split; [exact E |].
  exact (proj1 (X10_Learn_series learn_net in_data out_data 1 2 false false
                  learn_state res st' E)).
Defined.

Lemma X11_zero_time_steps_witness :
  0 < arows in_data /\
  Learn learn_net in_data out_data 0 2 false false learn_state
    = Raise UnboundLocalError.
Proof.
  assert (Hrows : 0 < arows in_data) by (cbn; lia).
  split; [exact Hrows |].
  exact (proj2 (proj2 (proj1 (X11_zero_time_steps learn_net in_data out_data 2
                                false false learn_state) Hrows))).
Defined.

(** The first array of the demo state, as input. *)
Definition demo_input : view := {| vbase := 0; voff := 0; vlen := 2 |}.

Lemma X12_inference_keeps_weights_witness :
  exists v st',
    Predict demo_net demo_input demo_state = Ok (v, st') /\
    meshs st' = meshs demo_state.
Proof.
  assert (E : exists v st',
             Predict demo_net demo_input demo_state = Ok (v, st'))
    by (vm_compute; eexists _, _; reflexivity).
  destruct E as (v & st' & E). exists v, st'. split; [exact E |].
  exact (proj1 (X12_inference_keeps_weights demo_net demo_state st')
           demo_input v E).
Defined.

Definition demo_layer_0 : Layer (F := Q) :=
  {| preLin := {| vbase := 0; voff := 0; vlen := 2 |};
     preAct := {| vbase := 1; voff := 0; vlen := 2 |};
     obsLin := {| vbase := 2; voff := 0; vlen := 2 |};
     obsAct := {| vbase := 3; voff := 0; vlen := 2 |};
     act := halve; rule := contrastive; meshes := [];
     isInput := true; freeze := false |}.

Definition demo_layer_1 : Layer (F := Q) :=
  {| preLin := {| vbase := 4; voff := 0; vlen := 2 |};
     preAct := {| vbase := 5; voff := 0; vlen := 2 |};
     obsLin := {| vbase := 6; voff := 0; vlen := 2 |};
     obsAct := {| vbase := 7; voff := 0; vlen := 2 |};
     act := halve; rule := contrastive; meshes := [0; 2];
     isInput := false; freeze := false |}.

Definition demo_layer_2 : Layer (F := Q) :=
  {| preLin := {| vbase := 8; voff := 0; vlen := 2 |};
     preAct := {| vbase := 9; voff := 0; vlen := 2 |};
     obsLin := {| vbase := 10; voff := 0; vlen := 2 |};
     obsAct := {| vbase := 11; voff := 0; vlen := 2 |};
     act := halve; rule := contrastive; meshes := [1];
     isInput := false; freeze := false |}.

Definition demo_mesh_0 : Mesh (F := Q) :=
  {| size := 2; matrix := [[1%Q; 0%Q]; [0%Q; 1%Q]];
     inLayer := 0; rate := (1 # 10)%Q; mesh := None |}.

Lemma demo_state_layer_1 : lays demo_state !! 1 = Some demo_layer_1.
Proof. reflexivity. Qed.

Lemma demo_state_layer_2 : lays demo_state !! 2 = Some demo_layer_2.
Proof. reflexivity. Qed.

Lemma demo_state_mesh_0 : meshs demo_state !! 0 = Some demo_mesh_0.
Proof. reflexivity. Qed.

Lemma X13_Freeze_stops_Learn_witness :
  exists st1,
    Freeze 1 demo_state = Ok (tt, st1) /\
    Layer_Learn 1 st1 = Ok (tt, st1) /\
    Unfreeze 1 st1 = Ok (tt, demo_state).
Proof.
  destruct (X13_Freeze_stops_Learn 1 demo_layer_1 demo_state demo_state_layer_1)
    as (st1 & E1 & E2 & E3).
  exists st1. split; [exact E1 |]. split; [exact E2 |]. exact (E3 eq_refl).
Defined.


Lemma X15_Mesh_apply_product_witness :
  Mesh_apply 2 demo_input demo_state
    = Ok (Some (matvec [[1%Q; 0%Q]; [0%Q; 1%Q]]
                  (read (bufs demo_state) demo_input)), demo_state).
Proof.
  apply (X15_Mesh_apply_product 2 [[1%Q; 0%Q]; [0%Q; 1%Q]] demo_input
           demo_state); reflexivity.
Defined.

Lemma X16_resetActivity_fresh_zeros_witness :
  exists l' st',
    Layer_resetActivity 1 demo_state = Ok (tt, st') /\
    lays st' !! 1 = Some l' /\
    read (bufs st') (preAct l') = [0%Q; 0%Q] /\
    length (bufs demo_state) <= vbase (preAct l').
Proof.
  destruct (X16_resetActivity_fresh_zeros 1 demo_layer_1 demo_state
              demo_state_layer_1)
    as (l' & st' & E & Hlays & _ & _ & Hall & _).
  exists l', st'. split; [exact E |]. split.
  - rewrite Hlays. apply (lookup_set_layer _ _ _ _ demo_state_layer_1).
  - apply Forall_cons_1 in Hall as [_ Hall].
    apply Forall_cons_1 in Hall as [Hact _]. exact Hact.
Defined.

(** The demo state with one more array, [[1, 2]], as the targets. *)
Definition clamp_state : State (F := Q) :=
  set_bufs (bufs demo_state ++ [[1%Q; 2%Q]]) demo_state.
Definition targets : view := {| vbase := 12; voff := 0; vlen := 2 |}.

Lemma X17_copy_writes_clamped_data_witness :
  read (bufs clamp_state) targets = [1%Q; 2%Q] /\
  exists st',
    (ClampObs 2 targets ;; copy_pre_to_obs 2) clamp_state = Ok (tt, st') /\
    read (bufs st') targets = [0%Q; 0%Q].
Proof.
  split; [reflexivity |].
  destruct (X17_copy_writes_clamped_data 2 demo_layer_2 targets [1%Q; 2%Q]
              clamp_state) as (st' & E & Hread);
    [reflexivity | reflexivity | cbn; lia | cbn; lia | reflexivity
    | cbn; lia |].
  exists st'. split; [exact E | exact Hread].
Defined.

(** A layer of two units after an input layer of one unit. *)
Definition wide_setup : M (F := Q) Net :=
  do l0 <- new_Layer 1 halve contrastive true;
  do l1 <- new_Layer 2 halve contrastive false;
  Net_init [l0; l1] squared_error (1 # 10)%Q.

Definition wide_state : State (F := Q) := state_of wide_setup.

Lemma X18_failed_application_TypeError_witness :
  Layer_Predict 1 wide_state = Raise TypeError /\
  Layer_Observe 1 wide_state = Raise TypeError.
Proof.
  pose proof (X18_failed_application_TypeError 1 0
                {| preLin := {| vbase := 4; voff := 0; vlen := 2 |};
                   preAct := {| vbase := 5; voff := 0; vlen := 2 |};
                   obsLin := {| vbase := 6; voff := 0; vlen := 2 |};
                   obsAct := {| vbase := 7; voff := 0; vlen := 2 |};
                   act := halve; rule := contrastive; meshes := [0];
                   isInput := false; freeze := false |}
                {| preLin := {| vbase := 0; voff := 0; vlen := 1 |};
                   preAct := {| vbase := 1; voff := 0; vlen := 1 |};
                   obsLin := {| vbase := 2; voff := 0; vlen := 1 |};
                   obsAct := {| vbase := 3; voff := 0; vlen := 1 |};
                   act := halve; rule := contrastive; meshes := [];
                   isInput := true; freeze := false |}
                []
                {| size := 2; matrix := [[1%Q; 0%Q]; [0%Q; 1%Q]];
                   inLayer := 0; rate := (1 # 10)%Q; mesh := None |}
                [[1%Q; 0%Q]; [0%Q; 1%Q]] wide_state
                eq_refl eq_refl eq_refl eq_refl eq_refl) as [HP HO].
  split; [apply HP | apply HO]; cbn; lia.
Defined.

Lemma X19_new_Mesh_identity_witness :
  exists st',
    new_Mesh 5 0 (1 # 10)%Q four_units_state = Ok (0, st') /\
    applied_matrix st' 0 = Some (eye 5) /\
    Mesh_Predict 0 st'
      = Ok (None,
            printed (AttemptedToApply [0%Q; 0%Q; 0%Q; 0%Q] 4 (eye 5)) st').
Proof.
  destruct (X19_new_Mesh_identity 5 0 (1 # 10)%Q
              {| preLin := {| vbase := 0; voff := 0; vlen := 4 |};
                 preAct := {| vbase := 1; voff := 0; vlen := 4 |};
                 obsLin := {| vbase := 2; voff := 0; vlen := 4 |};
                 obsAct := {| vbase := 3; voff := 0; vlen := 4 |};
                 act := halve; rule := contrastive; meshes := [];
                 isInput := true; freeze := false |}
              four_units_state eq_refl)
    as (st' & E & _ & _ & HX & _ & Hnone).
  exists st'. split; [exact E |]. split; [exact HX |].
  apply Hnone. cbn. lia.
Defined.
End Vivilux.

(** * Properties of both files *)

(** A store of [meshes.py] with the Mesh 0 and the TransposeMesh 1 onto it. *)
Definition transposed_state : Meshes.State :=
  {| Meshes.heap :=
       [Meshes.example_mesh Meshes.default_args;
        Meshes.as_transpose 0 (Meshes.example_mesh Meshes.transpose_args)];
     Meshes.stdout := [] |}.

Lemma transposed_state_1 :
  Meshes.heap transposed_state !! 1
    = Some (Meshes.as_transpose 0 (Meshes.example_mesh Meshes.transpose_args)).
Proof. reflexivity. Defined.

(** C7: [Update] of a TransposeMesh ([meshes.py]) and of an fbMesh
    ([__init__.py]) returns with the whole store as it was, the target's
    [matrix] and [linMatrix] included; [set] on either raises, whatever the
    arguments: the exception "Feedback mesh has no 'set' method." without
    an argument, a [TypeError] with one. *)
Theorem C7_feedback_mesh_read_only :
  (forall (st : Meshes.State) (i : nat) (m : Meshes.Mesh) (t : nat),
     Meshes.heap st !! i = Some m -> Meshes.mesh m = Some t ->
     (forall delta, Meshes.Update_at i delta st = Ok st) /\
     (forall args, exists e, Meshes.set i args st = Raise e) /\
     Meshes.set i [] st
       = Raise (PyException "Feedback mesh has no 'set' method.")) /\
  (forall (F : Type) (S : Vivilux.Scalar F) (st : Vivilux.State) (i : nat)
          (m : Vivilux.Mesh) (t : nat),
     Vivilux.meshs st !! i = Some m -> Vivilux.mesh m = Some t ->
     (forall delta, Vivilux.Mesh_Update i delta st = Ok (tt, st)) /\
     (forall args, exists e, Vivilux.Mesh_set i args st = Raise e) /\
     Vivilux.Mesh_set i [] st
       = Raise (PyException "Feedback mesh has no 'set' method.")).
Proof.
  split.
  - intros st i m t Hi Hm. split; [| split].
    + intros delta. eapply Meshes.TransposeMesh_Update_noop; eassumption.
    + intros args. eapply Meshes.TransposeMesh_set_raises; eassumption.
    + eapply Meshes.TransposeMesh_set_no_argument; eassumption.
  - intros F S st i m t Hi Hm. split; [| split].
    + intros delta. eapply Vivilux.fbMesh_Update_noop; eassumption.
    + intros args. eapply Vivilux.fbMesh_set_raises; eassumption.
    + unfold Vivilux.Mesh_set.
      rewrite (Vivilux.sbind_eq _ _ _ _ _ (Vivilux.getMesh_eq _ _ _ Hi)).
      now rewrite Hm.
Qed.

Lemma C7_feedback_mesh_read_only_witness :
  (Meshes.Update_at 1 [[1%R]] transposed_state = Ok transposed_state /\
   exists e, Meshes.set 1 [[[1%R]]] transposed_state = Raise e) /\
  (Vivilux.Mesh_Update 2 [[1%Q]] Vivilux.demo_state = Ok (tt, Vivilux.demo_state) /\
   exists e, Vivilux.Mesh_set 2 [[[1%Q]]] Vivilux.demo_state = Raise e).
Proof.
  destruct C7_feedback_mesh_read_only as [HM HV].
  split.
  - destruct (HM transposed_state 1 _ 0 transposed_state_1 eq_refl)
      as (Hu & Hs & _).
    split; [apply Hu | apply Hs].
  - assert (H2 : Vivilux.meshs Vivilux.demo_state !! 2 =
                 Some {| Vivilux.size := 2;
                         Vivilux.matrix := [[1%Q; 0%Q]; [0%Q; 1%Q]];
                         Vivilux.inLayer := 2; Vivilux.rate := (1 # 2)%Q;
                         Vivilux.mesh := Some 1 |}) by reflexivity.
    destruct (HV Q Vivilux.Q_Scalar Vivilux.demo_state 2 _ 1 H2 eq_refl)
      as (Hu & Hs & _).
    split; [apply Hu | apply Hs].
Defined.

(** C9: applying a mesh to a vector whose length is not the number of
    columns of the matrix returns [None], having printed the diagnostic,
    and raises nothing; no Mesh object of the store changes. In
    [meshes.py] this is [applyTo], on the matrix [get()] returns; in
    [__init__.py] it is [apply], on [self.matrix] or, for an fbMesh, on
    the transpose of the target's. *)
Theorem C9_failed_application_returns_None :
  (forall (st : Meshes.State) (i : nat) (data : Meshes.vec) (G : Meshes.mat),
     Meshes.get i st = Ok G -> snd (shape G) <> length data ->
     exists st',
       Meshes.applyTo i data st = Ok (None, st') /\
       Meshes.heap st' = Meshes.heap st /\
       Meshes.stdout st' = Meshes.stdout st ++
         [Meshes.AttemptedToApply data (length data) (shape G);
          Meshes.PrintedError ValueError]) /\
  (forall (F : Type) (S : Vivilux.Scalar F) (st : Vivilux.State) (i : nat)
          (X : list (list F)) (data : Vivilux.view),
     Vivilux.applied_matrix st i = Some X ->
     snd (shape X) <> Vivilux.vlen data ->
     exists st',
       Vivilux.Mesh_apply i data st = Ok (None, st') /\
       Vivilux.meshs st' = Vivilux.meshs st /\
       Vivilux.lays st' = Vivilux.lays st /\
       Vivilux.bufs st' = Vivilux.bufs st /\
       Vivilux.stdout st' = Vivilux.stdout st ++
         [Vivilux.AttemptedToApply (Vivilux.read (Vivilux.bufs st) data)
            (Vivilux.vlen data) X]).
Proof.
  split.
  - intros st i data G HG Hne. eapply Meshes.applyTo_mismatch; eassumption.
  - intros F S st i X data HX Hne.
    eexists. split; [eapply Vivilux.Mesh_apply_mismatch; eassumption |].
    cbn. auto.
Qed.

Lemma transposed_state_get_0 :
  Meshes.get 0 transposed_state = Ok [[(1 * 0)%R]].
Proof.
  reflexivity.
Defined.

Lemma C9_failed_application_returns_None_witness :
  (exists st',
     Meshes.applyTo 0 [1%R; 2%R] transposed_state = Ok (None, st') /\
     Meshes.heap st' = Meshes.heap transposed_state) /\
  (exists st',
     Vivilux.Mesh_apply 0 {| Vivilux.vbase := 0; Vivilux.voff := 0;
                             Vivilux.vlen := 1 |} Vivilux.demo_state
       = Ok (None, st') /\
     Vivilux.meshs st' = Vivilux.meshs Vivilux.demo_state).
Proof.
  destruct C9_failed_application_returns_None as [HM HV].
  split.
  - assert (Hne : snd (shape [[(1 * 0)%R]]) <> length [1%R; 2%R])
      by (cbn; lia).
    destruct (HM transposed_state 0 [1%R; 2%R] _ transposed_state_get_0 Hne)
      as (st' & E & Hh & _).
    exists st'. split; [exact E | exact Hh].
  - assert (HX : Vivilux.applied_matrix Vivilux.demo_state 0
                 = Some [[1%Q; 0%Q]; [0%Q; 1%Q]]) by reflexivity.
    assert (Hne : snd (shape [[1%Q; 0%Q]; [0%Q; 1%Q]]) <>
                  Vivilux.vlen {| Vivilux.vbase := 0; Vivilux.voff := 0;
                                  Vivilux.vlen := 1 |}) by (cbn; lia).
    destruct (HV Q Vivilux.Q_Scalar Vivilux.demo_state 0 _ _ HX Hne)
      as (st' & E & Hm & _).
    exists st'. split; [exact E | exact Hm].
Defined.
